(** * Resilient large-file uploader: resumable-transfer protocol

    A shallow embedding of the upload-session coordinator
    (backend/src/routes/upload.ts), the chunk writer
    (backend/src/services/fileService.ts) and the client-side transfer
    scheduler (frontend/src/utils/uploader.ts), followed by the
    properties of the protocol.

    Conventions.  The record store behind Prisma is a pair of finite
    maps: sessions keyed by their id, chunk records keyed by the
    composite key (uploadId, chunkIndex).  The upload directory is a
    finite map from path to file, a file being a map from byte position
    to the byte written there (a hole below the end of the file reads
    as zero).  Request handlers are functions from the world before the
    request to the world after it together with the HTTP response. *)

From Stdlib Require Import ZArith NArith Lia.
From Stdlib.Init Require Import Byte.
From stdpp Require Import gmap strings list fin_maps pretty sorting.

Open Scope string_scope.

(** ** Enumerations *)

(** Prisma's [Status] enum, shared by sessions and chunk records. *)
Module Status.
Inductive t := UPLOADING | PROCESSING | COMPLETED | FAILED.
#[global] Instance eq_dec : EqDecision t.
Proof. solve_decision. Defined.
End Status.

(** [ChunkStatus['status']] of the client. *)
Module ChunkState.
Inductive t := PENDING | UPLOADING | SUCCESS | ERROR.
#[global] Instance eq_dec : EqDecision t.
Proof. solve_decision. Defined.
End ChunkState.

(** [UploadStatus['status']] of the client. *)
Module TransferState.
Inductive t := IDLE | UPLOADING | COMPLETED | ERROR.
#[global] Instance eq_dec : EqDecision t.
Proof. solve_decision. Defined.
End TransferState.

(** ** Files and the upload directory *)

(** A file is a map from byte position to the byte written there.  The
    file ends one past the last position written; a position below the
    end that was never written is a hole, which reads as zero
    ([FileService.flen], [FileService.readByte]). *)
Abbreviation file := (gmap N Byte.byte).
Abbreviation disk := (gmap string file).

Module FileService.

Definition UPLOAD_DIR : string := "uploads".

(** A name without path separator. *)
Fixpoint plain (s : string) : bool :=
  match s with
  | EmptyString => true
  | String a rest =>
      negb (bool_decide (String a EmptyString = "/")) && plain rest
  end.

(** [path.join(UPLOAD_DIR, `${uploadId}.bin`)].  [path.join] normalises
    what it joins; for a [plain] [uploadId] the result is the
    concatenation below.  An id with separators (the chunk route takes
    it unchecked from the query), such as "x/../s1", names the file of
    another session; such ids are outside this model, and what is
    stated of paths is stated for plain names. *)
Definition getFilePath (uploadId : string) : string :=
  UPLOAD_DIR +:+ "/" +:+ uploadId +:+ ".bin".

(** [path.join(UPLOAD_DIR, `${uploadId}_${finalFilename}`)] *)
Definition finalPath (uploadId finalFilename : string) : string :=
  UPLOAD_DIR +:+ "/" +:+ uploadId +:+ "_" +:+ finalFilename.

(** [fileHandle.write(buffer, 0, buffer.length, offset)]: a positional
    write, byte by byte from [pos] on. *)
Fixpoint pwrite (f : file) (pos : N) (buffer : list Byte.byte) : file :=
  match buffer with
  | [] => f
  | b :: rest => pwrite (<[pos := b]> f) (pos + 1)%N rest
  end.

(** The positions a write of [buffer] at [pos] covers. *)
Definition in_range (pos : N) (buffer : list Byte.byte) (p : N) : Prop :=
  (pos ≤ p < pos + N.of_nat (length buffer))%N.

(** The length of a file: one past the last position written. *)
Definition flen (f : file) : N :=
  foldr N.max 0%N ((λ kv : N * Byte.byte, N.succ kv.1) <$> map_to_list f).

(** The byte read at position [p] of the file at [path]: nothing when
    there is no such file or [p] is at or past its end, zero in a
    hole. *)
Definition readByte (d : disk) (path : string) (p : N) : option Byte.byte :=
  d !! path ≫= λ f : file,
    if decide (p < flen f)%N then Some (default Byte.x00 (f !! p)) else None.

(** [Number.MAX_SAFE_INTEGER] *)
Definition MAX_SAFE_INTEGER : N := 9007199254740991.

(** [writeChunk]: touch the scratch file when it is missing, open it
    for update and write the buffer at [offset].  Returns the
    directory after the write and [bytesWritten].

    This is the write for an [offset] up to [MAX_SAFE_INTEGER].  Node
    takes a position that is not a safe integer for no position and
    writes at the current position of the handle, which is 0 for the
    handle just opened; such offsets are outside this model, and what
    is stated of a write is stated for a safe offset. *)
Definition writeChunk (uploadId : string) (index : N) (buffer : list Byte.byte)
    (offset : N) (d : disk) : disk * nat :=
  let filePath := getFilePath uploadId in
  let d1 := if decide (is_Some (d !! filePath)) then d
            else <[filePath := ∅]> d in
  let f := default ∅ (d1 !! filePath) in
  (<[filePath := pwrite f offset buffer]> d1, length buffer).

(** [assembleFile]: rename the scratch file to its final name.  The
    rename throws when the scratch file does not exist. *)
Definition assembleFile (uploadId finalFilename : string) (d : disk)
    : string + (disk * string) :=
  let tempPath := getFilePath uploadId in
  let final := finalPath uploadId finalFilename in
  match d !! tempPath with
  | None =>
      inl ("ENOENT: no such file or directory, rename '" +:+ tempPath
           +:+ "' -> '" +:+ final +:+ "'")
  | Some f => inr (<[final := f]> (delete tempPath d), final)
  end.

End FileService.

(** ** The session coordinator (routes/upload.ts) *)

Module Routes.

(** Modelled from the spec: the Prisma schema (prisma/schema.prisma) is
    not among the sources.  A row of the [Upload] table has the fields
    of the spec's UploadSession; the key of the table is the id. *)
Record Upload := {
  filename : string;
  totalSize : Z;
  totalChunks : Z;
  status : Status.t;
  finalHash : option string;
  createdAt : Z   (* milliseconds since the epoch *)
}.

Definition set_status (s : Status.t) (u : Upload) : Upload :=
  {| filename := filename u; totalSize := totalSize u;
     totalChunks := totalChunks u; status := s;
     finalHash := finalHash u; createdAt := createdAt u |}.

Definition set_completed (h : string) (u : Upload) : Upload :=
  {| filename := filename u; totalSize := totalSize u;
     totalChunks := totalChunks u; status := Status.COMPLETED;
     finalHash := Some h; createdAt := createdAt u |}.

(** Invocations of the external collaborators, in order of call. *)
Inductive Call :=
| CallAssemble (uploadId finalFilename : string)
| CallPeekZip (filePath : string).

Record World := {
  uploads : gmap string Upload;
  chunks : gmap (string * N) Status.t;
  files : disk;
  calls : list Call
}.

Definition with_uploads (m : gmap string Upload) (w : World) : World :=
  {| uploads := m; chunks := chunks w; files := files w; calls := calls w |}.
Definition with_chunks (m : gmap (string * N) Status.t) (w : World) : World :=
  {| uploads := uploads w; chunks := m; files := files w; calls := calls w |}.
Definition with_files (d : disk) (w : World) : World :=
  {| uploads := uploads w; chunks := chunks w; files := d; calls := calls w |}.
Definition log_call (c : Call) (w : World) : World :=
  {| uploads := uploads w; chunks := chunks w; files := files w;
     calls := calls w ++ [c] |}.

(** Response bodies, one constructor per shape the handlers send. *)
Inductive Body :=
| JError (error : string)                       (* { error } *)
| JText (text : string)                         (* res.send(text) *)
| JInit (uploadId : string) (existingChunks : list N)
| JOk                                           (* { status: 'ok' } *)
| JStatus (s : Status.t) (message : string)     (* { status, message } *)
| JCompleted (zipFiles : list string) (hash : string)
| JCleaned (cleaned : nat).

Record Response := { code : Z; body : Body }.

Definition respond (c : Z) (b : Body) : Response := {| code := c; body := b |}.

(** *** JavaScript truthiness of the request fields

    A field of a request is absent ([None]) or carries a value of the
    type the client sends.  [!x] holds for an absent field, the empty
    string and the number zero. *)
Definition truthy_string (o : option string) : option string :=
  match o with
  | Some s => if decide (s = "") then None else Some s
  | None => None
  end.

Definition truthy_number (o : option Z) : option Z :=
  match o with
  | Some z => if decide (z = 0%Z) then None else Some z
  | None => None
  end.

(** *** POST /init *)

Record InitBody := {
  req_filename : option string;
  req_totalSize : option Z;
  req_totalChunks : option Z
}.

(** [prisma.upload.findFirst({ where: { filename, totalSize, status: UPLOADING } })] *)
Definition findFirst (fn : string) (ts : Z) (m : gmap string Upload)
    : option (string * Upload) :=
  head (map_to_list
          (filter (λ kv : string * Upload,
                     filename kv.2 = fn ∧ totalSize kv.2 = ts
                     ∧ status kv.2 = Status.UPLOADING) m)).

(** [prisma.upload.create].  Modelled from the spec: the schema's
    defaults are not among the sources; the new row gets an id not in
    use ("opaque unique identifier, assigned at creation"), status
    UPLOADING, no hash, and the current time as [createdAt]. *)
Definition create (now : Z) (fn : string) (ts tc : Z) (m : gmap string Upload)
    : string * gmap string Upload :=
  let id := fresh (dom m) in
  (id, <[id := {| filename := fn; totalSize := ts; totalChunks := tc;
                  status := Status.UPLOADING; finalHash := None;
                  createdAt := now |}]> m).

(** [prisma.chunk.findMany({ where: { uploadId, status: COMPLETED },
    select: { chunkIndex } })] mapped to the indices. *)
Definition completedChunks (uploadId : string) (m : gmap (string * N) Status.t)
    : list N :=
  (λ kv : (string * N) * Status.t, kv.1.2) <$>
    map_to_list (filter (λ kv : (string * N) * Status.t,
                           kv.1.1 = uploadId ∧ kv.2 = Status.COMPLETED) m).

Definition init (now : Z) (b : InitBody) (w : World) : World * Response :=
  match truthy_string (req_filename b), truthy_number (req_totalSize b),
        truthy_number (req_totalChunks b) with
  | Some fn, Some ts, Some tc =>
      let '(id, w1) :=
        match findFirst fn ts (uploads w) with
        | Some (id, _) => (id, w)
        | None =>
            let '(id, m) := create now fn ts tc (uploads w) in
            (id, with_uploads m w)
        end in
      (w1, respond 200 (JInit id (completedChunks id (chunks w1))))
  | _, _, _ => (w, respond 400 (JError "Missing required fields"))
  end.

(** The same handler cut at its [await]s, for runs in which two
    requests are served at once: the lookup, the create and the chunk
    query are three separate round trips to the store. *)
Inductive InitPc :=
| InitStart (b : InitBody)
| InitLooked (fn : string) (ts tc : Z) (found : option (string * Upload))
| InitHave (id : string)
| InitDone (r : Response).

Definition init_step (now : Z) (pc : InitPc) (w : World) : InitPc * World :=
  match pc with
  | InitStart b =>
      match truthy_string (req_filename b), truthy_number (req_totalSize b),
            truthy_number (req_totalChunks b) with
      | Some fn, Some ts, Some tc =>
          (InitLooked fn ts tc (findFirst fn ts (uploads w)), w)
      | _, _, _ => (InitDone (respond 400 (JError "Missing required fields")), w)
      end
  | InitLooked fn ts tc None =>
      let '(id, m) := create now fn ts tc (uploads w) in
      (InitHave id, with_uploads m w)
  | InitLooked _ _ _ (Some (id, _)) | InitHave id =>
      (InitDone (respond 200 (JInit id (completedChunks id (chunks w)))), w)
  | InitDone r => (InitDone r, w)
  end.

Fixpoint init_run (n : nat) (now : Z) (pc : InitPc) (w : World) : InitPc * World :=
  match n with
  | O => (pc, w)
  | S n' => let '(pc', w') := init_step now pc w in init_run n' now pc' w'
  end.

(** Two handlers in flight; the schedule says whose turn it is
    ([false]: the first request, [true]: the second). *)
Fixpoint init_race (sched : list bool) (now : Z) (a b : InitPc) (w : World)
    : InitPc * InitPc * World :=
  match sched with
  | [] => (a, b, w)
  | false :: rest =>
      let '(a', w') := init_step now a w in init_race rest now a' b w'
  | true :: rest =>
      let '(b', w') := init_step now b w in init_race rest now a b' w'
  end.

(** *** POST /chunk *)

Definition CHUNK_SIZE : N := 5 * 1024 * 1024.

Record ChunkReq := {
  q_uploadId : option string;      (* req.query.uploadId *)
  q_chunkIndex : option N;         (* req.query.chunkIndex, a decimal string *)
  b_data : option (list Byte.byte)
    (* req.body.data: [None] when the field is absent or the empty
       string, the two cases of [!data]; otherwise the bytes that
       [Buffer.from(data, 'base64')] decodes the non-empty string to,
       which may be none at all (as for "A") *)
}.

(** The indices whose offset [fileHandle.write] honours (see
    [FileService.writeChunk]): those up to 1717986918. *)
Definition safe_offset (cIndex : N) : Prop :=
  (cIndex * CHUNK_SIZE ≤ FileService.MAX_SAFE_INTEGER)%N.

#[global] Instance safe_offset_dec cIndex : Decision (safe_offset cIndex).
Proof. unfold safe_offset. apply _. Defined.

(** [prisma.chunk.upsert({ where, create, update })] *)
Definition upsert (key : string * N) (created : Status.t)
    (update : Status.t → Status.t) (m : gmap (string * N) Status.t)
    : gmap (string * N) Status.t :=
  match m !! key with
  | Some s => <[key := update s]> m
  | None => <[key := created]> m
  end.

(** [prisma.chunk.update({ where, data })]; throws when the record is
    missing. *)
Definition update_chunk (key : string * N) (s : Status.t)
    (m : gmap (string * N) Status.t) : option (gmap (string * N) Status.t) :=
  match m !! key with
  | Some _ => Some (<[key := s]> m)
  | None => None
  end.

(** The decimal string of a chunk index is never empty, so
    [!chunkIndex] holds exactly when the parameter is absent.  The
    handler never looks the session up; whether the store would refuse
    a chunk record for an unknown session is a matter of the schema and
    is not modelled. *)
Definition chunk (r : ChunkReq) (w : World) : World * Response :=
  match truthy_string (q_uploadId r), q_chunkIndex r with
  | Some uId, Some cIndex =>
      let w1 :=
        with_chunks (upsert (uId, cIndex) Status.UPLOADING
                       (λ _, Status.UPLOADING) (chunks w)) w in
      let offset := (cIndex * CHUNK_SIZE)%N in
      match b_data r with
      | None => (w1, respond 400 (JText "No data"))
      | Some buffer =>
          let w2 :=
            with_files (FileService.writeChunk uId cIndex buffer offset
                          (files w1)).1 w1 in
          match update_chunk (uId, cIndex) Status.COMPLETED (chunks w2) with
          | Some m => (with_chunks m w2, respond 200 JOk)
          | None => (w2, respond 500 (JError "Record to update not found."))
          end
      end
  | _, _ => (w, respond 400 (JError "Missing metadata"))
  end.

(** What an accepted chunk does to the upload directory: the write of
    the handler seen alone, at the offset the handler computes (for a
    [safe_offset], as for [FileService.writeChunk]). *)
Definition chunkWrite (uId : string) (d : disk) (c : N * list Byte.byte) : disk :=
  (FileService.writeChunk uId c.1 c.2 (c.1 * CHUNK_SIZE)%N d).1.

(** Chunks ordered by index. *)
Definition by_index (c1 c2 : N * list Byte.byte) : Prop := (c1.1 ≤ c2.1)%N.

#[global] Instance by_index_dec c1 c2 : Decision (by_index c1 c2).
Proof. unfold by_index. apply _. Defined.

(** *** POST /finalize *)

(** [prisma.upload.updateMany({ where: { id, status: from }, data:
    { status: to } })]: every matching row is rewritten, the number of
    matching rows is returned. *)
Definition updateMany (id : string) (from to : Status.t) (m : gmap string Upload)
    : gmap string Upload * nat :=
  let hit := λ (k : string) (u : Upload), bool_decide (k = id ∧ status u = from) in
  (map_imap (λ k u, Some (if hit k u then set_status to u else u)) m,
   size (filter (λ kv : string * Upload, hit kv.1 kv.2 = true) m)).

(** [prisma.upload.update({ where: { id }, data })]; throws when the
    row is missing. *)
Definition update (id : string) (f : Upload → Upload) (m : gmap string Upload)
    : option (gmap string Upload) :=
  match m !! id with
  | Some u => Some (<[id := f u]> m)
  | None => None
  end.

(** [prisma.chunk.count({ where: { uploadId, status: COMPLETED } })] *)
Definition countCompleted (uploadId : string) (m : gmap (string * N) Status.t) : nat :=
  size (filter (λ kv : (string * N) * Status.t,
                  kv.1.1 = uploadId ∧ kv.2 = Status.COMPLETED) m).

(** The archive check is an external collaborator: given the bytes of
    the assembled file it rejects with a message or lists entries. *)
Definition PeekZip := file → string + list string.

(** The body of the [try] block up to the last store update: the
    world as the steps left it, and the thrown message or the listed
    entries. *)
Definition finalize_try (peekZip : PeekZip) (uploadId : string) (u : Upload)
    (w : World) : World * (string + list string) :=
  let chunkCount := countCompleted uploadId (chunks w) in
  if decide (Z.of_nat chunkCount ≠ totalChunks u) then
    (w, inl ("Missing chunks. Expected " +:+ pretty (totalChunks u)
             +:+ ", got " +:+ pretty chunkCount))
  else
    let w1 := log_call (CallAssemble uploadId (filename u)) w in
    match FileService.assembleFile uploadId (filename u) (files w1) with
    | inl err => (w1, inl err)
    | inr (d, filePath) =>
        let w2 := log_call (CallPeekZip filePath) (with_files d w1) in
        match peekZip (default ∅ (d !! filePath)) with
        | inl err => (w2, inl err)
        | inr names => (w2, inr names)
        end
    end.

Definition finalize (peekZip : PeekZip) (uploadId : string) (w : World)
    : World * Response :=
  let '(m, count) :=
    updateMany uploadId Status.UPLOADING Status.PROCESSING (uploads w) in
  let w0 := with_uploads m w in
  if decide (count = 0%nat) then
    match uploads w0 !! uploadId with
    | None => (w0, respond 404 (JError "Upload not found"))
    | Some upload =>
        (w0, respond 200 (JStatus (status upload)
                            "Upload already finalized or processing"))
    end
  else
    match uploads w0 !! uploadId with
    | None => (w0, respond 500 (JError "Upload disappeared"))
    | Some upload =>
        let finalHash := "dummy_hash" in
        let '(w1, outcome) := finalize_try peekZip uploadId upload w0 in
        let completed :=
          match outcome with
          | inl err => inl err
          | inr names =>
              match update uploadId (set_completed finalHash) (uploads w1) with
              | Some m' => inr (with_uploads m' w1, names)
              | None => inl "Record to update not found."
              end
          end in
        match completed with
        | inr (w2, names) => (w2, respond 200 (JCompleted names finalHash))
        | inl err =>
            (* catch *)
            match update uploadId (set_status Status.FAILED) (uploads w1) with
            | Some m' => (with_uploads m' w1, respond 500 (JError err))
            | None => (w1, respond 500 (JError "Record to update not found."))
            end
        end
    end.

(** The same handler for a body without [uploadId].  Prisma leaves an
    undefined field out of a filter, so the conditional update matches
    every UPLOADING row; the lookup that follows, [findUnique] with an
    undefined id, is refused by Prisma's validation and throws, in
    both branches and before the [try]: the rows stay PROCESSING, and
    the error handler of server.ts answers 500 with the message of the
    error (whose wording is Prisma's and is not modelled). *)
Definition updateManyAny (from to : Status.t) (m : gmap string Upload)
    : gmap string Upload * nat :=
  ((λ u, if decide (status u = from) then set_status to u else u) <$> m,
   size (filter (λ kv : string * Upload, status kv.2 = from) m)).

Definition finalizeNoId (w : World) : World * Response :=
  let '(m, count) :=
    updateManyAny Status.UPLOADING Status.PROCESSING (uploads w) in
  (with_uploads m w,
   respond 500 (JError "Invalid `prisma.upload.findUnique()` invocation")).

(** *** POST /cleanup *)

Definition DAY_MS : Z := 24 * 60 * 60 * 1000.

Definition orphan (cutoff : Z) (kv : string * Upload) : Prop :=
  status kv.2 = Status.UPLOADING ∧ (createdAt kv.2 < cutoff)%Z.

#[global] Instance orphan_dec cutoff kv : Decision (orphan cutoff kv).
Proof. unfold orphan. apply _. Defined.

(** [prisma.chunk.deleteMany({ where: { uploadId } })] *)
Definition deleteMany (uploadId : string) (m : gmap (string * N) Status.t)
    : gmap (string * N) Status.t :=
  filter (λ kv : (string * N) * Status.t, kv.1.1 ≠ uploadId) m.

(** [prisma.upload.delete({ where: { id } })]; throws when the row is
    missing. *)
Definition delete_upload (id : string) (m : gmap string Upload)
    : option (gmap string Upload) :=
  match m !! id with
  | Some _ => Some (delete id m)
  | None => None
  end.

(** The body of the [for] loop, for the rows still to be reclaimed.
    A throw leaves the loop with the world as it is at that point. *)
Fixpoint cleanup_loop (orphaned : list (string * Upload)) (w : World)
    : World * option string :=
  match orphaned with
  | [] => (w, None)
  | (id, _) :: rest =>
      let w1 := with_chunks (deleteMany id (chunks w)) w in
      match delete_upload id (uploads w1) with
      | None => (w1, Some "Record to delete does not exist.")
      | Some m =>
          let w2 := with_uploads m w1 in
          let filePath := FileService.getFilePath id in
          let w3 := if decide (is_Some (files w2 !! filePath))
                    then with_files (delete filePath (files w2)) w2
                    else w2 in
          cleanup_loop rest w3
      end
  end.

Definition cleanup (now : Z) (w : World) : World * Response :=
  let cutoff := (now - DAY_MS)%Z in
  let orphaned := map_to_list (filter (orphan cutoff) (uploads w)) in
  match cleanup_loop orphaned w with
  | (w', None) => (w', respond 200 (JCleaned (length orphaned)))
  | (w', Some err) => (w', respond 500 (JError err))
  end.

End Routes.

(** ** The transfer scheduler (frontend/src/utils/uploader.ts) *)

Module Uploader.

Definition CHUNK_SIZE : Z := 5 * 1024 * 1024.
Definition CONCURRENCY : nat := 3.

(** The browser's [File]: a name and the bytes; [size] is their number. *)
Record File := { name : string; bytes : list Byte.byte }.

Definition size (f : File) : Z := Z.of_nat (length (bytes f)).

(** [Blob.slice(start, end)] as the File API defines it: a negative
    bound counts from the end, both bounds are clamped to the blob, and
    an empty span results when the end precedes the start. *)
Definition clamp (sz x : Z) : Z :=
  if decide (x < 0)%Z then Z.max (sz + x) 0 else Z.min x sz.

Definition slice (f : File) (start end_ : Z) : list Byte.byte :=
  let relativeStart := clamp (size f) start in
  let relativeEnd := clamp (size f) end_ in
  let span := Z.max (relativeEnd - relativeStart) 0 in
  take (Z.to_nat span) (drop (Z.to_nat relativeStart) (bytes f)).

Record ChunkStatus := {
  index : nat;
  status : ChunkState.t;
  attempts : nat
}.

(** What [onProgress] receives.  The [chunks] array of the snapshot
    holds the live chunk objects, so it is read off the uploader; the
    speed and the estimate are clock readings and are left out. *)
Record UploadStatus := {
  total : Z;
  uploaded : Z;
  state : TransferState.t
}.

Record Uploader := {
  file : File;
  uploadId : option string;
  chunks : list ChunkStatus;
  activeRequestCount : Z;
  queue : list nat;
  aborted : bool;
  loadedBytes : Z;
  reports : list UploadStatus;   (* the calls of onProgress, oldest first *)
  finalizeCalls : nat            (* the POSTs to /finalize *)
}.

(** [Math.ceil(a / b)] for a positive [b]. *)
Definition ceil_div (a b : Z) : Z := (- ((- a) / b))%Z.

Definition totalChunks (f : File) : Z := ceil_div (size f) CHUNK_SIZE.

(** The constructor. *)
Definition new (f : File) : Uploader :=
  {| file := f; uploadId := None;
     chunks := (λ i, {| index := i; status := ChunkState.PENDING; attempts := 0 |})
                 <$> seq 0 (Z.to_nat (totalChunks f));
     activeRequestCount := 0; queue := []; aborted := false;
     loadedBytes := 0; reports := []; finalizeCalls := 0 |}.

Definition getChunkStart (i : nat) : Z := (Z.of_nat i * CHUNK_SIZE)%Z.

Definition getChunkEnd (f : File) (i : nat) : Z :=
  Z.min (getChunkStart i + CHUNK_SIZE) (size f).

Definition getChunk (f : File) (i : nat) : list Byte.byte :=
  slice f (getChunkStart i) (getChunkEnd f i).

Definition getChunkSize (f : File) (i : nat) : Z :=
  (getChunkEnd f i - getChunkStart i)%Z.

Definition updateStatus (s : TransferState.t) (u : Uploader) : Uploader :=
  {| file := file u; uploadId := uploadId u; chunks := chunks u;
     activeRequestCount := activeRequestCount u; queue := queue u;
     aborted := aborted u; loadedBytes := loadedBytes u;
     reports := reports u ++ [{| total := size (file u);
                                 uploaded := loadedBytes u; state := s |}];
     finalizeCalls := finalizeCalls u |}.

(** [this.chunks[i].status = s], for an [i] known to be in range. *)
Definition setChunk (i : nat) (s : ChunkState.t) (u : Uploader) : Uploader :=
  {| file := file u; uploadId := uploadId u;
     chunks := alter (λ c, {| index := index c; status := s;
                              attempts := attempts c |}) i (chunks u);
     activeRequestCount := activeRequestCount u; queue := queue u;
     aborted := aborted u; loadedBytes := loadedBytes u;
     reports := reports u; finalizeCalls := finalizeCalls u |}.

Definition addLoaded (n : Z) (u : Uploader) : Uploader :=
  {| file := file u; uploadId := uploadId u; chunks := chunks u;
     activeRequestCount := activeRequestCount u; queue := queue u;
     aborted := aborted u; loadedBytes := (loadedBytes u + n)%Z;
     reports := reports u; finalizeCalls := finalizeCalls u |}.

Definition addActive (n : Z) (u : Uploader) : Uploader :=
  {| file := file u; uploadId := uploadId u; chunks := chunks u;
     activeRequestCount := (activeRequestCount u + n)%Z; queue := queue u;
     aborted := aborted u; loadedBytes := loadedBytes u;
     reports := reports u; finalizeCalls := finalizeCalls u |}.

Definition setQueue (q : list nat) (u : Uploader) : Uploader :=
  {| file := file u; uploadId := uploadId u; chunks := chunks u;
     activeRequestCount := activeRequestCount u; queue := q;
     aborted := aborted u; loadedBytes := loadedBytes u;
     reports := reports u; finalizeCalls := finalizeCalls u |}.

Definition setAborted (u : Uploader) : Uploader :=
  {| file := file u; uploadId := uploadId u; chunks := chunks u;
     activeRequestCount := activeRequestCount u; queue := queue u;
     aborted := true; loadedBytes := loadedBytes u;
     reports := reports u; finalizeCalls := finalizeCalls u |}.

Definition setUploadId (id : string) (u : Uploader) : Uploader :=
  {| file := file u; uploadId := Some id; chunks := chunks u;
     activeRequestCount := activeRequestCount u; queue := queue u;
     aborted := aborted u; loadedBytes := loadedBytes u;
     reports := reports u; finalizeCalls := finalizeCalls u |}.

Definition countFinalize (u : Uploader) : Uploader :=
  {| file := file u; uploadId := uploadId u; chunks := chunks u;
     activeRequestCount := activeRequestCount u; queue := queue u;
     aborted := aborted u; loadedBytes := loadedBytes u;
     reports := reports u; finalizeCalls := S (finalizeCalls u) |}.

(** The server as the client meets it: the reply to the handshake (or
    none when the request fails), the fate of the POST of chunk [i]
    made with [r] retries left, and the fate of the finalize request. *)
Record Network := {
  net_init : option (string * option (list nat));
  net_chunk : nat → nat → bool;
  net_finalize : bool
}.

(** The body [handshake] posts to /init. *)
Definition handshakeBody (u : Uploader) : Routes.InitBody :=
  {| Routes.req_filename := Some (name (file u));
     Routes.req_totalSize := Some (size (file u));
     Routes.req_totalChunks := Some (Z.of_nat (length (chunks u))) |}.

(** The query and body [uploadChunk] posts to /chunk for chunk [i].
    [blobToBase64] yields a non-empty string for a blob that is not
    empty, and no text (or the empty string) for an empty one. *)
Definition chunkRequest (u : Uploader) (i : nat) : Routes.ChunkReq :=
  {| Routes.q_uploadId := uploadId u;
     Routes.q_chunkIndex := Some (N.of_nat i);
     Routes.b_data := match getChunk (file u) i with
                      | [] => None
                      | chunk => Some chunk
                      end |}.

(** [handshake]; [None] when the request throws. *)
Definition handshake (net : Network) (u : Uploader) : option Uploader :=
  match net_init net with
  | None => None
  | Some (id, existingChunks) =>
      let mark := λ (u : Uploader) (i : nat),
        match chunks u !! i with
        | Some _ => addLoaded (getChunkSize (file u) i)
                      (setChunk i ChunkState.SUCCESS u)
        | None => u
        end in
      let u1 := setUploadId id u in
      let u2 := match existingChunks with
                | Some l => foldl mark u1 l
                | None => u1
                end in
      Some (updateStatus TransferState.UPLOADING u2)
  end.

(** Where a worker stands between two of its suspension points. *)
Inductive Worker :=
| AtLoop                                    (* about to test the loop condition *)
| Posting (i retries : nat) (delay : Z)     (* awaiting the POST of chunk i *)
| Sleeping (i retries : nat) (delay : Z)    (* awaiting the backoff timer *)
| Exited
| Threw.                                    (* chunks[i] was undefined *)

(** The [finally] block of [uploadChunk]. *)
Definition uploadChunk_finally (u : Uploader) : Uploader :=
  updateStatus TransferState.UPLOADING (addActive (-1) u).

(** One resumption of a worker, up to its next suspension point. *)
Definition step (net : Network) (wk : Worker) (u : Uploader) : Worker * Uploader :=
  match wk with
  | AtLoop =>
      if aborted u then (Exited, u)
      else match queue u with
           | [] => (Exited, u)
           | i :: rest =>
               let u1 := addActive 1 (setQueue rest u) in
               match chunks u1 !! i with
               | None => (Threw, u1)
               | Some _ =>
                   (Posting i 10 1000,
                    updateStatus TransferState.UPLOADING
                      (setChunk i ChunkState.UPLOADING u1))
               end
           end
  | Posting i retries delay =>
      if net_chunk net i retries then
        (AtLoop,
         uploadChunk_finally
           (addLoaded (Z.of_nat (length (getChunk (file u) i)))
              (setChunk i ChunkState.SUCCESS u)))
      else if decide (0 < retries)%nat then (Sleeping i retries delay, u)
      else (AtLoop,
            uploadChunk_finally (setAborted (setChunk i ChunkState.ERROR u)))
  | Sleeping i retries delay => (Posting i (retries - 1) (delay * 2), u)
  | Exited => (Exited, u)
  | Threw => (Threw, u)
  end.

(** The workers resumed in the order the schedule gives. *)
Fixpoint run (net : Network) (sched : list nat) (ws : list Worker) (u : Uploader)
    : list Worker * Uploader :=
  match sched with
  | [] => (ws, u)
  | k :: rest =>
      match ws !! k with
      | Some wk =>
          let '(wk', u') := step net wk u in
          run net rest (<[k := wk']> ws) u'
      | None => run net rest ws u
      end
  end.

(** [processQueue]: each worker runs to its first suspension point as
    it is created, then the schedule decides. *)
Definition processQueue (net : Network) (sched : list nat) (u : Uploader)
    : list Worker * Uploader :=
  run net (seq 0 CONCURRENCY ++ sched) (replicate CONCURRENCY AtLoop) u.

Definition all_exited (ws : list Worker) : bool :=
  forallb (λ wk, match wk with Exited => true | _ => false end) ws.

Definition some_threw (ws : list Worker) : bool :=
  existsb (λ wk, match wk with Threw => true | _ => false end) ws.

Definition every_success (u : Uploader) : bool :=
  forallb (λ c, bool_decide (status c = ChunkState.SUCCESS)) (chunks u).

(** [start]; [None] when the schedule ends before the workers do. *)
Definition start (net : Network) (sched : list nat) (u : Uploader)
    : option Uploader :=
  match handshake net u with
  | None => Some (updateStatus TransferState.ERROR u)
  | Some u1 =>
      let u2 :=
        setQueue (index <$> filter (λ c, status c ≠ ChunkState.SUCCESS) (chunks u1))
          u1 in
      let '(ws, u3) := processQueue net sched u2 in
      if some_threw ws then Some (updateStatus TransferState.ERROR u3)
      else if all_exited ws then
        if negb (aborted u3) && every_success u3 then
          let u4 := countFinalize u3 in
          if net_finalize net then Some (updateStatus TransferState.COMPLETED u4)
          else Some (updateStatus TransferState.ERROR u4)
        else Some u3
      else None
  end.

(** What the workers keep true of the uploader: the queue holds
    positions of the chunk list, every status reported so far is
    UPLOADING, and something has been reported. *)
Definition steady (u : Uploader) : Prop :=
  (∀ i, i ∈ queue u → i < length (chunks u))%nat
  ∧ (∀ r, r ∈ reports u → state r = TransferState.UPLOADING)
  ∧ reports u ≠ [].

(** The chunk a worker has taken off the queue and not yet settled. *)
Definition worker_chunk (wk : Worker) : option nat :=
  match wk with
  | Posting i _ _ | Sleeping i _ _ => Some i
  | _ => None
  end.

Definition inflight (ws : list Worker) : list nat := omap worker_chunk ws.

(** No chunk is queued or in flight twice, and none of those has
    status SUCCESS. *)
Definition pending_ok (ws : list Worker) (u : Uploader) : Prop :=
  NoDup (queue u ++ inflight ws)%list
  ∧ ∀ i c, i ∈ (queue u ++ inflight ws)%list → chunks u !! i = Some c →
      status c ≠ ChunkState.SUCCESS.

Definition succeeded (u : Uploader) (j : nat) : Prop :=
  (status <$> chunks u !! j) = Some ChunkState.SUCCESS.

(** Each chunk object sits at the position its [index] names. *)
Definition indexed (u : Uploader) : Prop :=
  ∀ i c, chunks u !! i = Some c → index c = i.

End Uploader.

(** ** Sample inputs *)

Module Samples.
Import Routes.

Definition world_empty : World :=
  {| uploads := ∅; chunks := ∅; files := ∅; calls := [] |}.

(** A session finalized earlier. *)
Definition session_done : Upload :=
  {| filename := "a.zip"; totalSize := 7; totalChunks := 1;
     status := Status.COMPLETED; finalHash := Some "dummy_hash";
     createdAt := 0 |}.

Definition world_done : World :=
  {| uploads := {["s1" := session_done]};
     chunks := {[("s1", 0%N) := Status.COMPLETED]};
     files := ∅; calls := [] |}.

(** A session of two chunks, one of them received. *)
Definition session_open : Upload :=
  {| filename := "a.zip"; totalSize := 7; totalChunks := 2;
     status := Status.UPLOADING; finalHash := None; createdAt := 0 |}.

Definition world_partial : World :=
  {| uploads := {["s1" := session_open]};
     chunks := {[("s1", 0%N) := Status.COMPLETED]};
     files := {[FileService.getFilePath "s1" := {[0%N := Byte.x50]}]};
     calls := [] |}.

(** A session of one chunk, received. *)
Definition world_full : World :=
  {| uploads := {["s1" := {| filename := "a.zip"; totalSize := 1;
                             totalChunks := 1; status := Status.UPLOADING;
                             finalHash := None; createdAt := 0 |}]};
     chunks := {[("s1", 0%N) := Status.COMPLETED]};
     files := {[FileService.getFilePath "s1" := {[0%N := Byte.x50]}]};
     calls := [] |}.

(** Five sessions two days after the first four were created: an
    abandoned one, one of each other status, and one started an hour
    ago.  Times are in milliseconds. *)
Definition row (s : Status.t) (h : option string) (t : Z) : Upload :=
  {| filename := "a.zip"; totalSize := 7; totalChunks := 2;
     status := s; finalHash := h; createdAt := t |}.

Definition two_days : Z := 172800000.

Definition world_mixed : World :=
  {| uploads :=
       {[ "abandoned" := row Status.UPLOADING None 0;
          "processing" := row Status.PROCESSING None 0;
          "completed" := row Status.COMPLETED (Some "dummy_hash") 0;
          "failed" := row Status.FAILED None 0;
          "recent" := row Status.UPLOADING None (two_days - 3600000) ]};
     chunks :=
       {[ ("abandoned", 0%N) := Status.COMPLETED;
          ("processing", 0%N) := Status.COMPLETED;
          ("recent", 1%N) := Status.COMPLETED ]};
     files :=
       {[ FileService.getFilePath "abandoned" := {[0%N := Byte.x50]};
          FileService.getFilePath "recent" := {[5242880%N := Byte.x4b]};
          FileService.finalPath "completed" "a.zip" := {[0%N := Byte.x50]} ]};
     calls := [] |}.

Definition handshake_request : InitBody :=
  {| req_filename := Some "a.zip"; req_totalSize := Some 7%Z;
     req_totalChunks := Some 2%Z |}.

Definition zero_byte_request : InitBody :=
  {| req_filename := Some "empty.zip"; req_totalSize := Some 0%Z;
     req_totalChunks := Some 0%Z |}.

Definition one_byte_file : Uploader.File :=
  {| Uploader.name := "a.zip"; Uploader.bytes := [Byte.x50] |}.

(** A file one byte longer than a chunk. *)
Definition two_chunk_file : Uploader.File :=
  {| Uploader.name := "b.zip";
     Uploader.bytes := replicate (N.to_nat 5242881) Byte.x50 |}.

(** A server that accepts the handshake and fails each chunk POST. *)
Definition failing_network : Uploader.Network :=
  {| Uploader.net_init := Some ("s1", Some []);
     Uploader.net_chunk := λ _ _, false;
     Uploader.net_finalize := true |}.

End Samples.

(** ** The archive check (fileService.peekZip) *)

Module Zip.

(** What yauzl delivers for an archive opened with [lazyEntries]: each
    [readEntry] yields the next entry of the central directory; after
    the last one it yields the end, or an error when the directory is
    damaged from there on. *)
Inductive ZipTail := ZipEnd | ZipError (message : string).

Record ZipFile := { entries : list string; tail : ZipTail }.

(** [yauzl.open]: an error, or the archive. *)
Definition Yauzl := file → string + ZipFile.

(** [/\/$/.test(fileName)] *)
Fixpoint is_directory (fileName : string) : bool :=
  match fileName with
  | EmptyString => false
  | String a EmptyString => bool_decide (String a EmptyString = "/")
  | String _ rest => is_directory rest
  end.

(** The ['entry'], ['end'] and ['error'] handlers, from the first
    [readEntry] on; [filenames] is the array collected so far. *)
Fixpoint readEntries (es : list string) (t : ZipTail) (filenames : list string)
    : string + list string :=
  match es with
  | [] =>
      match t with
      | ZipEnd => inr filenames
      | ZipError message => inl message
      end
  | fileName :: rest =>
      let filenames' :=
        if is_directory fileName then filenames
        else (filenames ++ [fileName])%list in
      if decide (length filenames' < 10)%nat then readEntries rest t filenames'
      else inr filenames'
  end.

Definition is_file (fileName : string) : Prop := is_directory fileName = false.

#[global] Instance is_file_dec fileName : Decision (is_file fileName).
Proof. unfold is_file. apply _. Defined.

Definition peekZip (yauzl : Yauzl) : Routes.PeekZip :=
  λ f, match yauzl f with
       | inl err => inl err
       | inr zipfile => readEntries (entries zipfile) (tail zipfile) []
       end.

End Zip.

(** ** The router: one request after the other *)

Module Router.
Import Routes.

(** The four routes of routes/upload.ts; a request that reads the clock
    carries the time at which it is served.  A finalize request
    carries the [uploadId] of its body, or none. *)
Inductive Request :=
| PostInit (now : Z) (b : InitBody)
| PostChunk (r : ChunkReq)
| PostFinalize (uploadId : string)
| PostFinalizeNoId
| PostCleanup (now : Z).

Definition serve (peekZip : PeekZip) (req : Request) (w : World)
    : World * Response :=
  match req with
  | PostInit now b => init now b w
  | PostChunk r => chunk r w
  | PostFinalize uploadId => finalize peekZip uploadId w
  | PostFinalizeNoId => finalizeNoId w
  | PostCleanup now => cleanup now w
  end.

Definition serveAll (peekZip : PeekZip) (reqs : list Request) (w : World) : World :=
  foldl (λ w req, (serve peekZip req w).1) w reqs.

(** What holds of every world the routes can produce from the empty
    store: a session has a hash exactly when it is COMPLETED, and a
    chunk record is UPLOADING or COMPLETED. *)
Definition consistent (w : World) : Prop :=
  (∀ id u, uploads w !! id = Some u →
     (status u = Status.COMPLETED → finalHash u = Some "dummy_hash")
     ∧ (status u ≠ Status.COMPLETED → finalHash u = None))
  ∧ (∀ k s, chunks w !! k = Some s →
       s = Status.UPLOADING ∨ s = Status.COMPLETED).

End Router.

(** ** Schedules and what the workers keep true *)

Module Schedule.
Import Uploader.

(** The workers resumed in turn, [rounds] times over. *)
Definition round_robin (rounds : nat) : list nat :=
  concat (replicate rounds (seq 0 CONCURRENCY)).

(** A worker that will not move again. *)
Definition final (wk : Worker) : Prop :=
  match wk with
  | Exited | Threw => True
  | _ => False
  end.

#[global] Instance final_dec wk : Decision (final wk).
Proof. destruct wk; simpl; apply _. Defined.

(** A bound on the resumptions a worker still needs for the chunk it
    holds, and on those the whole pool still needs. *)
Definition weight (wk : Worker) : nat :=
  match wk with
  | AtLoop => 1
  | Posting _ retries _ => 2 * retries + 2
  | Sleeping _ retries _ => 2 * (retries - 1) + 3
  | Exited | Threw => 0
  end.

Definition potential (ws : list Worker) (u : Uploader) : nat :=
  23 * length (queue u) + sum_list_with weight ws.

(** While the transfer is not aborted: every chunk is SUCCESS, queued
    or in flight, and once a worker has exited the queue is empty. *)
Definition covered (ws : list Worker) (u : Uploader) : Prop :=
  aborted u = false →
  (∀ i c, chunks u !! i = Some c →
     status c = ChunkState.SUCCESS ∨ i ∈ (queue u ++ inflight ws)%list)
  ∧ (Exited ∈ ws → queue u = []).

(** A network on which every chunk gets through on one of its eleven
    attempts. *)
Definition forgiving (net : Network) : Prop :=
  ∀ i, ∃ r, (r ≤ 10)%nat ∧ net_chunk net i r = true.

(** A worker that holds a chunk has an attempt left that succeeds. *)
Definition hopeful (net : Network) (wk : Worker) : Prop :=
  match wk with
  | Posting i retries _ => ∃ r, (r ≤ retries)%nat ∧ net_chunk net i r = true
  | Sleeping i retries _ => ∃ r, (r < retries)%nat ∧ net_chunk net i r = true
  | _ => True
  end.

(** What [axiosRetry] keeps true of an attempt: at most ten retries
    are left, the delay has doubled once for each retry used, and the
    timer runs only while a retry is left. *)
Definition backoff (wk : Worker) : Prop :=
  match wk with
  | Posting _ retries delay =>
      (retries ≤ 10)%nat ∧ delay = (1000 * 2 ^ Z.of_nat (10 - retries))%Z
  | Sleeping _ retries delay =>
      (0 < retries ≤ 10)%nat ∧ delay = (1000 * 2 ^ Z.of_nat (10 - retries))%Z
  | _ => True
  end.

(** The bytes a chunk counts for in the progress figure. *)
Definition credit (f : File) (c : ChunkStatus) : Z :=
  if decide (status c = ChunkState.SUCCESS) then getChunkSize f (index c)
  else 0%Z.

Definition credited (u : Uploader) : Z :=
  foldr Z.add 0%Z (credit (file u) <$> chunks u).

(** The progress figure is in step with the chunk list: [loadedBytes]
    is the size of the chunks in SUCCESS, and every report made so far
    carries the size of the file and a figure within it. *)
Definition accounted (u : Uploader) : Prop :=
  indexed u
  ∧ Z.of_nat (length (chunks u)) = totalChunks (file u)
  ∧ loadedBytes u = credited u
  ∧ ∀ r, r ∈ reports u →
      total r = size (file u) ∧ (0 ≤ uploaded r ≤ size (file u))%Z.

End Schedule.

(** ** Client and server together *)

Module Transfer.

(** The file that holds exactly these bytes, from position 0 on. *)
Definition fileOfBytes (l : list Byte.byte) : file := FileService.pwrite ∅ 0 l.

(** The chunk requests an uploader of [f] with session [id] posts when
    its workers take the chunks in the given order. *)
Definition chunkRequests (f : Uploader.File) (id : string) (order : list nat)
    : list Router.Request :=
  (λ i, Router.PostChunk
          (Uploader.chunkRequest (Uploader.setUploadId id (Uploader.new f)) i))
    <$> order.

(** Chunks accepted by the server one after the other, each given by
    its index and its bytes. *)
Definition acceptAll (id : string) (cs : list (N * list Byte.byte))
    (w : Routes.World) : Routes.World :=
  foldl (λ w c, (Routes.chunk {| Routes.q_uploadId := Some id;
                                 Routes.q_chunkIndex := Some c.1;
                                 Routes.b_data := Some c.2 |} w).1) w cs.

(** Chunk [i] of [f] as the server receives it. *)
Definition sent (f : Uploader.File) (i : nat) : N * list Byte.byte :=
  (N.of_nat i, Uploader.getChunk f i).

(** The bytes of the file before position [min (k * CHUNK_SIZE) size]:
    what the first [k] chunks hold. *)
Definition upto (f : Uploader.File) (k : nat) : list Byte.byte :=
  take (Z.to_nat (Z.min (Z.of_nat k * Uploader.CHUNK_SIZE) (Uploader.size f)))
    (Uploader.bytes f).

End Transfer.

(** ** More sample inputs *)

Module MoreSamples.
Import Routes.

(** The row of [Samples.world_full]. *)
Definition session_full : Upload :=
  {| filename := "a.zip"; totalSize := 1; totalChunks := 1;
     status := Status.UPLOADING; finalHash := None; createdAt := 0 |}.

(** A session of one chunk for which nothing has arrived yet. *)
Definition world_fresh : World :=
  {| uploads := {["s1" := session_full]}; chunks := ∅; files := ∅;
     calls := [] |}.

(** A session of one chunk whose record is COMPLETED while its scratch
    file is missing. *)
Definition world_recorded : World :=
  {| uploads := {["s1" := session_full]};
     chunks := {[("s1", 0%N) := Status.COMPLETED]}; files := ∅;
     calls := [] |}.

(** A session of two chunks for which nothing has arrived yet. *)
Definition world_fresh2 : World :=
  {| uploads := {["s1" := Samples.session_open]}; chunks := ∅; files := ∅;
     calls := [] |}.

(** A server on which the first two attempts at each chunk fail. *)
Definition flaky_network : Uploader.Network :=
  {| Uploader.net_init := Some ("s1", Some []);
     Uploader.net_chunk := λ _ retries, bool_decide (retries ≤ 8)%nat;
     Uploader.net_finalize := true |}.

(** A server that has chunk 0 of the session already. *)
Definition resuming_network : Uploader.Network :=
  {| Uploader.net_init := Some ("s1", Some [0%nat]);
     Uploader.net_chunk := λ _ _, true;
     Uploader.net_finalize := true |}.

End MoreSamples.

Import Samples.

(** * Properties *)

(** ** The store primitives *)

Section store.
Import Routes.

Lemma with_uploads_id w : with_uploads (uploads w) w = w.
Proof. by destruct w. Qed.

Lemma updateMany_hit id from to (m : gmap string Upload) u :
  m !! id = Some u → status u = from →
  updateMany id from to m = (<[id := set_status to u]> m, 1%nat).
Proof.
  intros Hm Hs. unfold updateMany. f_equal.
  - apply map_eq. intros k. rewrite map_lookup_imap.
    destruct (decide (k = id)) as [->|Hne].
    + rewrite Hm, lookup_insert_eq. simpl.
      by rewrite bool_decide_eq_true_2.
    + rewrite lookup_insert_ne by done.
      destruct (m !! k) as [v|]; simpl; [|done].
      rewrite bool_decide_eq_false_2; [done|]. by intros [? _].
  - rewrite <- (map_size_singleton (M := gmap string) id u). f_equal.
    apply map_eq. intros k. apply option_eq. intros v.
    rewrite map_lookup_filter_Some, lookup_singleton_Some. simpl.
    rewrite bool_decide_eq_true. split.
    + intros [Hk [-> _]]. split; [done|congruence].
    + intros [-> <-]. done.
Qed.

Lemma updateMany_miss id from to (m : gmap string Upload) :
  (∀ u, m !! id = Some u → status u ≠ from) →
  updateMany id from to m = (m, 0%nat).
Proof.
  intros Hm. unfold updateMany. f_equal.
  - apply map_eq. intros k. rewrite map_lookup_imap.
    destruct (m !! k) as [v|] eqn:Hk; simpl; [|done].
    rewrite bool_decide_eq_false_2; [done|]. intros [-> ?]. by eapply Hm.
  - apply map_size_empty_iff, map_eq. intros k. rewrite lookup_empty.
    apply map_lookup_filter_None. right. intros v Hk. simpl.
    rewrite bool_decide_eq_true. intros [-> ?]. by eapply Hm.
Qed.

(** The conditional update matches at most the one row of that id. *)
Lemma updateMany_count id from to (m : gmap string Upload) :
  (updateMany id from to m).2 = 1%nat
    ∧ (∃ u, m !! id = Some u ∧ status u = from)
  ∨ updateMany id from to m = (m, 0%nat)
    ∧ (∀ u, m !! id = Some u → status u ≠ from).
Proof.
  destruct (m !! id) as [u|] eqn:Hm.
  - destruct (decide (status u = from)) as [Hs|Hs].
    + left. rewrite (updateMany_hit _ _ _ _ u) by done. eauto.
    + right. split; [apply updateMany_miss|]; congruence.
  - right. split; [apply updateMany_miss|]; congruence.
Qed.

End store.

(** ** Finalize *)

Section finalize.
Import Routes.
Variable peekZip : PeekZip.

Lemma finalize_lost id w :
  (∀ u, uploads w !! id = Some u → status u ≠ Status.UPLOADING) →
  finalize peekZip id w =
    (w, match uploads w !! id with
        | None => respond 404 (JError "Upload not found")
        | Some u => respond 200 (JStatus (status u)
                                   "Upload already finalized or processing")
        end).
Proof.
  intros Hm. unfold finalize. rewrite updateMany_miss by done.
  rewrite with_uploads_id. simpl. by destruct (uploads w !! id).
Qed.

(** The caller that wins the transition, as a function of the [try]
    block's outcome. *)
Lemma finalize_won id w u :
  uploads w !! id = Some u → status u = Status.UPLOADING →
  let u0 := set_status Status.PROCESSING u in
  let w0 := with_uploads (<[id := u0]> (uploads w)) w in
  finalize peekZip id w =
    match finalize_try peekZip id u0 w0 with
    | (w1, inl err) =>
        (with_uploads (<[id := set_status Status.FAILED u]> (uploads w)) w1,
         respond 500 (JError err))
    | (w1, inr names) =>
        (with_uploads (<[id := set_completed "dummy_hash" u]> (uploads w)) w1,
         respond 200 (JCompleted names "dummy_hash"))
    end.
Proof.
  intros Hm Hs u0 w0. unfold finalize.
  rewrite (updateMany_hit _ _ _ _ u) by done. simpl.
  rewrite lookup_insert_eq. fold u0 w0.
  assert (Hup : ∀ w1 o, finalize_try peekZip id u0 w0 = (w1, o) →
                        uploads w1 = <[id := u0]> (uploads w)).
  { intros w1 o. unfold finalize_try.
    repeat (case_decide || case_match); intros; simplify_eq; done. }
  destruct (finalize_try peekZip id u0 w0) as [w1 o] eqn:Ht.
  specialize (Hup _ _ eq_refl).
  destruct o as [err|names]; unfold update; rewrite Hup, lookup_insert_eq;
    rewrite insert_insert_eq; done.
Qed.

End finalize.

Section finalize_claims.
Import Routes.

(** C1. A Finalize call on an existing session whose status is not
    UPLOADING: the conditional update from UPLOADING to PROCESSING
    matches zero rows, the world (rows, chunk records, files, calls to
    the assembly and archive collaborators) is left as it was, and the
    response is the 200 carrying the session's current status.
    Conversely, a call after which a collaborator was invoked or a file
    changed is one whose conditional update changed a row. *)
Theorem finalize_not_uploading_reports_status (peekZip : PeekZip) :
  (∀ id w u,
     uploads w !! id = Some u → status u ≠ Status.UPLOADING →
     (updateMany id Status.UPLOADING Status.PROCESSING (uploads w)).2 = 0%nat
     ∧ finalize peekZip id w =
         (w, respond 200 (JStatus (status u)
                            "Upload already finalized or processing")))
  ∧ (∀ id w,
       calls (finalize peekZip id w).1 ≠ calls w
       ∨ files (finalize peekZip id w).1 ≠ files w →
       (updateMany id Status.UPLOADING Status.PROCESSING (uploads w)).2 = 1%nat
       ∧ ∃ u, uploads w !! id = Some u ∧ status u = Status.UPLOADING).
Proof.
  split.
  - intros id w u Hm Hs.
    assert (Hmiss : ∀ u', uploads w !! id = Some u' → status u' ≠ Status.UPLOADING)
      by (intros u' Hu'; congruence).
    split; [by rewrite updateMany_miss|].
    rewrite finalize_lost by done. by rewrite Hm.
  - intros id w Hch.
    destruct (updateMany_count id Status.UPLOADING Status.PROCESSING (uploads w))
      as [[Hc Hu]|[_ Hmiss]]; [done|].
    rewrite finalize_lost in Hch by done. simpl in Hch. by destruct Hch.
Qed.

Lemma finalize_not_uploading_reports_status_witness :
  uploads world_done !! "s1" = Some session_done
  ∧ status session_done ≠ Status.UPLOADING
  ∧ finalize (λ _, inr []) "s1" world_done =
      (world_done, respond 200 (JStatus Status.COMPLETED
                                  "Upload already finalized or processing")).
Proof.
  split; [reflexivity|]. split; [discriminate|].
  apply (proj1 (finalize_not_uploading_reports_status (λ _, inr [])) "s1"
           world_done session_done); [reflexivity|discriminate].
Defined.

(** C2. A Finalize call that wins the transition while the number of
    COMPLETED chunk records differs from the session's totalChunks:
    the row of the session ends with status FAILED and its other
    fields as they were, the other rows, the chunk records, the files
    and the list of collaborator calls are those of before (no
    assembly), and the response is the 500 with the message naming
    both numbers.  And whatever the call, a
    row's finalHash after it is the one it had before, unless the row
    is the finalized session, every step succeeded (the counts match,
    the scratch file was there to rename, the archive check accepted),
    the status is COMPLETED and the response is the success reply. *)
Theorem finalize_chunk_count_mismatch (peekZip : PeekZip) :
  (∀ id w u,
     uploads w !! id = Some u → status u = Status.UPLOADING →
     Z.of_nat (countCompleted id (chunks w)) ≠ totalChunks u →
     finalize peekZip id w =
       ({| uploads :=
             <[id := {| filename := filename u; totalSize := totalSize u;
                        totalChunks := totalChunks u;
                        status := Status.FAILED;
                        finalHash := finalHash u;
                        createdAt := createdAt u |}]> (uploads w);
           chunks := chunks w; files := files w; calls := calls w |},
        respond 500
          (JError ("Missing chunks. Expected " +:+ pretty (totalChunks u)
                   +:+ ", got " +:+ pretty (countCompleted id (chunks w)))))
     ∧ (status <$> uploads (finalize peekZip id w).1 !! id)
         = Some Status.FAILED)
  ∧ (∀ id w k u',
       uploads (finalize peekZip id w).1 !! k = Some u' →
       (∃ u0, uploads w !! k = Some u0 ∧ finalHash u' = finalHash u0)
       ∨ (k = id ∧ finalHash u' = Some "dummy_hash"
          ∧ status u' = Status.COMPLETED
          ∧ ∃ u0 scratch names,
              uploads w !! id = Some u0 ∧ status u0 = Status.UPLOADING
              ∧ Z.of_nat (countCompleted id (chunks w)) = totalChunks u0
              ∧ files w !! FileService.getFilePath id = Some scratch
              ∧ peekZip scratch = inr names
              ∧ (finalize peekZip id w).2 =
                  respond 200 (JCompleted names "dummy_hash"))).
Proof.
  split.
  - intros id w u Hm Hs Hcount.
    rewrite (finalize_won peekZip id w u) by done.
    unfold finalize_try. simpl. rewrite decide_True by done. simpl.
    split; [done|]. by rewrite lookup_insert_eq.
  - intros id w k u'.
    destruct (updateMany_count id Status.UPLOADING Status.PROCESSING (uploads w))
      as [[_ (u & Hm & Hs)]|[_ Hmiss]].
    + rewrite (finalize_won peekZip id w u) by done.
      unfold finalize_try, FileService.assembleFile. simpl.
      destruct (decide (Z.of_nat (countCompleted id (chunks w)) ≠ totalChunks u))
        as [Hne|Heq%dec_stable]; simpl.
      { destruct (decide (k = id)) as [->|Hk].
        - rewrite lookup_insert_eq. intros [= <-]. left. eauto.
        - rewrite lookup_insert_ne by done. intros Hu'. left. eauto. }
      destruct (files w !! FileService.getFilePath id) as [scratch|] eqn:Hf; simpl.
      2:{ destruct (decide (k = id)) as [->|Hk].
          - rewrite lookup_insert_eq. intros [= <-]. left. eauto.
          - rewrite lookup_insert_ne by done. intros Hu'. left. eauto. }
      rewrite lookup_insert_eq. simpl.
      destruct (peekZip scratch) as [err|names] eqn:Hp; simpl.
      { destruct (decide (k = id)) as [->|Hk].
        - rewrite lookup_insert_eq. intros [= <-]. left. eauto.
        - rewrite lookup_insert_ne by done. intros Hu'. left. eauto. }
      destruct (decide (k = id)) as [->|Hk].
      * rewrite lookup_insert_eq. intros [= <-]. right.
        split; [done|]. split; [done|]. split; [done|].
        exists u, scratch, names. done.
      * rewrite lookup_insert_ne by done. intros Hu'. left. eauto.
    + rewrite finalize_lost by done. simpl. intros Hu'. left. eauto.
Qed.

Lemma finalize_chunk_count_mismatch_witness :
  uploads world_partial !! "s1" = Some session_open
  ∧ status session_open = Status.UPLOADING
  ∧ Z.of_nat (countCompleted "s1" (chunks world_partial)) ≠ totalChunks session_open
  ∧ finalize (λ _, inr []) "s1" world_partial =
      ({| uploads :=
            {["s1" := {| filename := "a.zip"; totalSize := 7;
                         totalChunks := 2; status := Status.FAILED;
                         finalHash := None; createdAt := 0 |}]};
          chunks := chunks world_partial; files := files world_partial;
          calls := [] |},
       respond 500 (JError "Missing chunks. Expected 2, got 1"))
  ∧ (status <$> uploads (finalize (λ _, inr []) "s1" world_partial).1 !! "s1")
      = Some Status.FAILED.
Proof.
  split; [reflexivity|]. split; [reflexivity|].
  split; [vm_compute; discriminate|].
  destruct (proj1 (finalize_chunk_count_mismatch (λ _, inr [])) "s1"
              world_partial session_open) as [Hrun Hst];
    [reflexivity|reflexivity|vm_compute; discriminate|].
  split; [|exact Hst]. rewrite Hrun. reflexivity.
Defined.

End finalize_claims.

(** ** Handshake *)

Section init_claims.
Import Routes.

(** C10. A handshake whose filename is absent, or whose totalSize or
    totalChunks is absent or 0, is answered with the 400 "Missing
    required fields" and leaves the world as it was: no session is
    created.  A zero-byte file (totalSize 0, totalChunks 0) is one such
    request. *)
Theorem init_rejects_missing_fields now (b : InitBody) (w : World) :
  req_filename b = None
  ∨ req_totalSize b = None ∨ req_totalSize b = Some 0%Z
  ∨ req_totalChunks b = None ∨ req_totalChunks b = Some 0%Z →
  init now b w = (w, respond 400 (JError "Missing required fields")).
Proof.
  unfold init.
  intros [Hf|[Hs|[Hs|[Hc|Hc]]]].
  - by rewrite Hf.
  - rewrite Hs. simpl. by destruct (truthy_string _).
  - rewrite Hs. simpl. by destruct (truthy_string _).
  - rewrite Hc. simpl.
    by destruct (truthy_string (req_filename b)), (truthy_number (req_totalSize b)).
  - rewrite Hc. simpl.
    by destruct (truthy_string (req_filename b)), (truthy_number (req_totalSize b)).
Qed.

Lemma init_rejects_missing_fields_witness :
  (req_filename zero_byte_request = None
   ∨ req_totalSize zero_byte_request = None
   ∨ req_totalSize zero_byte_request = Some 0%Z
   ∨ req_totalChunks zero_byte_request = None
   ∨ req_totalChunks zero_byte_request = Some 0%Z)
  ∧ init 1000 zero_byte_request world_empty =
      (world_empty, respond 400 (JError "Missing required fields")).
Proof.
  split; [right; right; left; reflexivity|].
  apply (init_rejects_missing_fields 1000 zero_byte_request world_empty).
  right; right; left; reflexivity.
Defined.

(** The handler run alone through its three round trips is the
    handler. *)
Lemma init_run_alone now b w :
  init_run 3 now (InitStart b) w =
    (InitDone (init now b w).2, (init now b w).1).
Proof.
  unfold init. simpl.
  destruct (truthy_string _) as [fn|]; [|done].
  destruct (truthy_number (req_totalSize b)) as [ts|]; [|done].
  destruct (truthy_number (req_totalChunks b)) as [tc|]; [|done].
  destruct (findFirst fn ts (uploads w)) as [[id u]|]; done.
Qed.

(** C9, on the code.  Two handshakes for the same (filename, totalSize)
    against the empty store, the second one doing its lookup before the
    first one has done its create: both lookups find nothing, both
    creates happen, and the store holds two UPLOADING sessions for the
    pair. *)
Theorem init_race_creates_two_sessions :
  let row := {| filename := "a.zip"; totalSize := 7; totalChunks := 2;
                status := Status.UPLOADING; finalHash := None;
                createdAt := 1000 |} in
  init_race [false; true; false; true; false; true] 1000
    (InitStart handshake_request) (InitStart handshake_request) world_empty =
    (InitDone (respond 200 (JInit "0" [])),
     InitDone (respond 200 (JInit "1" [])),
     {| uploads := {["0" := row; "1" := row]};
        chunks := ∅; files := ∅; calls := [] |}).
Proof. vm_compute. reflexivity. Qed.

End init_claims.

(** ** Chunk acceptance *)

Section chunk_claims.
Import Routes.

(** C6, on the code.  A chunk-accept request without payload for a
    chunk already COMPLETED: the answer is the 400 "No data", but the
    upsert ran before the payload was looked at, so the chunk record is
    back to UPLOADING; a Finalize that would have succeeded now fails
    for a missing chunk. *)
Theorem chunk_without_data_mutates :
  let r := {| q_uploadId := Some "s1"; q_chunkIndex := Some 0%N;
              b_data := None |} in
  chunks world_full !! ("s1", 0%N) = Some Status.COMPLETED
  ∧ chunk r world_full =
      (with_chunks {[("s1", 0%N) := Status.UPLOADING]} world_full,
       respond 400 (JText "No data"))
  ∧ (finalize (λ _, inr ["a.txt"]) "s1" world_full).2 =
      respond 200 (JCompleted ["a.txt"] "dummy_hash")
  ∧ (finalize (λ _, inr ["a.txt"]) "s1" (chunk r world_full).1).2 =
      respond 500 (JError "Missing chunks. Expected 1, got 0").
Proof. vm_compute. done. Qed.

End chunk_claims.

(** ** The transfer scheduler *)

Section uploader_claims.
Import Uploader.

(** C3, on the code.  A one-chunk file whose POST fails on each of the
    eleven attempts: the chunk ends in ERROR, the abort flag is set and
    no finalize request is made, but [onProgress] was only ever called
    with UPLOADING; the ERROR status is never reported. *)
Theorem exhausted_retries_never_report_error :
  start failing_network (replicate 22 0%nat) (new one_byte_file) =
    Some {| file := one_byte_file; uploadId := Some "s1";
            chunks := [{| index := 0; status := ChunkState.ERROR;
                          attempts := 0 |}];
            activeRequestCount := 0; queue := []; aborted := true;
            loadedBytes := 0;
            reports :=
              replicate 3 {| total := 1; uploaded := 0;
                             state := TransferState.UPLOADING |};
            finalizeCalls := 0 |}.
Proof. vm_compute. reflexivity. Qed.

End uploader_claims.

(** ** Positional writes *)

Section writes.
Import FileService Routes.

Lemma pwrite_lookup (f : file) pos buffer p :
  pwrite f pos buffer !! p =
    if decide (in_range pos buffer p) then buffer !! N.to_nat (p - pos)
    else f !! p.
Proof.
  unfold in_range. revert f pos.
  induction buffer as [|b rest IH]; intros f pos; simpl.
  - rewrite decide_False by lia. done.
  - rewrite IH. destruct (decide (p = pos)) as [->|Hne].
    + rewrite decide_False by lia. rewrite decide_True by lia.
      rewrite lookup_insert_eq. by replace (N.to_nat (pos - pos)) with 0%nat by lia.
    + rewrite lookup_insert_ne by done.
      destruct (decide (pos + 1 ≤ p < pos + 1 + N.of_nat (length rest))%N).
      * rewrite decide_True by lia.
        by replace (N.to_nat (p - pos)) with (S (N.to_nat (p - (pos + 1)))) by lia.
      * rewrite decide_False by lia. done.
Qed.

Lemma pwrite_pwrite_same (f : file) pos buffer :
  pwrite (pwrite f pos buffer) pos buffer = pwrite f pos buffer.
Proof.
  apply map_eq. intros p. rewrite !pwrite_lookup. by case_decide.
Qed.

Lemma pwrite_comm (f : file) pos1 buf1 pos2 buf2 :
  (pos1 + N.of_nat (length buf1) ≤ pos2
   ∨ pos2 + N.of_nat (length buf2) ≤ pos1)%N →
  pwrite (pwrite f pos1 buf1) pos2 buf2 = pwrite (pwrite f pos2 buf2) pos1 buf1.
Proof.
  intros Hdisj. apply map_eq. intros p. rewrite !pwrite_lookup.
  unfold in_range. repeat case_decide; try done; lia.
Qed.

Lemma foldr_max_lt (l : list N) (p : N) :
  (p < foldr N.max 0 l)%N ↔ ∃ x, x ∈ l ∧ (p < x)%N.
Proof.
  induction l as [|y l IH]; simpl.
  - split; [lia|]. by intros (x & Hx%elem_of_nil & _).
  - rewrite N.max_lt_iff, IH. split.
    + intros [Hy|(x & Hx & Hp)]; [exists y|exists x]; (split; [|done]).
      * by left.
      * by right.
    + intros (x & [->|Hx]%elem_of_cons & Hp); [by left|right; eauto].
Qed.

(** The end of a file lies past a position exactly when something was
    written at or after it. *)
Lemma flen_spec (f : file) (p : N) :
  (p < flen f)%N ↔ ∃ q, (p ≤ q)%N ∧ is_Some (f !! q).
Proof.
  unfold flen. rewrite foldr_max_lt. split.
  - intros (x & Hx & Hp). apply list_elem_of_fmap in Hx as ([q b] & -> & Hin).
    apply elem_of_map_to_list in Hin. simpl in *.
    exists q. split; [lia|eauto].
  - intros (q & Hq & [b Hb]). exists (N.succ q). split; [|lia].
    apply list_elem_of_fmap. exists (q, b). split; [done|].
    by apply elem_of_map_to_list.
Qed.

Lemma flen_pwrite (f : file) pos buffer (p : N) :
  (p < flen (pwrite f pos buffer))%N ↔
    (p < flen f)%N ∨ (buffer ≠ [] ∧ (p < pos + N.of_nat (length buffer))%N).
Proof.
  rewrite !flen_spec. split.
  - intros (q & Hq & Hw). rewrite pwrite_lookup in Hw.
    case_decide as Hin; [|left; eauto].
    right. unfold in_range in Hin. split; [|lia].
    intros ->. simpl in Hin. lia.
  - intros [(q & Hq & Hw)|[Hne Hp]].
    + exists q. split; [done|]. rewrite pwrite_lookup.
      case_decide as Hin; [|done]. apply lookup_lt_is_Some.
      unfold in_range in Hin. lia.
    + assert (0 < length buffer)%nat by (destruct buffer; [done|simpl; lia]).
      exists (pos + N.of_nat (length buffer) - 1)%N. split; [lia|].
      rewrite pwrite_lookup, decide_True by (unfold in_range; lia).
      apply lookup_lt_is_Some. lia.
Qed.

(** What is read after a write: the buffer in its range; below the
    former end what was read before; zeros in the gap between the
    former end and the start of the write; nothing further on. *)
Lemma readByte_pwrite (d : disk) path (f : file) pos buffer (p : N) :
  readByte (<[path := pwrite f pos buffer]> d) path p =
    if decide (in_range pos buffer p) then buffer !! N.to_nat (p - pos)
    else if decide (p < flen f)%N then Some (default Byte.x00 (f !! p))
    else if decide (buffer ≠ [] ∧ (p < pos)%N) then Some Byte.x00
    else None.
Proof.
  unfold readByte. rewrite lookup_insert_eq. simpl.
  pose proof (flen_pwrite f pos buffer p) as Hlen.
  rewrite pwrite_lookup. unfold in_range in *.
  destruct (decide (pos ≤ p < pos + N.of_nat (length buffer))%N) as [Hin|Hout].
  - rewrite decide_True.
    + destruct (lookup_lt_is_Some_2 buffer (N.to_nat (p - pos))) as [b ->];
        [lia|done].
    + apply Hlen. right. split; [|lia]. intros ->. simpl in Hin. lia.
  - destruct (decide (p < flen f)%N) as [Hold|Hnew].
    + rewrite decide_True by (apply Hlen; by left). done.
    + destruct (decide (buffer ≠ [] ∧ (p < pos)%N)) as [[Hne Hgap]|Hno].
      * rewrite decide_True by (apply Hlen; right; split; [done|lia]).
        destruct (f !! p) as [b|] eqn:Hb; [|done].
        exfalso. apply Hnew, flen_spec. exists p. split; [lia|eauto].
      * rewrite decide_False; [done|].
        intros [?|[Hne Hp]]%Hlen; [done|]. apply Hno. split; [done|lia].
Qed.

Lemma writeChunk_insert uploadId i buffer offset (d : disk) :
  (writeChunk uploadId i buffer offset d).1 =
    <[getFilePath uploadId :=
        pwrite (default ∅ (d !! getFilePath uploadId)) offset buffer]> d.
Proof.
  unfold writeChunk. simpl. case_decide as Hex.
  - done.
  - rewrite lookup_insert_eq, insert_insert_eq.
    apply eq_None_not_Some in Hex. by rewrite Hex.
Qed.

Lemma chunkWrite_insert uId (d : disk) (c : N * list Byte.byte) :
  chunkWrite uId d c =
    <[getFilePath uId :=
        pwrite (default ∅ (d !! getFilePath uId)) (c.1 * CHUNK_SIZE) c.2]> d.
Proof. apply writeChunk_insert. Qed.

Lemma chunkWrite_twice uId (d : disk) c :
  chunkWrite uId (chunkWrite uId d c) c = chunkWrite uId d c.
Proof.
  rewrite !chunkWrite_insert. rewrite lookup_insert_eq, insert_insert_eq. simpl.
  by rewrite pwrite_pwrite_same.
Qed.

Lemma chunkWrite_comm uId (d : disk) c1 c2 :
  c1.1 ≠ c2.1 →
  (N.of_nat (length c1.2) ≤ CHUNK_SIZE)%N →
  (N.of_nat (length c2.2) ≤ CHUNK_SIZE)%N →
  chunkWrite uId (chunkWrite uId d c1) c2 = chunkWrite uId (chunkWrite uId d c2) c1.
Proof.
  intros Hne H1 H2. rewrite !chunkWrite_insert.
  rewrite !lookup_insert_eq, !insert_insert_eq. simpl. f_equal.
  apply pwrite_comm. nia.
Qed.

Lemma foldl_as_foldr {A B} (f : A → B → A) (a : A) (l : list B) :
  foldl f a l = foldr (λ x acc, f acc x) a (reverse l).
Proof.
  induction l as [|x l IH] using rev_ind; [done|].
  rewrite foldl_snoc, reverse_snoc. simpl. by rewrite IH.
Qed.

Lemma foldl_chunkWrite_perm uId (d : disk) (l l' : list (N * list Byte.byte)) :
  NoDup l.*1 →
  Forall (λ c, (N.of_nat (length c.2) ≤ CHUNK_SIZE)%N) l →
  l ≡ₚ l' →
  foldl (chunkWrite uId) d l = foldl (chunkWrite uId) d l'.
Proof.
  intros Hnd Hlen Hperm. rewrite !foldl_as_foldr.
  assert (Hnd' : NoDup (reverse l).*1).
  { rewrite fmap_reverse. by rewrite reverse_Permutation. }
  rewrite Forall_forall in Hlen.
  apply (foldr_permutation (=) (λ c d, chunkWrite uId d c)).
  - intros c ? ? ->. done.
  - intros j1 c1 j2 c2 d' Hj Hc1 Hc2.
    symmetry. apply chunkWrite_comm.
    + intros Heq. apply Hj.
      eapply (NoDup_lookup _ _ _ _ Hnd').
      * rewrite list_lookup_fmap, Hc1. done.
      * rewrite list_lookup_fmap, Hc2. simpl. by rewrite Heq.
    + apply Hlen, elem_of_reverse. by eapply list_elem_of_lookup_2.
    + apply Hlen, elem_of_reverse. by eapply list_elem_of_lookup_2.
  - by rewrite !reverse_Permutation.
Qed.






End writes.

(** ** Chunk geometry *)

Section geometry.
Import Uploader.

Lemma ceil_div_bounds a b :
  (0 < b)%Z → ((ceil_div a b - 1) * b < a ≤ ceil_div a b * b)%Z.
Proof.
  intros Hb. unfold ceil_div.
  pose proof (Z.mul_div_le (- a) b Hb).
  pose proof (Z.mul_succ_div_gt (- a) b Hb). lia.
Qed.

Lemma size_nonneg f : (0 ≤ size f)%Z.
Proof. unfold size. lia. Qed.

Lemma totalChunks_bounds f :
  ((totalChunks f - 1) * CHUNK_SIZE < size f ≤ totalChunks f * CHUNK_SIZE)%Z.
Proof. apply ceil_div_bounds. done. Qed.

Lemma totalChunks_nonneg f : (0 ≤ totalChunks f)%Z.
Proof.
  pose proof (totalChunks_bounds f). pose proof (size_nonneg f).
  unfold CHUNK_SIZE in *. lia.
Qed.

Lemma length_chunks_new f : Z.of_nat (length (chunks (new f))) = totalChunks f.
Proof.
  simpl. rewrite length_fmap, length_seq.
  pose proof (totalChunks_nonneg f). lia.
Qed.

Lemma slice_inside f a b :
  (0 ≤ a ≤ b)%Z → (b ≤ size f)%Z →
  slice f a b = take (Z.to_nat (b - a)) (drop (Z.to_nat a) (bytes f))
  ∧ Z.of_nat (length (slice f a b)) = (b - a)%Z.
Proof.
  intros Hab Hb. unfold slice, clamp.
  rewrite !decide_False by lia.
  rewrite !Z.min_l by lia. rewrite Z.max_l by lia.
  split; [done|]. rewrite length_take, length_drop. unfold size in Hb. lia.
Qed.

(** The offset the server computes for index [i] is the start the
    client slices from. *)
Lemma server_offset i :
  Z.of_N (N.of_nat i * Routes.CHUNK_SIZE) = getChunkStart i.
Proof. unfold getChunkStart, Routes.CHUNK_SIZE, CHUNK_SIZE. lia. Qed.

Lemma chunk_accept_writes uId i buffer (w : Routes.World) :
  uId ≠ "" →
  Routes.files
    (Routes.chunk {| Routes.q_uploadId := Some uId;
                     Routes.q_chunkIndex := Some i;
                     Routes.b_data := Some buffer |} w).1 =
    Routes.chunkWrite uId (Routes.files w) (i, buffer).
Proof.
  intros Hid. unfold Routes.chunk. simpl.
  rewrite decide_False by done.
  unfold Routes.update_chunk, Routes.upsert. simpl.
  destruct (Routes.chunks w !! (uId, i)); simpl; rewrite lookup_insert_eq; done.
Qed.

(** C8. For a file whose size is a safe integer (as the size of every
    [File] is): the client declares ceil(size / CHUNK_SIZE) chunks,
    with CHUNK_SIZE = 5 MiB on both sides.  For each index [i] below
    that count: the chunk is the bytes of the file from
    [i * CHUNK_SIZE] up to (not including)
    [min ((i+1) * CHUNK_SIZE) size]; its length is CHUNK_SIZE, except
    at the last index where it is what remains; the offset of the
    index is a safe integer, and the server writes an accepted chunk
    [i] at byte offset [i * CHUNK_SIZE]: byte [k] of the payload is
    read back at position [i * CHUNK_SIZE + k] of the scratch file;
    and the ranges of two distinct indices do not overlap. *)
Theorem chunk_layout (f : File) :
  (size f ≤ Z.of_N FileService.MAX_SAFE_INTEGER)%Z →
  let n := totalChunks f in
  CHUNK_SIZE = (5 * 1024 * 1024)%Z
  ∧ Z.of_N Routes.CHUNK_SIZE = CHUNK_SIZE
  ∧ Routes.req_totalChunks (handshakeBody (new f)) = Some n
  ∧ ((n - 1) * CHUNK_SIZE < size f ≤ n * CHUNK_SIZE)%Z
  ∧ ∀ i : nat, (Z.of_nat i < n)%Z →
      let a := (Z.of_nat i * CHUNK_SIZE)%Z in
      let b := Z.min ((Z.of_nat i + 1) * CHUNK_SIZE) (size f) in
      getChunkStart i = a ∧ getChunkEnd f i = b
      ∧ getChunk f i = take (Z.to_nat (b - a)) (drop (Z.to_nat a) (bytes f))
      ∧ Z.of_nat (length (getChunk f i)) = getChunkSize f i
      ∧ getChunkSize f i =
          (if decide (Z.of_nat i + 1 < n)%Z then CHUNK_SIZE
           else size f - Z.of_nat i * CHUNK_SIZE)%Z
      ∧ (0 < getChunkSize f i ≤ CHUNK_SIZE)%Z
      ∧ Routes.safe_offset (N.of_nat i)
      ∧ (∀ uId buffer (w : Routes.World),
           uId ≠ "" → FileService.plain uId →
           let files' :=
             Routes.files
               (Routes.chunk {| Routes.q_uploadId := Some uId;
                                Routes.q_chunkIndex := Some (N.of_nat i);
                                Routes.b_data := Some buffer |} w).1 in
           files' !! FileService.getFilePath uId =
             Some (FileService.pwrite
                     (default ∅ (Routes.files w !! FileService.getFilePath uId))
                     (Z.to_N a) buffer)
           ∧ ∀ k byte, buffer !! k = Some byte →
               FileService.readByte files' (FileService.getFilePath uId)
                 (Z.to_N a + N.of_nat k) = Some byte)
      ∧ (∀ j : nat, j ≠ i → (Z.of_nat j < n)%Z →
           (getChunkEnd f i ≤ getChunkStart j
            ∨ getChunkEnd f j ≤ getChunkStart i)%Z).
Proof.
  intros Hsafe n. pose proof (totalChunks_bounds f) as Hn. fold n in Hn.
  split; [done|]. split; [done|].
  split; [simpl; f_equal; apply length_chunks_new|].
  split; [done|].
  intros i Hi a b.
  assert (Hab : getChunkStart i = a) by done.
  assert (Hb : getChunkEnd f i = b).
  { unfold getChunkEnd, getChunkStart, b. f_equal. lia. }
  assert (Hsz : (0 ≤ a ∧ a < b ∧ b ≤ size f ∧ b - a ≤ CHUNK_SIZE)%Z).
  { unfold a, b, CHUNK_SIZE in *. lia. }
  destruct (slice_inside f a b) as [Hsl Hlen]; [lia..|].
  split; [done|]. split; [done|].
  unfold getChunk, getChunkSize. rewrite Hab, Hb.
  split; [done|]. split; [done|]. split.
  { unfold b. case_decide; unfold a, CHUNK_SIZE in *; lia. }
  split; [lia|]. split; [|split].
  - unfold Routes.safe_offset, Routes.CHUNK_SIZE, FileService.MAX_SAFE_INTEGER.
    unfold FileService.MAX_SAFE_INTEGER in Hsafe.
    unfold a, CHUNK_SIZE in Hsz. lia.
  - intros uId buffer w Hid _. cbv zeta.
    rewrite chunk_accept_writes by done.
    rewrite chunkWrite_insert. cbn [fst snd].
    replace (N.of_nat i * Routes.CHUNK_SIZE)%N with (Z.to_N a)
      by (unfold a, Routes.CHUNK_SIZE, CHUNK_SIZE; lia).
    split; [by rewrite lookup_insert_eq|].
    intros k byte Hk. rewrite readByte_pwrite.
    pose proof (lookup_lt_Some _ _ _ Hk) as Hlt.
    rewrite decide_True by (unfold FileService.in_range; lia).
    rewrite <- Hk. f_equal. lia.
  - intros j Hj Hjn. unfold a, b, getChunkEnd, getChunkStart, CHUNK_SIZE. lia.
Qed.

Lemma size_two_chunk_file : size two_chunk_file = 5242881%Z.
Proof.
  unfold size, two_chunk_file. cbn [bytes]. rewrite length_replicate. lia.
Qed.

Lemma totalChunks_two_chunk_file : totalChunks two_chunk_file = 2%Z.
Proof. unfold totalChunks. rewrite size_two_chunk_file. reflexivity. Qed.

Lemma chunk_layout_witness :
  let accepted :=
    Routes.files
      (Routes.chunk {| Routes.q_uploadId := Some "s1";
                       Routes.q_chunkIndex := Some 1%N;
                       Routes.b_data := Some [Byte.x4b] |} world_empty).1 in
  (size two_chunk_file ≤ Z.of_N FileService.MAX_SAFE_INTEGER)%Z
  ∧ totalChunks two_chunk_file = 2%Z
  ∧ getChunkSize two_chunk_file 0 = CHUNK_SIZE
  ∧ Z.of_nat (length (getChunk two_chunk_file 0)) = CHUNK_SIZE
  ∧ getChunkStart 1 = CHUNK_SIZE
  ∧ getChunkSize two_chunk_file 1 = 1%Z
  ∧ Z.of_nat (length (getChunk two_chunk_file 1)) = 1%Z
  ∧ (getChunkEnd two_chunk_file 0 ≤ getChunkStart 1)%Z
  ∧ FileService.readByte accepted (FileService.getFilePath "s1") 5242880
      = Some Byte.x4b.
Proof.
  intros accepted.
  assert (Hsafe : (size two_chunk_file ≤ Z.of_N FileService.MAX_SAFE_INTEGER)%Z).
  { rewrite size_two_chunk_file. vm_compute. discriminate. }
  pose proof totalChunks_two_chunk_file as Hn.
  pose proof size_two_chunk_file as Hsize.
  split; [exact Hsafe|]. split; [exact Hn|].
  destruct (chunk_layout two_chunk_file Hsafe) as (_ & _ & _ & _ & Hall).
  assert (H0 : (Z.of_nat 0 < totalChunks two_chunk_file)%Z)
    by (rewrite Hn; reflexivity).
  assert (H1 : (Z.of_nat 1 < totalChunks two_chunk_file)%Z)
    by (rewrite Hn; reflexivity).
  destruct (Hall 0%nat H0) as (_ & Hend0 & _ & Hlen0 & Hsz0 & _ & _ & _ & Hdisj).
  destruct (Hall 1%nat H1) as (Hstart1 & _ & _ & Hlen1 & Hsz1 & _ & _ & Hsrv & _).
  rewrite Hn in Hsz0, Hsz1. rewrite Hsize in Hsz1.
  split; [rewrite Hsz0; reflexivity|].
  split; [rewrite Hlen0, Hsz0; reflexivity|].
  split; [rewrite Hstart1; reflexivity|].
  split; [rewrite Hsz1; reflexivity|].
  split; [rewrite Hlen1, Hsz1; reflexivity|].
  split.
  - destruct (Hdisj 1%nat) as [Hd|Hd]; [discriminate|exact H1|exact Hd|].
    exfalso. revert Hd.
    unfold getChunkStart, getChunkEnd.
    rewrite Hsize. vm_compute. intros Hd. exact (Hd eq_refl).
  - destruct (Hsrv "s1" [Byte.x4b] world_empty) as [_ Hback];
      [discriminate|exact I|].
    exact (Hback 0%nat Byte.x4b eq_refl).
Defined.

(** The 12 MB scenario: three chunks of 5 MB, 5 MB and 2 MB. *)
Lemma twelve_megabytes f :
  size f = (12 * 1024 * 1024)%Z →
  totalChunks f = 3%Z
  ∧ getChunkSize f 0 = (5 * 1024 * 1024)%Z
  ∧ getChunkSize f 1 = (5 * 1024 * 1024)%Z
  ∧ getChunkSize f 2 = (2 * 1024 * 1024)%Z.
Proof.
  intros Hs. unfold totalChunks, getChunkSize, getChunkEnd, getChunkStart.
  rewrite Hs. vm_compute. done.
Qed.

End geometry.

(** ** Handshake: reuse and resume set *)

Section handshake.
Import Routes.

Lemma findFirst_None fn ts (m : gmap string Upload) :
  findFirst fn ts m = None →
  filter (λ kv : string * Upload,
            filename kv.2 = fn ∧ totalSize kv.2 = ts
            ∧ status kv.2 = Status.UPLOADING) m = ∅.
Proof.
  unfold findFirst. intros Hh. apply map_to_list_empty_iff.
  by destruct (map_to_list _).
Qed.

(** The row a lookup returns is a row of the table. *)
Lemma findFirst_Some fn ts (m : gmap string Upload) (id : string) u :
  findFirst fn ts m = Some (id, u) →
  m !! id = Some u ∧ filename u = fn ∧ totalSize u = ts
  ∧ status u = Status.UPLOADING.
Proof.
  unfold findFirst. intros Hh. apply head_Some_elem_of in Hh.
  apply elem_of_map_to_list in Hh. by apply map_lookup_filter_Some in Hh.
Qed.

(** After a create that followed an empty lookup, the lookup finds the
    created row. *)
Lemma findFirst_create now fn ts tc (m : gmap string Upload) :
  findFirst fn ts m = None →
  findFirst fn ts (create now fn ts tc m).2 =
    Some ((create now fn ts tc m).1,
          {| filename := fn; totalSize := ts; totalChunks := tc;
             status := Status.UPLOADING; finalHash := None;
             createdAt := now |}).
Proof.
  intros Hnone. unfold findFirst, create. simpl.
  rewrite map_filter_insert_True by done.
  rewrite (findFirst_None _ _ _ Hnone).
  rewrite insert_empty, map_to_list_singleton. done.
Qed.

Lemma create_fresh now fn ts tc (m : gmap string Upload) :
  m !! (create now fn ts tc m).1 = None.
Proof. simpl. apply not_elem_of_dom, is_fresh. Qed.

Lemma chunk_uploads r w : uploads (chunk r w).1 = uploads w.
Proof.
  unfold chunk. repeat case_match; done.
Qed.

Lemma chunks_uploads (rs : list ChunkReq) w :
  uploads (foldl (λ w r, (chunk r w).1) w rs) = uploads w.
Proof.
  revert w. induction rs as [|r rs IH]; intros w; simpl; [done|].
  by rewrite IH, chunk_uploads.
Qed.

Lemma completedChunks_spec (id : string) (m : gmap (string * N) Status.t) (i : N) :
  i ∈ completedChunks id m ↔ m !! (id, i) = Some Status.COMPLETED.
Proof.
  unfold completedChunks. rewrite list_elem_of_fmap. split.
  - intros ([[k j] s] & -> & Hin). apply elem_of_map_to_list in Hin.
    apply map_lookup_filter_Some in Hin as [Hl [Hk Hs]]. simpl in *.
    by subst.
  - intros Hl. exists ((id, i), Status.COMPLETED). split; [done|].
    apply elem_of_map_to_list, map_lookup_filter_Some. done.
Qed.

Lemma completedChunks_NoDup (id : string) (m : gmap (string * N) Status.t) :
  NoDup (completedChunks id m).
Proof.
  unfold completedChunks. apply NoDup_fmap_2_strong.
  - intros [[k1 j1] s1] [[k2 j2] s2] H1 H2 Heq. simpl in Heq. subst j2.
    apply elem_of_map_to_list, map_lookup_filter_Some in H1 as [H1 [? ?]].
    apply elem_of_map_to_list, map_lookup_filter_Some in H2 as [H2 [? ?]].
    simpl in *. by subst.
  - apply NoDup_map_to_list.
Qed.

Lemma completedChunks_nil (id : string) (m : gmap (string * N) Status.t) :
  (∀ i, m !! (id, i) ≠ Some Status.COMPLETED) → completedChunks id m = [].
Proof.
  intros Hno. destruct (completedChunks id m) as [|i l] eqn:Heq; [done|].
  exfalso. apply (Hno i), completedChunks_spec. rewrite Heq. by left.
Qed.

(** A well-formed handshake, as a function of the lookup. *)
Lemma init_valid now fn ts tc w :
  fn ≠ "" → ts ≠ 0%Z → tc ≠ 0%Z →
  init now {| req_filename := Some fn; req_totalSize := Some ts;
              req_totalChunks := Some tc |} w =
    match findFirst fn ts (uploads w) with
    | Some (id, _) =>
        (w, respond 200 (JInit id (completedChunks id (chunks w))))
    | None =>
        (with_uploads (create now fn ts tc (uploads w)).2 w,
         respond 200 (JInit (create now fn ts tc (uploads w)).1
                        (completedChunks (create now fn ts tc (uploads w)).1
                           (chunks w))))
    end.
Proof.
  intros Hfn Hts Htc. unfold init. simpl.
  rewrite !decide_False by done.
  destruct (findFirst fn ts (uploads w)) as [[id u]|]; done.
Qed.

(** C4. Two handshakes with the same non-empty filename and non-zero
    totalSize (the declared chunk counts may differ), with any sequence
    of chunk-accept requests between them: both are answered with the
    same session id; the second one changes nothing in the world; each
    resume set lists, without repetition, exactly the chunk indices of
    that session whose record is COMPLETED at the time of the call, so
    it is empty as long as no chunk of the session has completed. *)
Theorem handshake_reuses_session now1 now2 fn ts tc1 tc2 (w : World)
    (progress : list ChunkReq) :
  fn ≠ "" → ts ≠ 0%Z → tc1 ≠ 0%Z → tc2 ≠ 0%Z →
  let b1 := {| req_filename := Some fn; req_totalSize := Some ts;
               req_totalChunks := Some tc1 |} in
  let b2 := {| req_filename := Some fn; req_totalSize := Some ts;
               req_totalChunks := Some tc2 |} in
  let w1 := (init now1 b1 w).1 in
  let w2 := foldl (λ w r, (chunk r w).1) w1 progress in
  ∃ sessionId resume1 resume2,
    (init now1 b1 w).2 = respond 200 (JInit sessionId resume1)
    ∧ init now2 b2 w2 = (w2, respond 200 (JInit sessionId resume2))
    ∧ NoDup resume1
    ∧ (∀ i, i ∈ resume1 ↔ chunks w !! (sessionId, i) = Some Status.COMPLETED)
    ∧ NoDup resume2
    ∧ (∀ i, i ∈ resume2 ↔ chunks w2 !! (sessionId, i) = Some Status.COMPLETED)
    ∧ ((∀ i, chunks w !! (sessionId, i) ≠ Some Status.COMPLETED) →
       resume1 = [])
    ∧ ((∀ i, chunks w2 !! (sessionId, i) ≠ Some Status.COMPLETED) →
       resume2 = []).
Proof.
  intros Hfn Hts Htc1 Htc2 b1 b2 w1 w2.
  assert (Hfind : ∃ id u, findFirst fn ts (uploads w2) = Some (id, u)
            ∧ (init now1 b1 w).2 =
                respond 200 (JInit id (completedChunks id (chunks w)))).
  { unfold w2. rewrite chunks_uploads. unfold w1, b1.
    rewrite init_valid by done.
    destruct (findFirst fn ts (uploads w)) as [[id u]|] eqn:Hf.
    - simpl. eauto.
    - cbn [fst snd with_uploads uploads].
      rewrite findFirst_create by done. eauto. }
  destruct Hfind as (id & u & Hf2 & Hr1).
  exists id, (completedChunks id (chunks w)), (completedChunks id (chunks w2)).
  split; [done|]. split.
  { unfold b2. rewrite init_valid by done. by rewrite Hf2. }
  split; [apply completedChunks_NoDup|].
  split; [apply completedChunks_spec|].
  split; [apply completedChunks_NoDup|].
  split; [apply completedChunks_spec|].
  split; apply completedChunks_nil.
Qed.

Lemma handshake_reuses_session_witness :
  let b := handshake_request in
  let progress := [{| q_uploadId := Some "0"; q_chunkIndex := Some 1%N;
                      b_data := Some [Byte.x50] |}] in
  let w1 := (init 1000 b world_empty).1 in
  let w2 := foldl (λ w r, (chunk r w).1) w1 progress in
  ("a.zip" ≠ "" ∧ 7%Z ≠ 0%Z ∧ 2%Z ≠ 0%Z ∧ 2%Z ≠ 0%Z)
  ∧ ∃ sessionId resume1 resume2,
      (init 1000 b world_empty).2 = respond 200 (JInit sessionId resume1)
      ∧ init 2000 b w2 = (w2, respond 200 (JInit sessionId resume2))
      ∧ NoDup resume1
      ∧ (∀ i, i ∈ resume1 ↔
              chunks world_empty !! (sessionId, i) = Some Status.COMPLETED)
      ∧ NoDup resume2
      ∧ (∀ i, i ∈ resume2 ↔ chunks w2 !! (sessionId, i) = Some Status.COMPLETED)
      ∧ ((∀ i, chunks world_empty !! (sessionId, i) ≠ Some Status.COMPLETED) →
         resume1 = [])
      ∧ ((∀ i, chunks w2 !! (sessionId, i) ≠ Some Status.COMPLETED) →
         resume2 = []).
Proof.
  intros b progress w1 w2.
  split; [repeat split; discriminate|].
  apply (handshake_reuses_session 1000 2000 "a.zip" 7 2 2 world_empty progress);
    discriminate.
Defined.

(** The scenario of the resume: after chunks 0 and 2 of three, the
    handshake answers with the same session and the resume set {0, 2}. *)
Lemma handshake_resume_scenario :
  let b := {| req_filename := Some "a.zip"; req_totalSize := Some 12582912%Z;
              req_totalChunks := Some 3%Z |} in
  let send := λ i, {| q_uploadId := Some "0"; q_chunkIndex := Some i;
                      b_data := Some [Byte.x50] |} in
  let w1 := (init 1000 b world_empty).1 in
  let w2 := (chunk (send 2%N) (chunk (send 0%N) w1).1).1 in
  (init 1000 b world_empty).2 = respond 200 (JInit "0" [])
  ∧ (init 2000 b w2).2 = respond 200 (JInit "0" [2%N; 0%N]).
Proof. vm_compute. done. Qed.

End handshake.

(** ** Cleanup *)

Section cleanup.
Import FileService Routes.

Lemma append_length s1 s2 :
  String.length (s1 +:+ s2) = (String.length s1 + String.length s2)%nat.
Proof. induction s1 as [|a s1 IH]; simpl; [done|]. by rewrite IH. Qed.

Lemma append_inj_r s1 s2 t : s1 +:+ t = s2 +:+ t → s1 = s2.
Proof.
  revert s2. induction s1 as [|a s1 IH]; intros [|b s2] Heq.
  - done.
  - apply (f_equal String.length) in Heq.
    rewrite !append_length in Heq. simpl in Heq. lia.
  - apply (f_equal String.length) in Heq.
    rewrite !append_length in Heq. simpl in Heq. lia.
  - change (String a (s1 +:+ t) = String b (s2 +:+ t)) in Heq.
    injection Heq as -> Heq. f_equal. by apply IH.
Qed.

#[local] Instance getFilePath_inj : Inj (=) (=) getFilePath.
Proof.
  intros k1 k2 Heq. unfold getFilePath in Heq.
  do 2 apply String.app_inj in Heq. by apply append_inj_r in Heq.
Qed.

(** The loop over distinct ids that are all in the table runs to its
    end; it removes the rows of those ids, the chunk records under
    them and the files at their scratch paths, and nothing else. *)
Lemma cleanup_loop_spec (l : list (string * Upload)) (w : World) :
  NoDup l.*1 →
  (∀ k, k ∈ l.*1 → is_Some (uploads w !! k)) →
  ∃ w', cleanup_loop l w = (w', None)
    ∧ (∀ k, uploads w' !! k =
            if decide (k ∈ l.*1) then None else uploads w !! k)
    ∧ (∀ k i, chunks w' !! (k, i) =
              if decide (k ∈ l.*1) then None else chunks w !! (k, i))
    ∧ (∀ p, files w' !! p =
            if decide (p ∈ getFilePath <$> l.*1) then None else files w !! p)
    ∧ calls w' = calls w.
Proof.
  revert w. induction l as [|[id u] l IH]; intros w Hnd Hin.
  - exists w. simpl.
    repeat split; intros; by rewrite decide_False by apply not_elem_of_nil.
  - simpl in Hnd. apply NoDup_cons in Hnd as [Hid Hnd].
    destruct (Hin id) as [u0 Hu0]; [by left|].
    simpl. unfold delete_upload. simpl. rewrite Hu0.
    set (w3 := if decide (is_Some (files w !! getFilePath id))
               then with_files (delete (getFilePath id) (files w))
                      (with_uploads (delete id (uploads w))
                         (with_chunks (deleteMany id (chunks w)) w))
               else with_uploads (delete id (uploads w))
                      (with_chunks (deleteMany id (chunks w)) w)).
    assert (Hw3 : uploads w3 = delete id (uploads w)
                  ∧ chunks w3 = deleteMany id (chunks w)
                  ∧ files w3 = delete (getFilePath id) (files w)
                  ∧ calls w3 = calls w).
    { unfold w3. case_decide as Hex; simpl; [done|].
      repeat split. symmetry. apply delete_id.
      by apply eq_None_not_Some. }
    destruct Hw3 as (Hu3 & Hc3 & Hf3 & Hk3).
    destruct (IH w3 Hnd) as (w' & Hrun & Hu & Hc & Hf & Hk).
    { intros k Hk. rewrite Hu3, lookup_delete_ne by (by intros ->).
      apply Hin. by right. }
    exists w'. split; [done|]. split; [|split; [|split]].
    + intros k. rewrite Hu, Hu3. destruct (decide (k = id)) as [->|Hne].
      * rewrite lookup_delete_eq. rewrite (decide_True (P := id ∈ id :: _))
          by (by left). by case_decide.
      * rewrite lookup_delete_ne by done.
        destruct (decide (k ∈ l.*1)).
        -- by rewrite decide_True by (by right).
        -- by rewrite decide_False by (by intros [?|?]%elem_of_cons).
    + intros k i. rewrite Hc, Hc3. unfold deleteMany.
      destruct (decide (k = id)) as [->|Hne].
      * rewrite (decide_True (P := id ∈ id :: _)) by (by left).
        case_decide; [done|]. apply map_lookup_filter_None. right.
        intros s _. simpl. by intros ?.
      * destruct (decide (k ∈ l.*1)).
        -- by rewrite decide_True by (by right).
        -- rewrite decide_False by (by intros [?|?]%elem_of_cons).
           destruct (chunks w !! (k, i)) as [s|] eqn:Hs.
           ++ by apply map_lookup_filter_Some.
           ++ apply map_lookup_filter_None. by left.
    + intros p. rewrite Hf, Hf3. simpl.
      destruct (decide (p = getFilePath id)) as [->|Hne].
      * rewrite lookup_delete_eq.
        rewrite (decide_True (P := getFilePath id ∈ getFilePath id :: _))
          by (by left). by case_decide.
      * rewrite lookup_delete_ne by done.
        destruct (decide (p ∈ getFilePath <$> l.*1)).
        -- by rewrite decide_True by (by right).
        -- by rewrite decide_False by (by intros [?|?]%elem_of_cons).
    + by rewrite Hk.
Qed.

Lemma orphaned_keys cutoff (m : gmap string Upload) k :
  k ∈ (map_to_list (filter (orphan cutoff) m)).*1
  ↔ ∃ u, m !! k = Some u ∧ orphan cutoff (k, u).
Proof.
  rewrite list_elem_of_fmap. split.
  - intros ([k' u] & -> & Hin). apply elem_of_map_to_list in Hin.
    apply map_lookup_filter_Some in Hin. eauto.
  - intros (u & Hm & Ho). exists (k, u). split; [done|].
    by apply elem_of_map_to_list, map_lookup_filter_Some.
Qed.

(** C7. A cleanup sweep at time [now] answers 200 with the number of
    sessions that were UPLOADING and created more than 24 hours before
    [now].  Exactly those sessions are deleted, with their chunk
    records and scratch files.  Every other session (COMPLETED,
    PROCESSING, FAILED, or UPLOADING and not that old) keeps its row,
    its chunk records and its scratch file, and no file is touched
    other than the scratch files of the deleted sessions. *)
Theorem cleanup_reclaims_only_orphans now (w : World) :
  let cutoff := (now - 24 * 60 * 60 * 1000)%Z in
  let reclaimed := filter (orphan cutoff) (uploads w) in
  ∃ w',
    cleanup now w = (w', respond 200 (JCleaned (size reclaimed)))
    ∧ size (uploads w) = (size (uploads w') + size reclaimed)%nat
    ∧ (∀ id u, uploads w !! id = Some u → uploads w' !! id = None →
         status u = Status.UPLOADING ∧ (createdAt u < cutoff)%Z)
    ∧ (∀ id u, uploads w !! id = Some u →
         status u = Status.UPLOADING → (createdAt u < cutoff)%Z →
         uploads w' !! id = None
         ∧ (∀ i, chunks w' !! (id, i) = None)
         ∧ files w' !! getFilePath id = None)
    ∧ (∀ id u, uploads w !! id = Some u →
         status u ≠ Status.UPLOADING ∨ (cutoff ≤ createdAt u)%Z →
         uploads w' !! id = Some u
         ∧ (∀ i, chunks w' !! (id, i) = chunks w !! (id, i))
         ∧ files w' !! getFilePath id = files w !! getFilePath id)
    ∧ (∀ p, (∀ id u, uploads w !! id = Some u → orphan cutoff (id, u) →
               p ≠ getFilePath id) →
         files w' !! p = files w !! p)
    ∧ calls w' = calls w.
Proof.
  intros cutoff reclaimed. unfold cleanup. fold cutoff.
  change (now - DAY_MS)%Z with cutoff. fold reclaimed.
  set (orphaned := map_to_list reclaimed).
  destruct (cleanup_loop_spec orphaned w) as (w' & Hrun & Hu & Hc & Hf & Hk).
  { apply NoDup_fst_map_to_list. }
  { intros k Hin. apply orphaned_keys in Hin as (u & Hm & _). eauto. }
  assert (Hkeys : ∀ k, k ∈ orphaned.*1
            ↔ ∃ u, uploads w !! k = Some u ∧ orphan cutoff (k, u))
    by apply orphaned_keys.
  assert (Hup : uploads w' = filter (λ kv, ¬ orphan cutoff kv) (uploads w)).
  { apply map_eq. intros k. rewrite Hu. case_decide as Hin.
    - apply Hkeys in Hin as (u & Hm & Ho). symmetry.
      apply map_lookup_filter_None. right. intros u' Hu'.
      assert (u' = u) as -> by congruence. by intros ?.
    - destruct (uploads w !! k) as [u|] eqn:Hm; symmetry.
      + apply map_lookup_filter_Some. split; [done|].
        intros Ho. apply Hin, Hkeys. eauto.
      + apply map_lookup_filter_None. by left. }
  exists w'. rewrite Hrun. unfold orphaned at 1. rewrite length_map_to_list.
  split; [done|]. split.
  { rewrite Hup. unfold reclaimed.
    rewrite <- (map_filter_union_complement (orphan cutoff) (uploads w)) at 1.
    rewrite map_size_disj_union by apply map_disjoint_filter_complement. lia. }
  split.
  { intros id u Hm Hgone. rewrite Hu in Hgone.
    case_decide as Hin; [|congruence].
    apply Hkeys in Hin as (u' & Hm' & Ho).
    assert (u' = u) as -> by congruence. exact Ho. }
  split.
  { intros id u Hm Hs Hold.
    assert (Hin : id ∈ orphaned.*1) by (apply Hkeys; exists u; done).
    split; [by rewrite Hu, decide_True|].
    split; [intros i; by rewrite Hc, decide_True|].
    rewrite Hf, decide_True; [done|]. by apply list_elem_of_fmap_2. }
  split.
  { intros id u Hm Hlive.
    assert (Hout : id ∉ orphaned.*1).
    { intros (u' & Hm' & Hs & Hold)%Hkeys.
      assert (u' = u) as -> by congruence. simpl in *. destruct Hlive; [done|lia]. }
    split; [by rewrite Hu, decide_False|].
    split; [intros i; by rewrite Hc, decide_False|].
    rewrite Hf, decide_False; [done|].
    by intros ?%(list_elem_of_fmap_inj_2 getFilePath). }
  split; [|done].
  intros p Hp. rewrite Hf, decide_False; [done|].
  intros (k & -> & (u & Hm & Ho)%Hkeys)%list_elem_of_fmap. by eapply Hp.
Qed.

Lemma cleanup_reclaims_only_orphans_witness :
  ∃ w',
    cleanup two_days world_mixed = (w', respond 200 (JCleaned 1))
    ∧ uploads w' !! "abandoned" = None
    ∧ chunks w' !! ("abandoned", 0%N) = None
    ∧ files w' !! getFilePath "abandoned" = None
    ∧ uploads w' !! "recent" = uploads world_mixed !! "recent"
    ∧ chunks w' !! ("recent", 1%N) = Some Status.COMPLETED
    ∧ files w' !! getFilePath "recent" = files world_mixed !! getFilePath "recent"
    ∧ uploads w' !! "completed" = uploads world_mixed !! "completed".
Proof.
  destruct (cleanup_reclaims_only_orphans two_days world_mixed)
    as (w' & Hrun & _ & _ & Hold & Hlive & _).
  exists w'. split; [exact Hrun|].
  destruct (Hold "abandoned" (row Status.UPLOADING None 0))
    as (Hu & Hc & Hf); [reflexivity..|].
  destruct (Hlive "recent" (row Status.UPLOADING None (two_days - 3600000)))
    as (Hu' & Hc' & Hf'); [reflexivity|right; vm_compute; discriminate|].
  destruct (Hlive "completed" (row Status.COMPLETED (Some "dummy_hash") 0))
    as (Hu'' & _ & _); [reflexivity|left; discriminate|].
  split; [exact Hu|]. split; [exact (Hc 0%N)|]. split; [exact Hf|].
  split; [exact Hu'|]. split; [exact (Hc' 1%N)|]. split; [exact Hf'|].
  exact Hu''.
Defined.

(** The same sweep, run. *)
Lemma cleanup_sample :
  cleanup two_days world_mixed =
    ({| uploads := delete "abandoned" (uploads world_mixed);
        chunks := delete ("abandoned", 0%N) (chunks world_mixed);
        files := delete (getFilePath "abandoned") (files world_mixed);
        calls := [] |},
     respond 200 (JCleaned 1)).
Proof. vm_compute. reflexivity. Qed.

End cleanup.

(** ** The scheduler after a chunk has run out of retries *)

Section abort.
Import Uploader.
Variable net : Network.

(** The last attempt of a chunk failing marks the chunk ERROR and sets
    the abort flag. *)
Lemma exhausted_chunk_marked i delay u c :
  chunks u !! i = Some c → net_chunk net i 0 = false →
  let u' := (step net (Posting i 0 delay) u).2 in
  (status <$> chunks u' !! i) = Some ChunkState.ERROR
  ∧ aborted u' = true
  ∧ (∀ j, j ≠ i → chunks u' !! j = chunks u !! j).
Proof.
  intros Hc Hfail. simpl. rewrite Hfail. simpl.
  split; [by rewrite list_lookup_alter_eq, Hc|]. split; [done|].
  intros j Hj. by rewrite list_lookup_alter_ne.
Qed.

(** Once the flag is set, a worker at the top of its loop exits and
    takes nothing off the queue. *)
Lemma aborted_no_dispatch u :
  aborted u = true → step net AtLoop u = (Exited, u).
Proof. intros Ha. simpl. by rewrite Ha. Qed.

Lemma steady_mono u u' :
  steady u →
  (∀ i, i ∈ queue u' → i ∈ queue u) →
  length (chunks u') = length (chunks u) →
  (reports u' = reports u
   ∨ ∃ t n, reports u' =
       (reports u ++ [{| total := t; uploaded := n;
                         state := TransferState.UPLOADING |}])%list) →
  steady u'.
Proof.
  intros (Hq & Hr & Hne) Hq' Hlen Hrep. split; [|split].
  - intros i Hi. rewrite Hlen. auto.
  - destruct Hrep as [->|(t & n & ->)]; [done|].
    intros r [?| ->%list_elem_of_singleton]%elem_of_app; auto.
  - destruct Hrep as [->|(t & n & ->)]; [done|].
    by destruct (reports u).
Qed.

Lemma step_steady wk u :
  steady u → wk ≠ Threw →
  steady (step net wk u).2
  ∧ (step net wk u).1 ≠ Threw
  ∧ finalizeCalls (step net wk u).2 = finalizeCalls u
  ∧ (aborted u = true → aborted (step net wk u).2 = true).
Proof.
  intros Hu Hwk. destruct wk as [|i r d|i r d| |]; simpl; try done.
  - destruct (aborted u) eqn:Ha; [done|].
    destruct (queue u) as [|i rest] eqn:Hqu; [done|]. simpl.
    destruct (chunks u !! i) as [c|] eqn:Hc.
    + split; [|done]. apply (steady_mono u); simpl; [done| | |eauto].
      * intros j Hj. rewrite Hqu. by right.
      * by rewrite length_alter.
    + apply lookup_ge_None in Hc. destruct Hu as (Hq & _).
      assert (i < length (chunks u))%nat; [|lia].
      apply Hq. rewrite Hqu. by left.
  - destruct (net_chunk net i r); simpl.
    + split; [|done]. apply (steady_mono u); simpl; [done|done| |eauto].
      by rewrite length_alter.
    + case_decide; simpl; [done|].
      split; [|done]. apply (steady_mono u); simpl; [done|done| |eauto].
      by rewrite length_alter.
Qed.

Lemma run_steady sched ws u :
  steady u → Forall (λ wk, wk ≠ Threw) ws →
  steady (run net sched ws u).2
  ∧ Forall (λ wk, wk ≠ Threw) (run net sched ws u).1
  ∧ finalizeCalls (run net sched ws u).2 = finalizeCalls u.
Proof.
  revert ws u. induction sched as [|k rest IH]; intros ws u Hu Hws; simpl.
  - done.
  - destruct (ws !! k) as [wk|] eqn:Hk; [|by apply IH].
    assert (Hwk : wk ≠ Threw).
    { rewrite Forall_forall in Hws. apply Hws.
      by eapply list_elem_of_lookup_2. }
    destruct (step_steady wk u Hu Hwk) as (Hu' & Hwk' & Hfin & _).
    destruct (step net wk u) as [wk' u'] eqn:Hstep. simpl in *.
    destruct (IH (<[k := wk']> ws) u' Hu') as (? & ? & Hfin').
    { by apply Forall_insert. }
    split; [done|]. split; [done|]. congruence.
Qed.

Lemma some_threw_false ws :
  Forall (λ wk, wk ≠ Threw) ws → some_threw ws = false.
Proof.
  induction 1 as [|wk ws Hwk _ IH]; simpl; [done|].
  rewrite IH. by destruct wk.
Qed.

Lemma new_indexed f : indexed (new f).
Proof.
  intros i c. simpl. rewrite list_lookup_fmap.
  destruct (seq 0 _ !! i) as [j|] eqn:Hj; simpl; [|done].
  apply lookup_seq in Hj as [-> _]. by intros [= <-].
Qed.

Lemma handshake_steady u u1 :
  indexed u → reports u = [] → handshake net u = Some u1 →
  steady (setQueue (index <$> filter (λ c, status c ≠ ChunkState.SUCCESS)
                      (chunks u1)) u1)
  ∧ finalizeCalls u1 = finalizeCalls u.
Proof.
  intros Hidx Hrep. unfold handshake.
  destruct (net_init net) as [[id existing]|]; [|done].
  intros [= <-].
  set (mark := λ (u : Uploader) (i : nat),
         match chunks u !! i with
         | Some _ => addLoaded (getChunkSize (file u) i)
                       (setChunk i ChunkState.SUCCESS u)
         | None => u
         end).
  assert (Hmark : ∀ l v, indexed v →
            indexed (foldl mark v l)
            ∧ reports (foldl mark v l) = reports v
            ∧ finalizeCalls (foldl mark v l) = finalizeCalls v).
  { induction l as [|i l IH]; intros v Hv; simpl; [done|].
    assert (Hv' : indexed (mark v i)
                  ∧ reports (mark v i) = reports v
                  ∧ finalizeCalls (mark v i) = finalizeCalls v).
    { unfold mark. destruct (chunks v !! i) as [ci|] eqn:Hi; [|done].
      split; [|done]. intros j c. simpl. rewrite list_lookup_alter.
      case_decide as Hij; [|apply Hv]. subst j.
      rewrite Hi. simpl. intros [= <-]. simpl. by apply Hv. }
    destruct Hv' as (Hv1 & Hv2 & Hv3).
    destruct (IH _ Hv1) as (? & ? & ?). repeat split; [done|congruence..]. }
  set (u2 := match existing with
             | Some l => foldl mark (setUploadId id u) l
             | None => setUploadId id u
             end).
  assert (Hu2 : indexed u2 ∧ reports u2 = [] ∧ finalizeCalls u2 = finalizeCalls u).
  { unfold u2. destruct existing as [l|]; [|done].
    destruct (Hmark l (setUploadId id u)) as (? & Hr & Hf); [done|].
    simpl in Hr, Hf. repeat split; [done|congruence..]. }
  destruct Hu2 as (Hidx2 & Hrep2 & Hfin2).
  split; [|done]. split; [|split]; simpl.
  - intros i (c & -> & Hin)%list_elem_of_fmap.
    apply list_elem_of_filter in Hin as [_ Hin].
    apply list_elem_of_lookup in Hin as [k Hk].
    rewrite (Hidx2 _ _ Hk). by eapply lookup_lt_Some.
  - rewrite Hrep2. by intros r ->%list_elem_of_singleton.
  - by rewrite Hrep2.
Qed.

(** For every file, network and schedule: a transfer that went past
    the handshake and ended with the abort flag set made no finalize
    request, and every status it reported, the last one included, is
    UPLOADING. *)
Lemma aborted_transfer_reports sched f u' :
  start net sched (new f) = Some u' →
  is_Some (net_init net) → aborted u' = true →
  finalizeCalls u' = 0%nat
  ∧ (∀ r, r ∈ reports u' → state r = TransferState.UPLOADING)
  ∧ (state <$> last (reports u')) = Some TransferState.UPLOADING.
Proof.
  unfold start. intros Hstart [reply Hnet] Hab.
  destruct (handshake net (new f)) as [u1|] eqn:Hh.
  2:{ unfold handshake in Hh. rewrite Hnet in Hh. by destruct reply. }
  destruct (handshake_steady (new f) u1 (new_indexed f) eq_refl Hh) as [Hst Hfin].
  revert Hstart. unfold processQueue.
  set (u2 := setQueue _ u1).
  set (sch := (seq 0 CONCURRENCY ++ sched)%list).
  destruct (run_steady sch (replicate CONCURRENCY AtLoop) u2 Hst)
    as (Hst3 & Hws & Hfin').
  { by repeat constructor. }
  destruct (run net sch (replicate CONCURRENCY AtLoop) u2) as [ws u3].
  simpl in Hst3, Hws, Hfin'.
  rewrite (some_threw_false ws Hws).
  destruct (all_exited ws); [|done].
  destruct (aborted u3) eqn:Hab3; simpl.
  - intros [= <-]. destruct Hst3 as (_ & Hr & Hne).
    split; [simpl in *; congruence|]. split; [done|].
    destruct (last (reports u3)) as [r|] eqn:Hl.
    + simpl. f_equal. apply Hr. by apply last_Some_elem_of.
    + by apply last_None in Hl.
  - destruct (every_success u3); simpl.
    + destruct (net_finalize net); intros [= <-]; simpl in Hab; congruence.
    + intros [= <-]. congruence.
Qed.

End abort.

(** ** Chunk acceptance: what a rejected request leaves behind *)

Section chunk_validation.
Import Routes.

(** A request without uploadId or chunkIndex is rejected before any
    store operation. *)
Lemma chunk_missing_metadata r w :
  q_uploadId r = None ∨ q_uploadId r = Some "" ∨ q_chunkIndex r = None →
  chunk r w = (w, respond 400 (JError "Missing metadata")).
Proof.
  unfold chunk. intros [->|[->|Hi]]; [done..|].
  rewrite Hi. by destruct (truthy_string _).
Qed.

(** A request without payload is rejected after the upsert: whatever
    the record was, it is UPLOADING afterwards. *)
Lemma chunk_missing_data uId cIndex w :
  uId ≠ "" →
  chunk {| q_uploadId := Some uId; q_chunkIndex := Some cIndex;
           b_data := None |} w =
    (with_chunks (<[(uId, cIndex) := Status.UPLOADING]> (chunks w)) w,
     respond 400 (JText "No data")).
Proof.
  intros Hid. unfold chunk, upsert. simpl. rewrite decide_False by done.
  by destruct (chunks w !! (uId, cIndex)).
Qed.

(** Two handshakes that both look up before either creates: whenever
    the store has no UPLOADING session for the pair, it ends with two. *)
Lemma init_race_duplicates now fn ts tc w :
  fn ≠ "" → ts ≠ 0%Z → tc ≠ 0%Z →
  findFirst fn ts (uploads w) = None →
  let b := {| req_filename := Some fn; req_totalSize := Some ts;
              req_totalChunks := Some tc |} in
  ∃ id1 id2 w',
    init_race [false; true; false; true] now (InitStart b) (InitStart b) w =
      (InitHave id1, InitHave id2, w')
    ∧ id1 ≠ id2
    ∧ ∀ id, id = id1 ∨ id = id2 →
        uploads w' !! id =
          Some {| filename := fn; totalSize := ts; totalChunks := tc;
                  status := Status.UPLOADING; finalHash := None;
                  createdAt := now |}.
Proof.
  intros Hfn Hts Htc Hnone b. simpl.
  rewrite !decide_False by done. rewrite Hnone. simpl.
  set (id1 := fresh (dom (uploads w))).
  set (row := {| filename := fn; totalSize := ts; totalChunks := tc;
                 status := Status.UPLOADING; finalHash := None;
                 createdAt := now |}).
  set (id2 := fresh (dom (<[id1 := row]> (uploads w)))).
  assert (Hne : id1 ≠ id2).
  { intros Heq. apply (is_fresh (dom (<[id1 := row]> (uploads w)))).
    fold id2. rewrite <- Heq. apply elem_of_dom. rewrite lookup_insert_eq. eauto. }
  eexists id1, id2, _. split; [done|]. split; [done|]. simpl.
  intros id [->| ->].
  - rewrite lookup_insert_ne by done. by rewrite lookup_insert_eq.
  - by rewrite lookup_insert_eq.
Qed.

End chunk_validation.

(** ** Chunks that succeeded stay succeeded *)

Section success_is_kept.
Import Uploader.
Local Open Scope list_scope.
Variable net : Network.

Lemma inflight_insert ws k wk wk' :
  ws !! k = Some wk →
  ∃ others,
    inflight ws ≡ₚ option_list (worker_chunk wk) ++ others
    ∧ inflight (<[k := wk']> ws) ≡ₚ option_list (worker_chunk wk') ++ others.
Proof.
  intros Hk. exists (inflight (take k ws) ++ inflight (drop (S k) ws))%list.
  pose proof (lookup_lt_Some _ _ _ Hk) as Hlt.
  split.
  - rewrite <- (take_drop_middle ws k wk Hk) at 1.
    unfold inflight. rewrite omap_app. simpl.
    destruct (worker_chunk wk); simpl; [|done].
    by rewrite <- Permutation_middle.
  - rewrite <- (take_drop_middle ws k wk Hk) at 1.
    rewrite insert_app_r_alt by (rewrite length_take; lia).
    rewrite length_take, Nat.min_l, Nat.sub_diag by lia. simpl.
    unfold inflight. rewrite omap_app. simpl.
    destruct (worker_chunk wk'); simpl; [|done].
    by rewrite <- Permutation_middle.
Qed.

Lemma succeeded_alter_ne u i j f :
  i ≠ j → (status <$> alter f i (chunks u) !! j) = (status <$> chunks u !! j).
Proof. intros Hij. by rewrite list_lookup_alter_ne. Qed.

(** One resumption of worker [k] keeps the bookkeeping sound and
    leaves every SUCCESS chunk in SUCCESS. *)
Lemma step_keeps_success ws k wk u :
  ws !! k = Some wk → pending_ok ws u →
  pending_ok (<[k := (step net wk u).1]> ws) (step net wk u).2
  ∧ ∀ j, succeeded u j → succeeded (step net wk u).2 j.
Proof.
  intros Hk [Hnd Hns].
  destruct (inflight_insert ws k wk (step net wk u).1 Hk)
    as (others & Hin & Hin').
  rewrite Hin in Hnd.
  assert (Hns' : ∀ i c, i ∈ queue u ++ option_list (worker_chunk wk) ++ others →
            chunks u !! i = Some c → status c ≠ ChunkState.SUCCESS).
  { intros i c Hi. apply Hns. by rewrite Hin. }
  clear Hns Hin. unfold pending_ok. setoid_rewrite Hin'. clear Hin' Hk.
  assert (Hsame : ∀ wk' u',
            worker_chunk wk' = worker_chunk wk → queue u' = queue u →
            chunks u' = chunks u →
            (NoDup (queue u' ++ option_list (worker_chunk wk') ++ others)
             ∧ ∀ i c,
                 i ∈ queue u' ++ option_list (worker_chunk wk') ++ others →
                 chunks u' !! i = Some c → status c ≠ ChunkState.SUCCESS)
            ∧ ∀ j, succeeded u j → succeeded u' j).
  { intros wk' u' -> Hq Hc. unfold succeeded. rewrite Hq, Hc. done. }
  destruct wk as [|i r d|i r d| |]; simpl in *;
    try (split; [split; [exact Hnd|exact Hns']|done]).
  - (* at the top of the loop *)
    destruct (aborted u); [by apply Hsame|].
    destruct (queue u) as [|i rest] eqn:Hq; [by apply Hsame|]. simpl in *.
    apply NoDup_cons in Hnd as [Hi Hnd].
    destruct (chunks u !! i) as [c|] eqn:Hc; simpl.
    + split; [split|].
      * rewrite <- Permutation_middle. by apply NoDup_cons.
      * intros j cj Hj. rewrite list_lookup_alter. case_decide as Hij.
        -- subst j. rewrite Hc. simpl. by intros [= <-].
        -- apply Hns'. rewrite <- Permutation_middle in Hj.
           apply elem_of_cons in Hj as [?|Hj]; [done|]. by right.
      * intros j Hj. unfold succeeded. simpl.
        rewrite list_lookup_alter_ne; [done|]. intros <-.
        unfold succeeded in Hj. rewrite Hc in Hj. simpl in Hj.
        injection Hj as Hj. eapply (Hns' i c); [by left|done..].
    + split; [split|]; [done| |done].
      intros j cj Hj. apply Hns'. by right.
  - (* awaiting the POST *)
    rewrite <- Permutation_middle in Hnd.
    apply NoDup_cons in Hnd as [Hi Hnd].
    assert (Hfree : ∀ j, succeeded u j → j ≠ i).
    { intros j Hj ->. unfold succeeded in Hj.
      destruct (chunks u !! i) as [c|] eqn:Hc; [|done]. simpl in Hj.
      injection Hj as Hj. eapply (Hns' i c); [|done..].
      rewrite <- Permutation_middle. by left. }
    assert (Hdone : ∀ s,
              (NoDup (queue u ++ others)
               ∧ ∀ j cj, j ∈ queue u ++ others →
                   alter (λ c, {| index := index c; status := s;
                                  attempts := attempts c |}) i (chunks u) !! j
                     = Some cj →
                   status cj ≠ ChunkState.SUCCESS)
              ∧ ∀ j, succeeded u j →
                  (status <$> alter (λ c, {| index := index c; status := s;
                                             attempts := attempts c |}) i
                                (chunks u) !! j) = Some ChunkState.SUCCESS).
    { intros s. split; [split; [done|]|].
      - intros j cj Hj. rewrite list_lookup_alter_ne by (by intros <-).
        apply Hns'. rewrite <- Permutation_middle. by right.
      - intros j Hj. rewrite list_lookup_alter_ne; [done|].
        intros <-. by eapply Hfree. }
    destruct (net_chunk net i r); simpl; [apply Hdone|].
    case_decide; simpl; [|apply Hdone].
    split; [split|]; [|done..].
    rewrite <- Permutation_middle. by apply NoDup_cons.
Qed.

Lemma run_keeps_success sched ws u :
  pending_ok ws u →
  pending_ok (run net sched ws u).1 (run net sched ws u).2
  ∧ ∀ j, succeeded u j → succeeded (run net sched ws u).2 j.
Proof.
  revert ws u. induction sched as [|k rest IH]; intros ws u Hok; simpl.
  - done.
  - destruct (ws !! k) as [wk|] eqn:Hk; [|by apply IH].
    destruct (step_keeps_success ws k wk u Hk Hok) as [Hok' Hmono].
    destruct (step net wk u) as [wk' u']. simpl in *.
    destruct (IH _ _ Hok') as [? Hmono']. split; [done|]. auto.
Qed.

Lemma run_app s1 s2 ws u :
  run net (s1 ++ s2) ws u =
    run net s2 (run net s1 ws u).1 (run net s1 ws u).2.
Proof.
  revert ws u. induction s1 as [|k s1 IH]; intros ws u; simpl; [done|].
  destruct (ws !! k) as [wk|]; [|apply IH].
  destruct (step net wk u) as [wk' u']. apply IH.
Qed.

(** From the queue [start] builds on: whatever the network and the
    schedule, a chunk that is SUCCESS at some point of the run (after
    the handshake or after its POST went through) is SUCCESS at every
    later point. *)
Lemma success_is_kept u1 s1 s2 j :
  indexed u1 →
  let u2 := setQueue (index <$> filter (λ c, status c ≠ ChunkState.SUCCESS)
                        (chunks u1)) u1 in
  let ws0 := replicate CONCURRENCY AtLoop in
  succeeded (run net s1 ws0 u2).2 j →
  succeeded (run net (s1 ++ s2) ws0 u2).2 j.
Proof.
  intros Hidx u2 ws0 Hj. rewrite run_app.
  destruct (run_keeps_success s1 ws0 u2) as [Hok _].
  - split; simpl.
    + rewrite app_nil_r.
      apply NoDup_fmap_2_strong.
      * intros c1 c2 H1%list_elem_of_filter H2%list_elem_of_filter Heq.
        destruct H1 as [_ [k1 H1]%list_elem_of_lookup].
        destruct H2 as [_ [k2 H2]%list_elem_of_lookup].
        rewrite (Hidx _ _ H1), (Hidx _ _ H2) in Heq. congruence.
      * apply NoDup_filter, NoDup_alt. intros k1 k2 c H1 H2.
        rewrite <- (Hidx _ _ H1). by apply Hidx.
    + rewrite app_nil_r. intros i c (c' & -> & Hc')%list_elem_of_fmap Hc.
      apply list_elem_of_filter in Hc' as [Hs [k Hk]%list_elem_of_lookup].
      rewrite (Hidx _ _ Hk) in Hc. congruence.
  - by apply run_keeps_success.
Qed.

End success_is_kept.

(** * Further properties of the code *)

(** ** The chunk writer *)

Section file_service.
Import FileService.



Lemma final_is_not_scratch uploadId finalFilename :
  finalPath uploadId finalFilename ≠ getFilePath uploadId.
Proof.
  unfold finalPath, getFilePath. intros Heq.
  do 3 apply String.app_inj in Heq. discriminate.
Qed.

(** X2. assembleFile: it fails exactly when the scratch file is missing.
    When it succeeds, the returned path is the final path, the final
    path holds the bytes the scratch file held (replacing whatever was
    there), the scratch path is gone and no other path is touched. *)
Theorem assembleFile_moves uploadId finalFilename (d : disk) :
  match assembleFile uploadId finalFilename d with
  | inl _ => d !! getFilePath uploadId = None
  | inr (d', filePath) =>
      filePath = finalPath uploadId finalFilename
      ∧ is_Some (d !! getFilePath uploadId)
      ∧ d' !! filePath = d !! getFilePath uploadId
      ∧ d' !! getFilePath uploadId = None
      ∧ ∀ path, path ≠ filePath → path ≠ getFilePath uploadId →
          d' !! path = d !! path
  end.
Proof.
  unfold assembleFile.
  destruct (d !! getFilePath uploadId) as [f|] eqn:Hf; [|done].
  split; [done|]. split; [eauto|]. split; [by rewrite lookup_insert_eq|].
  split.
  - rewrite lookup_insert_ne by apply final_is_not_scratch.
    by rewrite lookup_delete_eq.
  - intros path H1 H2. rewrite lookup_insert_ne by done.
    by rewrite lookup_delete_ne.
Qed.

End file_service.

(** ** Chunk acceptance *)

Section chunk_accept.
Import FileService Routes.

Lemma chunk_ok r (w : World) uId cIndex buffer :
  truthy_string (q_uploadId r) = Some uId → q_chunkIndex r = Some cIndex →
  b_data r = Some buffer →
  chunk r w =
    ({| uploads := uploads w;
        chunks := <[(uId, cIndex) := Status.COMPLETED]> (chunks w);
        files := chunkWrite uId (files w) (cIndex, buffer);
        calls := calls w |},
     respond 200 JOk).
Proof.
  intros Hu Hi Hd. unfold chunk. rewrite Hu, Hi, Hd.
  unfold update_chunk, upsert, with_chunks, with_files, chunkWrite.
  cbn [uploads chunks files calls fst snd].
  destruct (chunks w !! (uId, cIndex));
    rewrite lookup_insert_eq, insert_insert_eq; done.
Qed.

Lemma chunk_no_data r (w : World) uId cIndex :
  truthy_string (q_uploadId r) = Some uId → q_chunkIndex r = Some cIndex →
  b_data r = None →
  chunk r w =
    ({| uploads := uploads w;
        chunks := <[(uId, cIndex) := Status.UPLOADING]> (chunks w);
        files := files w; calls := calls w |},
     respond 400 (JText "No data")).
Proof.
  intros Hu Hi Hd. unfold chunk. rewrite Hu, Hi, Hd.
  unfold upsert, with_chunks. by destruct (chunks w !! (uId, cIndex)).
Qed.



(** X4. A request delivered twice leaves the world the first delivery made
    and gets the same answer, whether it is accepted or rejected. *)
Theorem chunk_delivered_twice r (w : World) :
  chunk r (chunk r w).1 = chunk r w.
Proof.
  destruct (truthy_string (q_uploadId r)) as [uId|] eqn:Hu.
  2:{ unfold chunk. by rewrite Hu. }
  destruct (q_chunkIndex r) as [cIndex|] eqn:Hi.
  2:{ unfold chunk. by rewrite Hu, Hi. }
  destruct (b_data r) as [buffer|] eqn:Hd.
  - rewrite !(chunk_ok r _ uId cIndex buffer) by done. simpl.
    by rewrite insert_insert_eq, chunkWrite_twice.
  - rewrite !(chunk_no_data r _ uId cIndex) by done. simpl.
    by rewrite insert_insert_eq.
Qed.

End chunk_accept.

(** ** Finalize: the paths not covered so far *)

Section finalize_paths.
Import FileService Routes.
Local Open Scope list_scope.
Variable peekZip : PeekZip.

Lemma finalize_done id (w : World) u scratch names :
  uploads w !! id = Some u → status u = Status.UPLOADING →
  Z.of_nat (countCompleted id (chunks w)) = totalChunks u →
  files w !! getFilePath id = Some scratch →
  peekZip scratch = inr names →
  finalize peekZip id w =
    ({| uploads := <[id := set_completed "dummy_hash" u]> (uploads w);
        chunks := chunks w;
        files := <[finalPath id (filename u) := scratch]>
                   (delete (getFilePath id) (files w));
        calls := calls w ++ [CallAssemble id (filename u);
                             CallPeekZip (finalPath id (filename u))] |},
     respond 200 (JCompleted names "dummy_hash")).
Proof.
  intros Hm Hs Hcount Hf Hp.
  rewrite (finalize_won peekZip id w u) by done.
  unfold finalize_try, assembleFile. simpl.
  rewrite decide_False by (intros ?; done).
  rewrite Hf, lookup_insert_eq. simpl. rewrite Hp.
  unfold with_uploads. simpl. by rewrite <- app_assoc.
Qed.

(** X5. The success path: an UPLOADING session whose number of COMPLETED
    records equals totalChunks, whose scratch file exists and whose
    archive check accepts, ends COMPLETED with the placeholder hash;
    the scratch file is moved to the final path; the assembly and the
    archive check are each called once, in that order; the reply is
    the 200 with the listed entries. *)
Theorem finalize_completes id (w : World) u scratch names :
  uploads w !! id = Some u → status u = Status.UPLOADING →
  Z.of_nat (countCompleted id (chunks w)) = totalChunks u →
  files w !! getFilePath id = Some scratch →
  peekZip scratch = inr names →
  finalize peekZip id w =
    ({| uploads := <[id := set_completed "dummy_hash" u]> (uploads w);
        chunks := chunks w;
        files := <[finalPath id (filename u) := scratch]>
                   (delete (getFilePath id) (files w));
        calls := calls w ++ [CallAssemble id (filename u);
                             CallPeekZip (finalPath id (filename u))] |},
     respond 200 (JCompleted names "dummy_hash")).
Proof. apply finalize_done. Qed.

(** X6. The two failures past the count check.  Without a scratch file the
    rename throws: the row of the session ends with status FAILED and
    its other fields as they were, the files are untouched and the
    archive check is not called.  When the archive check rejects, the
    row ends with status FAILED as well and the reply carries the
    error of the check, but the scratch file has already been moved to
    the final path. *)
Theorem finalize_fails_after_count id (w : World) u :
  uploads w !! id = Some u → status u = Status.UPLOADING →
  Z.of_nat (countCompleted id (chunks w)) = totalChunks u →
  let failed := {| filename := filename u; totalSize := totalSize u;
                   totalChunks := totalChunks u; status := Status.FAILED;
                   finalHash := finalHash u; createdAt := createdAt u |} in
  match files w !! getFilePath id with
  | None =>
      ∃ err,
        finalize peekZip id w =
          ({| uploads := <[id := failed]> (uploads w);
              chunks := chunks w; files := files w;
              calls := calls w ++ [CallAssemble id (filename u)] |},
           respond 500 (JError err))
        ∧ (status <$> uploads (finalize peekZip id w).1 !! id)
            = Some Status.FAILED
  | Some scratch =>
      ∀ err, peekZip scratch = inl err →
        finalize peekZip id w =
          ({| uploads := <[id := failed]> (uploads w);
              chunks := chunks w;
              files := <[finalPath id (filename u) := scratch]>
                         (delete (getFilePath id) (files w));
              calls := calls w ++ [CallAssemble id (filename u);
                                   CallPeekZip (finalPath id (filename u))] |},
           respond 500 (JError err))
        ∧ (status <$> uploads (finalize peekZip id w).1 !! id)
            = Some Status.FAILED
  end.
Proof.
  intros Hm Hs Hcount failed.
  rewrite (finalize_won peekZip id w u) by done.
  unfold finalize_try, assembleFile. simpl.
  rewrite decide_False by (intros ?; done).
  destruct (files w !! getFilePath id) as [scratch|] eqn:Hf; simpl.
  - intros err Hp. rewrite lookup_insert_eq. simpl. rewrite Hp.
    unfold with_uploads. simpl. rewrite lookup_insert_eq.
    split; [|done]. by rewrite <- app_assoc.
  - eexists. rewrite lookup_insert_eq. done.
Qed.

(** X7. Finalize for an id that is not in the store: 404, nothing changes. *)
Theorem finalize_unknown_session id (w : World) :
  uploads w !! id = None →
  finalize peekZip id w = (w, respond 404 (JError "Upload not found")).
Proof.
  intros Hm. rewrite finalize_lost by (intros u; congruence). by rewrite Hm.
Qed.

Lemma finalize_leaves_not_uploading id (w : World) u' :
  uploads (finalize peekZip id w).1 !! id = Some u' →
  status u' ≠ Status.UPLOADING.
Proof.
  destruct (updateMany_count id Status.UPLOADING Status.PROCESSING (uploads w))
    as [[_ (u & Hm & Hs)]|[_ Hmiss]].
  - rewrite (finalize_won peekZip id w u) by done.
    destruct (finalize_try _ _ _ _) as [w1 [err|names]]; simpl;
      rewrite lookup_insert_eq; by intros [= <-].
  - rewrite finalize_lost by done. simpl. apply Hmiss.
Qed.

(** X8. Finalize called again after a Finalize for the same id: whatever
    the first call did, the second changes nothing, calls neither the
    assembly nor the archive check, and answers with the status the
    first call left (200), or 404 when there is no such session. *)
Theorem finalize_twice id (w : World) :
  let w1 := (finalize peekZip id w).1 in
  finalize peekZip id w1 =
    (w1, match uploads w1 !! id with
         | None => respond 404 (JError "Upload not found")
         | Some u => respond 200 (JStatus (status u)
                                    "Upload already finalized or processing")
         end)
  ∧ (∀ u, uploads w1 !! id = Some u →
       status u = Status.COMPLETED ∨ status u = Status.FAILED
       ∨ (status u = Status.PROCESSING ∧ uploads w !! id = Some u)).
Proof.
  intros w1. split.
  - apply finalize_lost. intros u. apply finalize_leaves_not_uploading.
  - unfold w1.
    destruct (updateMany_count id Status.UPLOADING Status.PROCESSING (uploads w))
      as [[_ (u & Hm & Hs)]|[_ Hmiss]].
    + rewrite (finalize_won peekZip id w u) by done.
      destruct (finalize_try _ _ _ _) as [w2 [err|names]]; simpl;
        rewrite lookup_insert_eq; intros ? [= <-]; auto.
    + rewrite finalize_lost by done. simpl. intros u Hu.
      specialize (Hmiss u Hu). destruct (status u) eqn:Hst; auto. done.
Qed.

End finalize_paths.

Section finalize_paths_witnesses.
Import FileService Routes MoreSamples.

Lemma finalize_completes_witness :
  uploads world_full !! "s1" = Some session_full
  ∧ Z.of_nat (countCompleted "s1" (chunks world_full)) = 1%Z
  ∧ files world_full !! getFilePath "s1" = Some {[0%N := Byte.x50]}
  ∧ (finalize (λ _, inr ["a.txt"]) "s1" world_full).2 =
      respond 200 (JCompleted ["a.txt"] "dummy_hash").
Proof.
  split; [reflexivity|]. split; [reflexivity|]. split; [reflexivity|].
  rewrite (finalize_completes (λ _, inr ["a.txt"]) "s1" world_full session_full
             {[0%N := Byte.x50]} ["a.txt"]);
    reflexivity.
Defined.

Lemma finalize_fails_after_count_witness :
  let failed := {| filename := "a.zip"; totalSize := 1; totalChunks := 1;
                   status := Status.FAILED; finalHash := None;
                   createdAt := 0 |} in
  (uploads world_full !! "s1" = Some session_full
   ∧ Z.of_nat (countCompleted "s1" (chunks world_full)) = 1%Z
   ∧ uploads world_recorded !! "s1" = Some session_full
   ∧ Z.of_nat (countCompleted "s1" (chunks world_recorded)) = 1%Z)
  ∧ finalize (λ _, inl "not a zip") "s1" world_full =
      ({| uploads := {["s1" := failed]};
          chunks := chunks world_full;
          files := {[finalPath "s1" "a.zip" := {[0%N := Byte.x50]}]};
          calls := [CallAssemble "s1" "a.zip";
                    CallPeekZip (finalPath "s1" "a.zip")] |},
       respond 500 (JError "not a zip"))
  ∧ ∃ err,
      finalize (λ _, inr []) "s1" world_recorded =
        ({| uploads := {["s1" := failed]};
            chunks := chunks world_recorded; files := ∅;
            calls := [CallAssemble "s1" "a.zip"] |},
         respond 500 (JError err)).
Proof.
  intros failed.
  split; [split; [reflexivity|split; [reflexivity|split; reflexivity]]|].
  split.
  - pose proof (finalize_fails_after_count (λ _, inl "not a zip") "s1" world_full
                  session_full eq_refl eq_refl eq_refl) as H.
    change (files world_full !! getFilePath "s1") with
      (Some ({[0%N := Byte.x50]} : file)) in H.
    destruct (H "not a zip" eq_refl) as [-> _]. reflexivity.
  - pose proof (finalize_fails_after_count (λ _, inr []) "s1" world_recorded
                  session_full eq_refl eq_refl eq_refl) as H.
    change (files world_recorded !! getFilePath "s1") with
      (None : option file) in H.
    destruct H as (err & -> & _). exists err. reflexivity.
Defined.

Lemma finalize_unknown_session_witness :
  uploads world_full !! "nope" = None
  ∧ finalize (λ _, inr []) "nope" world_full =
      (world_full, respond 404 (JError "Upload not found")).
Proof.
  split; [reflexivity|].
  apply (finalize_unknown_session (λ _, inr []) "nope" world_full). reflexivity.
Defined.

End finalize_paths_witnesses.

(** ** Handshake: what it returns and what it leaves alone *)

Section init_more.
Import Routes.

Lemma init_keeps now b (w : World) :
  let w' := (init now b w).1 in
  chunks w' = chunks w ∧ files w' = files w ∧ calls w' = calls w
  ∧ (∀ id u, uploads w !! id = Some u → uploads w' !! id = Some u)
  ∧ (size (uploads w') ≤ S (size (uploads w)))%nat.
Proof.
  unfold init.
  destruct (truthy_string (req_filename b)) as [fn|];
    [|simpl; repeat split; [done|lia]].
  destruct (truthy_number (req_totalSize b)) as [ts|];
    [|simpl; repeat split; [done|lia]].
  destruct (truthy_number (req_totalChunks b)) as [tc|];
    [|simpl; repeat split; [done|lia]].
  destruct (findFirst fn ts (uploads w)) as [[id u]|];
    [simpl; repeat split; [done|lia]|].
  pose proof (create_fresh now fn ts tc (uploads w)) as Hfresh.
  simpl in *. repeat split.
  - intros id u Hu. rewrite lookup_insert_ne; [done|]. congruence.
  - by rewrite map_size_insert_None.
Qed.

(** X9. Whatever the body, a handshake changes no chunk record, no file and
    no existing session, calls no collaborator, and adds at most one
    session. *)
Theorem init_frame now b (w : World) :
  let w' := (init now b w).1 in
  chunks w' = chunks w ∧ files w' = files w ∧ calls w' = calls w
  ∧ (∀ id u, uploads w !! id = Some u → uploads w' !! id = Some u)
  ∧ (size (uploads w') ≤ S (size (uploads w)))%nat.
Proof. apply init_keeps. Qed.

(** X10. A well-formed handshake is answered with a session that is in the
    store afterwards, is UPLOADING, and has the filename and the
    totalSize of the request (its totalChunks is the one it was created
    with, not necessarily the one of this request). *)
Theorem init_returns_live_session now fn ts tc (w : World) :
  fn ≠ "" → ts ≠ 0%Z → tc ≠ 0%Z →
  let b := {| req_filename := Some fn; req_totalSize := Some ts;
              req_totalChunks := Some tc |} in
  ∃ id u,
    (init now b w).2 = respond 200 (JInit id (completedChunks id (chunks w)))
    ∧ uploads (init now b w).1 !! id = Some u
    ∧ filename u = fn ∧ totalSize u = ts ∧ status u = Status.UPLOADING.
Proof.
  intros Hfn Hts Htc b. unfold b. rewrite init_valid by done.
  destruct (findFirst fn ts (uploads w)) as [[id u]|] eqn:Hf.
  - apply findFirst_Some in Hf as (Hm & ? & ? & ?). exists id, u. done.
  - eexists _, _. split; [done|]. simpl. rewrite lookup_insert_eq. done.
Qed.

Lemma init_returns_live_session_witness :
  ("a.zip" ≠ "" ∧ 7%Z ≠ 0%Z ∧ 3%Z ≠ 0%Z)
  ∧ ∃ id u,
      (init 5 {| req_filename := Some "a.zip"; req_totalSize := Some 7%Z;
                 req_totalChunks := Some 3%Z |} world_partial).2 =
        respond 200 (JInit id (completedChunks id (chunks world_partial)))
      ∧ uploads (init 5 {| req_filename := Some "a.zip";
                           req_totalSize := Some 7%Z;
                           req_totalChunks := Some 3%Z |} world_partial).1 !! id
          = Some u
      ∧ filename u = "a.zip" ∧ totalSize u = 7%Z
      ∧ status u = Status.UPLOADING.
Proof.
  split; [repeat split; discriminate|].
  apply (init_returns_live_session 5 "a.zip" 7 3 world_partial); discriminate.
Defined.

(** X11. When no session with the filename and totalSize of the request is
    UPLOADING (none at all, or only finished ones), a well-formed
    handshake creates one: under an id not in use, UPLOADING, without
    hash, created now, with the declared totalChunks. *)
Theorem init_starts_new_session now fn ts tc (w : World) :
  fn ≠ "" → ts ≠ 0%Z → tc ≠ 0%Z →
  (∀ id u, uploads w !! id = Some u → filename u = fn → totalSize u = ts →
     status u ≠ Status.UPLOADING) →
  let b := {| req_filename := Some fn; req_totalSize := Some ts;
              req_totalChunks := Some tc |} in
  ∃ id,
    uploads w !! id = None
    ∧ init now b w =
        ({| uploads :=
              <[id := {| filename := fn; totalSize := ts; totalChunks := tc;
                         status := Status.UPLOADING; finalHash := None;
                         createdAt := now |}]> (uploads w);
            chunks := chunks w; files := files w; calls := calls w |},
         respond 200 (JInit id (completedChunks id (chunks w)))).
Proof.
  intros Hfn Hts Htc Hnone b. unfold b. rewrite init_valid by done.
  destruct (findFirst fn ts (uploads w)) as [[id u]|] eqn:Hf.
  - apply findFirst_Some in Hf as (Hm & ? & ? & ?). by destruct (Hnone id u).
  - exists (create now fn ts tc (uploads w)).1.
    split; [apply create_fresh|done].
Qed.

Lemma init_starts_new_session_witness :
  ("a.zip" ≠ "" ∧ 7%Z ≠ 0%Z ∧ 2%Z ≠ 0%Z)
  ∧ (∀ id u, uploads world_done !! id = Some u → filename u = "a.zip" →
       totalSize u = 7%Z → status u ≠ Status.UPLOADING)
  ∧ ∃ id,
      uploads world_done !! id = None
      ∧ (init 5 handshake_request world_done).2 =
          respond 200 (JInit id (completedChunks id (chunks world_done))).
Proof.
  assert (H : ∀ id u, uploads world_done !! id = Some u → filename u = "a.zip" →
            totalSize u = 7%Z → status u ≠ Status.UPLOADING).
  { intros id u Hu _ _.
    change (({["s1" := session_done]} : gmap string Upload) !! id = Some u) in Hu.
    apply lookup_singleton_Some in Hu as [_ <-]. discriminate. }
  split; [repeat split; discriminate|]. split; [exact H|].
  destruct (init_starts_new_session 5 "a.zip" 7 2 world_done) as (id & Hid & Hrun);
    [discriminate..|exact H|].
  exists id. split; [exact Hid|]. unfold handshake_request. by rewrite Hrun.
Defined.

End init_more.

(** ** Cleanup and the routes together *)

Section routes.
Import FileService Routes Router.
Variable peekZip : PeekZip.

Lemma cleanup_run now (w : World) :
  let cutoff := (now - DAY_MS)%Z in
  ∃ w',
    cleanup now w =
      (w', respond 200 (JCleaned (size (filter (orphan cutoff) (uploads w)))))
    ∧ uploads w' = filter (λ kv, ¬ orphan cutoff kv) (uploads w)
    ∧ (∀ k s, chunks w' !! k = Some s → chunks w !! k = Some s)
    ∧ calls w' = calls w.
Proof.
  intros cutoff. unfold cleanup. fold cutoff.
  set (orphaned := map_to_list (filter (orphan cutoff) (uploads w))).
  destruct (cleanup_loop_spec orphaned w) as (w' & Hrun & Hu & Hc & Hf & Hk).
  { apply NoDup_fst_map_to_list. }
  { intros k Hin. apply orphaned_keys in Hin as (u & Hm & _). eauto. }
  exists w'. rewrite Hrun. unfold orphaned at 1. rewrite length_map_to_list.
  split; [done|]. split; [|split; [|done]].
  - apply map_eq. intros k. rewrite Hu. case_decide as Hin.
    + apply orphaned_keys in Hin as (u & Hm & Ho). symmetry.
      apply map_lookup_filter_None. right. intros u' Hu'.
      assert (u' = u) as -> by congruence. by intros ?.
    + destruct (uploads w !! k) as [u|] eqn:Hm; symmetry.
      * apply map_lookup_filter_Some. split; [done|].
        intros Ho. apply Hin, orphaned_keys. eauto.
      * apply map_lookup_filter_None. by left.
  - intros [k i] s. rewrite Hc. by case_decide.
Qed.

(** X12. A second sweep at the same time finds nothing to reclaim and
    changes nothing. *)
Theorem cleanup_twice now (w : World) :
  cleanup now (cleanup now w).1 =
    ((cleanup now w).1, respond 200 (JCleaned 0)).
Proof.
  destruct (cleanup_run now w) as (w' & Hrun & Hu & _). rewrite Hrun. simpl.
  unfold cleanup.
  assert (Hnone : filter (orphan (now - DAY_MS)) (uploads w') = ∅).
  { rewrite Hu. apply map_eq. intros k. rewrite lookup_empty.
    apply map_lookup_filter_None. right. intros u Hk.
    by apply map_lookup_filter_Some in Hk as [_ Hk]. }
  rewrite Hnone, map_to_list_empty. done.
Qed.

(** What Finalize does to the table of sessions: nothing, or one
    UPLOADING row becomes COMPLETED with the hash, or FAILED. *)
Lemma finalize_uploads id (w : World) :
  chunks (finalize peekZip id w).1 = chunks w
  ∧ (uploads (finalize peekZip id w).1 = uploads w
     ∨ ∃ u, uploads w !! id = Some u ∧ status u = Status.UPLOADING
         ∧ (uploads (finalize peekZip id w).1 =
              <[id := set_completed "dummy_hash" u]> (uploads w)
            ∨ uploads (finalize peekZip id w).1 =
                <[id := set_status Status.FAILED u]> (uploads w))).
Proof.
  destruct (updateMany_count id Status.UPLOADING Status.PROCESSING (uploads w))
    as [[_ (u & Hm & Hs)]|[_ Hmiss]].
  - rewrite (finalize_won peekZip id w u) by done.
    assert (Hc : chunks (finalize_try peekZip id (set_status Status.PROCESSING u)
                    (with_uploads (<[id := set_status Status.PROCESSING u]>
                                     (uploads w)) w)).1 = chunks w).
    { unfold finalize_try. repeat (case_decide || case_match); done. }
    destruct (finalize_try _ _ _ _) as [w1 [err|names]]; simpl in *;
      (split; [done|]); right; exists u; auto.
  - rewrite finalize_lost by done. auto.
Qed.

(** What a Finalize without [uploadId] does: every UPLOADING row
    becomes PROCESSING, nothing else changes. *)
Lemma finalizeNoId_run (w : World) :
  (∀ id, uploads (finalizeNoId w).1 !! id =
      (λ u, if decide (status u = Status.UPLOADING)
            then set_status Status.PROCESSING u else u) <$> uploads w !! id)
  ∧ chunks (finalizeNoId w).1 = chunks w
  ∧ files (finalizeNoId w).1 = files w
  ∧ calls (finalizeNoId w).1 = calls w
  ∧ code (finalizeNoId w).2 = 500%Z.
Proof.
  unfold finalizeNoId, updateManyAny. simpl. split; [|done].
  intros id. by rewrite lookup_fmap.
Qed.

(** X13. A session that is not UPLOADING is left exactly as it is by every
    request: it is never finalized again, never reopened and never
    reclaimed. *)
Theorem finished_session_is_frozen (reqs : list Request) (w : World) id u :
  uploads w !! id = Some u → status u ≠ Status.UPLOADING →
  uploads (serveAll peekZip reqs w) !! id = Some u.
Proof.
  revert w. unfold serveAll.
  induction reqs as [|req reqs IH]; intros w Hm Hs; simpl; [done|].
  apply IH; [|done].
  destruct req as [now b|r|id'| |now]; simpl.
  - by apply init_keeps.
  - by rewrite chunk_uploads.
  - destruct (finalize_uploads id' w) as [_ [->|(u' & Hm' & Hs' & [->| ->])]];
      [done|..];
      (rewrite lookup_insert_ne; [done|]; intros ->; congruence).
  - rewrite (proj1 (finalizeNoId_run w)), Hm. simpl.
    by rewrite decide_False.
  - destruct (cleanup_run now w) as (w' & Hrun & Hu & _).
    rewrite Hrun. simpl. rewrite Hu.
    apply map_lookup_filter_Some. split; [done|]. by intros [? _].
Qed.

(** X14. The life of a session, one request at a time.  A request leaves a
    session as it is, with three exceptions: a Finalize for this
    session while it is UPLOADING makes its status COMPLETED (with the
    hash) or FAILED; a Finalize without [uploadId] makes the status of
    a session that is UPLOADING PROCESSING; in both cases nothing else
    of the row changes; and a session disappears only when a cleanup
    finds it UPLOADING and older than a day. *)
Theorem session_lifecycle (req : Request) (w : World) id u :
  uploads w !! id = Some u →
  let row := λ s h, {| filename := filename u; totalSize := totalSize u;
                       totalChunks := totalChunks u; status := s;
                       finalHash := h; createdAt := createdAt u |} in
  match uploads (serve peekZip req w).1 !! id with
  | Some u' =>
      u' = u
      ∨ (req = PostFinalize id ∧ status u = Status.UPLOADING
         ∧ (u' = row Status.COMPLETED (Some "dummy_hash")
            ∨ u' = row Status.FAILED (finalHash u)))
      ∨ (req = PostFinalizeNoId ∧ status u = Status.UPLOADING
         ∧ u' = row Status.PROCESSING (finalHash u))
  | None =>
      ∃ now, req = PostCleanup now ∧ status u = Status.UPLOADING
             ∧ (createdAt u < now - 24 * 60 * 60 * 1000)%Z
  end.
Proof.
  intros Hm row. destruct req as [now b|r|id'| |now]; simpl.
  - rewrite (proj1 (proj2 (proj2 (proj2 (init_keeps now b w)))) id u Hm). auto.
  - rewrite chunk_uploads, Hm. auto.
  - destruct (finalize_uploads id' w) as [_ [->|(u0 & Hm0 & Hs0 & [->| ->])]].
    + rewrite Hm. auto.
    + destruct (decide (id' = id)) as [->|Hne].
      * rewrite lookup_insert_eq.
        assert (u0 = u) as -> by congruence. right. left. auto.
      * rewrite lookup_insert_ne, Hm by done. auto.
    + destruct (decide (id' = id)) as [->|Hne].
      * rewrite lookup_insert_eq.
        assert (u0 = u) as -> by congruence. right. left. auto.
      * rewrite lookup_insert_ne, Hm by done. auto.
  - rewrite (proj1 (finalizeNoId_run w)), Hm. simpl.
    case_decide as Hs; [|auto]. right. right. auto.
  - destruct (cleanup_run now w) as (w' & Hrun & Hu & _).
    rewrite Hrun. simpl. rewrite Hu.
    destruct (decide (orphan (now - DAY_MS) (id, u))) as [Ho|Ho].
    + rewrite (proj2 (map_lookup_filter_None _ _ _)).
      * exists now. destruct Ho. done.
      * right. intros u' Hu'. assert (u' = u) as -> by congruence. by intros ?.
    + rewrite (proj2 (map_lookup_filter_Some _ _ _ _) (conj Hm Ho)). auto.
Qed.

(** Every request keeps the store consistent: a session has the hash
    exactly when it is COMPLETED, and a chunk record is UPLOADING or
    COMPLETED. *)
Lemma serve_consistent (req : Request) (w : World) :
  consistent w → consistent (serve peekZip req w).1.
Proof.
  intros [Hrows Hrecs]. split.
  - intros id u' Hu'.
    destruct req as [now b|r|id'| |now]; simpl in Hu'.
    + unfold init in Hu'.
      destruct (truthy_string (req_filename b)) as [fn|]; [|by eapply Hrows].
      destruct (truthy_number (req_totalSize b)) as [ts|]; [|by eapply Hrows].
      destruct (truthy_number (req_totalChunks b)) as [tc|]; [|by eapply Hrows].
      destruct (findFirst fn ts (uploads w)) as [[k v]|]; [by eapply Hrows|].
      simpl in Hu'. apply lookup_insert_Some in Hu' as [[_ <-]|[_ Hu']];
        [done|by eapply Hrows].
    + rewrite chunk_uploads in Hu'. by eapply Hrows.
    + destruct (finalize_uploads id' w) as [_ [Heq|(u0 & Hm0 & Hs0 & [Heq|Heq])]];
        rewrite Heq in Hu'; [by eapply Hrows|..];
        (apply lookup_insert_Some in Hu' as [[_ <-]|[_ Hu']];
         [|by eapply Hrows]);
        destruct (Hrows _ _ Hm0) as (_ & Hnone); simpl.
      * done.
      * split; [done|]. intros _. apply Hnone. by rewrite Hs0.
    + rewrite (proj1 (finalizeNoId_run w)) in Hu'.
      destruct (uploads w !! id) as [u|] eqn:Hm; [|done].
      simpl in Hu'. injection Hu' as <-.
      destruct (Hrows _ _ Hm) as (Hc & Hnone).
      case_decide as Hs; [|done]. simpl. split; [done|].
      intros _. apply Hnone. by rewrite Hs.
    + destruct (cleanup_run now w) as (w' & Hrun & Hu & _).
      rewrite Hrun in Hu'. simpl in Hu'. rewrite Hu in Hu'.
      apply map_lookup_filter_Some in Hu' as [Hu' _]. by eapply Hrows.
  - intros k s Hs.
    destruct req as [now b|r|id'| |now]; simpl in Hs.
    + rewrite (proj1 (init_keeps now b w)) in Hs. by eapply Hrecs.
    + destruct (truthy_string (q_uploadId r)) as [uId|] eqn:Hu.
      2:{ unfold chunk in Hs. rewrite Hu in Hs. by eapply Hrecs. }
      destruct (q_chunkIndex r) as [cIndex|] eqn:Hi.
      2:{ unfold chunk in Hs. rewrite Hu, Hi in Hs. by eapply Hrecs. }
      destruct (b_data r) as [buffer|] eqn:Hd.
      * rewrite (chunk_ok r w uId cIndex buffer) in Hs by done. simpl in Hs.
        apply lookup_insert_Some in Hs as [[_ <-]|[_ Hs]]; [auto|by eapply Hrecs].
      * rewrite (chunk_no_data r w uId cIndex) in Hs by done. simpl in Hs.
        apply lookup_insert_Some in Hs as [[_ <-]|[_ Hs]]; [auto|by eapply Hrecs].
    + rewrite (proj1 (finalize_uploads id' w)) in Hs. by eapply Hrecs.
    + by eapply Hrecs.
    + destruct (cleanup_run now w) as (w' & Hrun & _ & Hc & _).
      rewrite Hrun in Hs. simpl in Hs. by eapply Hrecs, Hc.
Qed.

Lemma serveAll_frozen (reqs : list Request) (w : World) id u :
  uploads w !! id = Some u → status u ≠ Status.UPLOADING →
  uploads (serveAll peekZip reqs w) !! id = Some u.
Proof.
  revert w. unfold serveAll.
  induction reqs as [|req reqs IH]; intros w Hm Hs; simpl; [done|].
  apply IH; [|done].
  destruct req as [now b|r|id'| |now]; simpl.
  - by apply init_keeps.
  - by rewrite chunk_uploads.
  - destruct (finalize_uploads id' w) as [_ [->|(u' & Hm' & Hs' & [->| ->])]];
      [done|..];
      (rewrite lookup_insert_ne; [done|]; intros ->; congruence).
  - rewrite (proj1 (finalizeNoId_run w)), Hm. simpl.
    by rewrite decide_False.
  - destruct (cleanup_run now w) as (w' & Hrun & Hu & _).
    rewrite Hrun. simpl. rewrite Hu.
    apply map_lookup_filter_Some. split; [done|]. by intros [? _].
Qed.

(** X15. In every store the routes produce from the empty one, serving
    requests one after the other: a session has a hash exactly when it
    is COMPLETED (and then the placeholder), and every chunk record is
    UPLOADING or COMPLETED.  A session can be left in PROCESSING: a
    handshake followed by a Finalize without [uploadId] does so, and
    from then on no request changes the session. *)
Theorem reachable_store_consistent :
  (∀ reqs, consistent (serveAll peekZip reqs world_empty))
  ∧ (∃ id u,
       uploads (serveAll peekZip [PostInit 0 handshake_request; PostFinalizeNoId]
                  world_empty) !! id = Some u
       ∧ status u = Status.PROCESSING)
  ∧ (∀ reqs w id u,
       uploads w !! id = Some u → status u = Status.PROCESSING →
       uploads (serveAll peekZip reqs w) !! id = Some u).
Proof.
  split; [|split].
  - intros reqs.
    assert (H : ∀ w, consistent w → consistent (serveAll peekZip reqs w)).
    { unfold serveAll. induction reqs as [|req reqs IH]; intros w Hw; simpl;
        [done|]. by apply IH, serve_consistent. }
    apply H. split; intros ? ?; simpl; by rewrite lookup_empty.
  - exists "0", {| filename := "a.zip"; totalSize := 7; totalChunks := 2;
                   status := Status.PROCESSING; finalHash := None;
                   createdAt := 0 |}.
    split; [vm_compute; reflexivity|reflexivity].
  - intros reqs w id u Hm Hs. apply serveAll_frozen; [done|].
    rewrite Hs. discriminate.
Qed.

End routes.

Section routes_witnesses.
Import FileService Routes Router.

Lemma finished_session_is_frozen_witness :
  let reqs := [PostFinalize "s1"; PostCleanup two_days;
               PostInit 5 handshake_request] in
  uploads world_done !! "s1" = Some session_done
  ∧ status session_done ≠ Status.UPLOADING
  ∧ uploads (serveAll (λ _, inr []) reqs world_done) !! "s1" = Some session_done.
Proof.
  intros reqs. split; [reflexivity|]. split; [discriminate|].
  apply (finished_session_is_frozen (λ _, inr []) reqs world_done "s1" session_done);
    [reflexivity|discriminate].
Defined.

Lemma session_lifecycle_witness :
  let failed := {| filename := "a.zip"; totalSize := 7; totalChunks := 2;
                   status := Status.FAILED; finalHash := None;
                   createdAt := 0 |} in
  let processing := {| filename := "a.zip"; totalSize := 7; totalChunks := 2;
                       status := Status.PROCESSING; finalHash := None;
                       createdAt := 0 |} in
  uploads world_partial !! "s1" = Some session_open
  ∧ uploads (serve (λ _, inr []) (PostFinalize "s1") world_partial).1 !! "s1" =
      Some failed
  ∧ uploads (serve (λ _, inr []) PostFinalizeNoId world_partial).1 !! "s1" =
      Some processing.
Proof.
  intros failed processing. split; [reflexivity|]. split.
  - pose proof (session_lifecycle (λ _, inr []) (PostFinalize "s1") world_partial
                  "s1" session_open eq_refl) as H.
    destruct (uploads (serve (λ _, inr []) (PostFinalize "s1") world_partial).1
                !! "s1") as [u'|] eqn:Hu'.
    + vm_compute in Hu'. by injection Hu' as <-.
    + vm_compute in Hu'. discriminate Hu'.
  - pose proof (session_lifecycle (λ _, inr []) PostFinalizeNoId world_partial
                  "s1" session_open eq_refl) as H.
    destruct (uploads (serve (λ _, inr []) PostFinalizeNoId world_partial).1
                !! "s1") as [u'|] eqn:Hu'.
    + vm_compute in Hu'. by injection Hu' as <-.
    + vm_compute in Hu'. discriminate Hu'.
Defined.

End routes_witnesses.

(** ** The archive check *)

Section zip.
Import Zip.
Local Open Scope list_scope.

Lemma is_directory_spec s :
  is_directory s = true ↔ ∃ p, s = p +:+ "/".
Proof.
  induction s as [|a s IH].
  - split; [done|]. intros [[|b p] Hp]; discriminate.
  - destruct s as [|b s'].
    + simpl. rewrite bool_decide_eq_true. split.
      * intros ->. by exists "".
      * intros [[|c p] Hp]; [done|].
        change (String a "" = String c (p +:+ "/")) in Hp.
        injection Hp as _ Hp. destruct p; discriminate.
    + change (is_directory (String a (String b s')))
        with (is_directory (String b s')).
      rewrite IH. split.
      * intros [p ->]. by exists (String a p).
      * intros [[|c p] Hp]; [discriminate|].
        change (String a (String b s') = String c (p +:+ "/")) in Hp.
        injection Hp as _ Hp. eauto.
Qed.

Lemma readEntries_from es t (filenames : list string) :
  (length filenames < 10)%nat →
  readEntries es t filenames =
    let all := filenames ++ filter is_file es in
    if decide (10 ≤ length all)%nat then inr (take 10 all)
    else match t with
         | ZipEnd => inr all
         | ZipError message => inl message
         end.
Proof.
  revert filenames. induction es as [|e es IH]; intros acc Hacc; simpl.
  - rewrite filter_nil, app_nil_r. by rewrite decide_False by lia.
  - destruct (is_directory e) eqn:He.
    + rewrite decide_True by done. rewrite IH by done.
      rewrite filter_cons_False by (unfold is_file; congruence). done.
    + rewrite filter_cons_True by done.
      replace (acc ++ e :: filter is_file es)
        with ((acc ++ [e]) ++ filter is_file es) by by rewrite <- app_assoc.
      case_decide as Hlen.
      * by rewrite IH.
      * rewrite length_app in Hlen. simpl in Hlen.
        rewrite decide_True by (rewrite !length_app; simpl; lia).
        rewrite take_app_length'; [done|]. rewrite length_app. simpl. lia.
Qed.

(** X16. peekZip: when the archive cannot be opened the check rejects with
    that error.  Otherwise, with [names] the entries that do not end in
    "/", in directory order: if there are ten or more, the check
    accepts with the first ten and never sees what follows (not even a
    damaged directory); if there are fewer, it accepts with all of them
    when the directory ends well and rejects with the error when it
    does not. *)
Theorem peekZip_first_ten_files (yauzl : Yauzl) (f : file) :
  (∀ s, is_directory s = true ↔ ∃ p, s = p +:+ "/")
  ∧ match yauzl f with
    | inl err => peekZip yauzl f = inl err
    | inr zipfile =>
        let names := filter (λ e, is_directory e = false) (entries zipfile) in
        if decide (10 ≤ length names)%nat
        then peekZip yauzl f = inr (take 10 names)
        else peekZip yauzl f =
               match tail zipfile with
               | ZipEnd => inr names
               | ZipError message => inl message
               end
    end.
Proof.
  split; [apply is_directory_spec|].
  unfold peekZip. destruct (yauzl f) as [err|z]; [done|].
  rewrite readEntries_from by (simpl; lia). simpl.
  change (filter is_file (entries z))
    with (filter (λ e, is_directory e = false) (entries z)).
  by case_decide.
Qed.

(** What a caller sees of an accepted archive: at most ten names, none
    of a directory. *)
Theorem peekZip_accepts_at_most_ten (yauzl : Yauzl) (f : file) names :
  peekZip yauzl f = inr names →
  (length names ≤ 10)%nat ∧ Forall (λ e, is_directory e = false) names.
Proof.
  unfold peekZip. destruct (yauzl f) as [err|z]; [done|].
  rewrite readEntries_from by (simpl; lia). simpl.
  assert (Hall : Forall is_file (filter is_file (entries z))).
  { apply Forall_forall. intros e He. by apply list_elem_of_filter in He as [? _]. }
  case_decide.
  - intros [= <-]. split; [rewrite length_take; lia|].
    by apply Forall_take.
  - destruct (tail z); intros [= <-]. split; [lia|done].
Qed.

Lemma peekZip_accepts_at_most_ten_witness :
  let yauzl : Yauzl := λ _, inr {| entries := ["docs/"; "docs/a.txt"; "b.txt"];
                                   tail := ZipEnd |} in
  peekZip yauzl ∅ = inr ["docs/a.txt"; "b.txt"]
  ∧ (length ["docs/a.txt"; "b.txt"] ≤ 10)%nat
  ∧ Forall (λ e, is_directory e = false) ["docs/a.txt"; "b.txt"].
Proof.
  intros yauzl.
  assert (H : peekZip yauzl ∅ = inr ["docs/a.txt"; "b.txt"]) by reflexivity.
  split; [exact H|].
  exact (peekZip_accepts_at_most_ten yauzl ∅ _ H).
Defined.

End zip.

(** ** The chunks of a file *)

Section partition.
Import Uploader Transfer.
Local Open Scope list_scope.

Lemma getChunk_inside f (i : nat) :
  (Z.of_nat i < totalChunks f)%Z →
  (Z.of_nat i * CHUNK_SIZE < size f)%Z
  ∧ upto f (S i) = upto f i ++ getChunk f i
  ∧ length (upto f i) = Z.to_nat (Z.of_nat i * CHUNK_SIZE)
  ∧ (0 < length (getChunk f i))%nat
  ∧ (Z.of_nat (length (getChunk f i)) ≤ CHUNK_SIZE)%Z.
Proof.
  intros Hi. pose proof (totalChunks_bounds f) as Hn.
  assert (Ha : (Z.of_nat i * CHUNK_SIZE < size f)%Z)
    by (unfold CHUNK_SIZE in *; lia).
  set (a := (Z.of_nat i * CHUNK_SIZE)%Z) in *.
  set (b := Z.min ((Z.of_nat i + 1) * CHUNK_SIZE) (size f)).
  assert (Hb : getChunkEnd f i = b).
  { unfold getChunkEnd, getChunkStart, b, a. f_equal. lia. }
  assert (Hab : (0 ≤ a ∧ a < b ∧ b ≤ size f ∧ b - a ≤ CHUNK_SIZE)%Z).
  { unfold a, b, CHUNK_SIZE in *. lia. }
  destruct (slice_inside f a b) as [Hsl Hlen]; [lia..|].
  unfold getChunk. fold a. change (getChunkStart i) with a. rewrite Hb.
  split; [done|]. split; [|split; [|split]].
  - unfold upto. rewrite Hsl.
    replace (Z.min (Z.of_nat (S i) * CHUNK_SIZE) (size f)) with b
      by (unfold b; f_equal; lia).
    fold a. rewrite (Z.min_l a) by lia.
    rewrite take_take_drop. f_equal. lia.
  - unfold upto. fold a. rewrite (Z.min_l a) by lia.
    rewrite length_take. unfold size in *. lia.
  - lia.
  - lia.
Qed.

Lemma upto_all f : upto f (Z.to_nat (totalChunks f)) = bytes f.
Proof.
  pose proof (totalChunks_bounds f) as Hn.
  pose proof (totalChunks_nonneg f).
  unfold upto. rewrite Z2Nat.id by done. rewrite Z.min_r by lia.
  unfold size. rewrite Nat2Z.id. apply firstn_all.
Qed.

Lemma concat_chunks_upto f k :
  (Z.of_nat k ≤ totalChunks f)%Z →
  concat (getChunk f <$> seq 0 k) = upto f k.
Proof.
  induction k as [|k IH]; intros Hk.
  - unfold upto. simpl. by rewrite Z.min_l by apply size_nonneg.
  - rewrite seq_S, fmap_app, concat_app. simpl. rewrite app_nil_r.
    rewrite IH by lia.
    by destruct (getChunk_inside f k) as (_ & -> & _); [lia|].
Qed.

Lemma getChunkSize_length f (k : nat) :
  (Z.of_nat k < totalChunks f)%Z →
  getChunkSize f k = Z.of_nat (length (getChunk f k)).
Proof.
  intros Hk. pose proof (totalChunks_bounds f).
  unfold getChunkSize, getChunk, getChunkEnd, getChunkStart.
  destruct (slice_inside f (Z.of_nat k * CHUNK_SIZE)
              (Z.min (Z.of_nat k * CHUNK_SIZE + CHUNK_SIZE) (size f)))
    as [_ ->]; unfold CHUNK_SIZE in *; lia.
Qed.

Lemma foldr_add_shift (l : list Z) (z : Z) :
  foldr Z.add z l = (foldr Z.add 0 l + z)%Z.
Proof.
  revert z. induction l as [|x l IHl]; intros z; simpl; [lia|].
  rewrite IHl. lia.
Qed.

Lemma chunk_sizes_sum f :
  foldr Z.add 0%Z (getChunkSize f <$> seq 0 (Z.to_nat (totalChunks f))) = size f.
Proof.
  pose proof (totalChunks_nonneg f) as Hn.
  assert (Hsz : ∀ k, (k ≤ Z.to_nat (totalChunks f))%nat →
            foldr Z.add 0%Z (getChunkSize f <$> seq 0 k) =
              Z.of_nat (length (upto f k))).
  { induction k as [|k IH]; intros Hk.
    - unfold upto. simpl. by rewrite Z.min_l by apply size_nonneg.
    - rewrite seq_S, fmap_app, foldr_app. simpl.
      destruct (getChunk_inside f k) as (Ha & -> & Hl & _ & _); [lia|].
      rewrite length_app, getChunkSize_length by lia.
      rewrite foldr_add_shift, IH by lia. lia. }
  rewrite Hsz by done. by rewrite upto_all.
Qed.

Lemma getChunk_beyond (f : File) (i : nat) :
  (totalChunks f ≤ Z.of_nat i)%Z →
  getChunk f i = [] ∧ (getChunkSize f i ≤ 0)%Z.
Proof.
  intros Hi. pose proof (totalChunks_bounds f) as Hn.
  pose proof (size_nonneg f) as Hs.
  assert (Ha : (size f ≤ Z.of_nat i * CHUNK_SIZE)%Z)
    by (unfold CHUNK_SIZE in *; lia).
  unfold getChunkSize, getChunk, getChunkEnd, getChunkStart, slice, clamp.
  rewrite !decide_False by (unfold CHUNK_SIZE in *; lia).
  split; [|unfold CHUNK_SIZE in *; lia].
  rewrite Z.max_r by (unfold CHUNK_SIZE in *; lia). done.
Qed.

(** X17. The chunks the client slices, taken in index order, are the file:
    concatenated they give back its bytes, none of them is empty, none
    is longer than CHUNK_SIZE, and their sizes add up to the size of
    the file. *)
Theorem chunks_partition_the_file (f : File) :
  let n := Z.to_nat (totalChunks f) in
  concat (getChunk f <$> seq 0 n) = bytes f
  ∧ Forall (λ c, (0 < length c)%nat ∧ (Z.of_nat (length c) ≤ CHUNK_SIZE)%Z)
      (getChunk f <$> seq 0 n)
  ∧ foldr Z.add 0%Z (getChunkSize f <$> seq 0 n) = size f.
Proof.
  intros n. pose proof (totalChunks_nonneg f) as Hn.
  assert (Hcat : concat (getChunk f <$> seq 0 n) = bytes f).
  { unfold n. rewrite concat_chunks_upto by lia. apply upto_all. }
  split; [done|]. split.
  - apply Forall_fmap, Forall_forall. intros i Hi%elem_of_seq. simpl.
    destruct (getChunk_inside f i) as (_ & _ & _ & ? & ?); [lia|done].
  - apply chunk_sizes_sum.
Qed.

(** X18. Past the last chunk there is nothing to slice: [getChunk] is
    empty, while [getChunkSize] is zero or negative. *)
Theorem getChunk_out_of_range (f : File) (i : nat) :
  (totalChunks f ≤ Z.of_nat i)%Z →
  getChunk f i = [] ∧ (getChunkSize f i ≤ 0)%Z.
Proof. apply getChunk_beyond. Qed.

Lemma getChunk_out_of_range_witness :
  (totalChunks one_byte_file ≤ Z.of_nat 1)%Z
  ∧ getChunk one_byte_file 1 = []
  ∧ (getChunkSize one_byte_file 1 ≤ 0)%Z.
Proof.
  assert (H : (totalChunks one_byte_file ≤ Z.of_nat 1)%Z)
    by (vm_compute; discriminate).
  split; [exact H|]. exact (getChunk_out_of_range one_byte_file 1 H).
Defined.

End partition.

(** ** From the client's chunks to the assembled file *)

Section end_to_end.
Import FileService Routes Router Transfer.
Local Open Scope list_scope.
Variable peekZip : PeekZip.

Lemma Uploader_totalChunks_pos (f : Uploader.File) :
  Uploader.bytes f ≠ [] → (0 < Uploader.totalChunks f)%Z.
Proof.
  intros Hne. pose proof (totalChunks_bounds f) as Hn.
  assert (0 < Uploader.size f)%Z.
  { unfold Uploader.size. destruct (Uploader.bytes f); [done|simpl; lia]. }
  unfold Uploader.CHUNK_SIZE in *. lia.
Qed.

Lemma pwrite_app (f : file) pos l1 l2 :
  pwrite f pos (l1 ++ l2) =
    pwrite (pwrite f pos l1) (pos + N.of_nat (length l1)) l2.
Proof.
  revert f pos. induction l1 as [|b l1 IH]; intros f pos; simpl.
  - f_equal. lia.
  - rewrite IH. f_equal. lia.
Qed.

Lemma fileOfBytes_app l1 l2 :
  fileOfBytes (l1 ++ l2) = pwrite (fileOfBytes l1) (N.of_nat (length l1)) l2.
Proof. unfold fileOfBytes. rewrite pwrite_app. f_equal. Qed.

Lemma fileOfBytes_lookup l p : fileOfBytes l !! p = l !! N.to_nat p.
Proof.
  unfold fileOfBytes. rewrite pwrite_lookup. unfold in_range.
  case_decide as Hp.
  - f_equal. lia.
  - rewrite lookup_empty. symmetry. apply lookup_ge_None. lia.
Qed.

Lemma acceptAll_spec id cs (w : World) :
  id ≠ "" → Forall (λ c, c.2 ≠ []) cs →
  acceptAll id cs w =
    {| uploads := uploads w;
       chunks := foldl (λ m c, <[(id, c.1) := Status.COMPLETED]> m) (chunks w) cs;
       files := foldl (chunkWrite id) (files w) cs;
       calls := calls w |}.
Proof.
  intros Hid. revert w. unfold acceptAll.
  induction cs as [|c cs IH]; intros w Hcs; simpl.
  - by destruct w.
  - apply Forall_cons in Hcs as [Hc Hcs].
    rewrite (chunk_ok _ w id c.1 c.2); simpl.
    + rewrite IH by done. simpl. by destruct c.
    + by rewrite decide_False.
    + done.
    + by destruct (c.2).
Qed.

Lemma countCompleted_insert (id : string) (m : gmap (string * N) Status.t) (i : N) :
  m !! (id, i) = None →
  countCompleted id (<[(id, i) := Status.COMPLETED]> m) = S (countCompleted id m).
Proof.
  intros Hm. unfold countCompleted.
  rewrite map_filter_insert_True by done.
  apply map_size_insert_None, map_lookup_filter_None. by left.
Qed.

Lemma countCompleted_foldl (id : string) (cs : list (N * list Byte.byte))
    (m : gmap (string * N) Status.t) :
  NoDup cs.*1 → (∀ c, c ∈ cs → m !! (id, c.1) = None) →
  countCompleted id
    (foldl (λ m c, <[(id, c.1) := Status.COMPLETED]> m) m cs) =
    (countCompleted id m + length cs)%nat.
Proof.
  revert m. induction cs as [|c cs IH]; intros m Hnd Hm; simpl; [lia|].
  apply NoDup_cons in Hnd as [Hc Hnd].
  rewrite IH.
  - rewrite countCompleted_insert by (apply Hm; by left). lia.
  - done.
  - intros c' Hc'. rewrite lookup_insert_ne; [apply Hm; by right|].
    intros [= Heq]. apply Hc. rewrite Heq. by apply list_elem_of_fmap_2.
Qed.

Lemma countCompleted_none (id : string) (m : gmap (string * N) Status.t) :
  (∀ i, m !! (id, i) = None) → countCompleted id m = 0%nat.
Proof.
  intros Hm. unfold countCompleted. apply map_size_empty_iff, map_eq.
  intros [k i]. rewrite lookup_empty. apply map_lookup_filter_None.
  right. intros s Hs [Hk _]. simpl in Hk. subst k. by rewrite Hm in Hs.
Qed.

Lemma write_in_order f id (d : disk) k :
  d !! getFilePath id = None →
  (Z.of_nat k ≤ Uploader.totalChunks f)%Z →
  foldl (chunkWrite id) d (sent f <$> seq 0 k) =
    match k with
    | O => d
    | S _ => <[getFilePath id := fileOfBytes (upto f k)]> d
    end.
Proof.
  intros Hd. induction k as [|k IH]; intros Hk; [done|].
  rewrite seq_S, fmap_app, foldl_app, IH by lia. simpl.
  rewrite chunkWrite_insert. simpl.
  destruct (getChunk_inside f k) as (_ & Hup & Hlen & _ & _); [lia|].
  assert (Hold : default ∅ ((match k with
                             | O => d
                             | S _ => <[getFilePath id := fileOfBytes (upto f k)]> d
                             end) !! getFilePath id) = fileOfBytes (upto f k)).
  { destruct k; [|by rewrite lookup_insert_eq].
    rewrite Hd. unfold upto. simpl.
    by rewrite Z.min_l by apply size_nonneg. }
  rewrite Hold, Hup, fileOfBytes_app.
  replace (N.of_nat (length (upto f k)))
    with (N.of_nat k * CHUNK_SIZE)%N
    by (rewrite Hlen; unfold CHUNK_SIZE, Uploader.CHUNK_SIZE; lia).
  destruct k; [done|]. by rewrite insert_insert_eq.
Qed.

Lemma sent_in_any_order f id (d : disk) order :
  order ≡ₚ seq 0 (Z.to_nat (Uploader.totalChunks f)) →
  foldl (chunkWrite id) d (sent f <$> order) =
    foldl (chunkWrite id) d
      (sent f <$> seq 0 (Z.to_nat (Uploader.totalChunks f))).
Proof.
  intros Hperm. symmetry. apply foldl_chunkWrite_perm.
  - rewrite <- list_fmap_compose. apply NoDup_fmap_2_strong; [|apply NoDup_seq].
    intros i j _ _ Heq. simpl in Heq. lia.
  - apply Forall_fmap, Forall_forall. intros i Hi%elem_of_seq. simpl.
    destruct (getChunk_inside f i) as (_ & _ & _ & _ & ?); [lia|].
    unfold CHUNK_SIZE, Uploader.CHUNK_SIZE in *. lia.
  - by rewrite Hperm.
Qed.

(** X19. A session without chunk records and without scratch file, for a
    file that is not empty: after the server has accepted the chunks
    the client slices, each once and in whatever order, the scratch
    file holds exactly the bytes of the file and the session counts
    totalChunks completed chunks; the Finalize that follows completes
    the session, answers with the entries the archive check lists and
    leaves, at the final path, a file that reads byte for byte as the
    client's file. *)
Theorem upload_assembles_the_file (f : Uploader.File) id (w : World) u
    (order : list nat) names :
  Uploader.bytes f ≠ [] → id ≠ "" →
  uploads w !! id = Some u → status u = Status.UPLOADING →
  totalChunks u = Uploader.totalChunks f →
  (∀ i, chunks w !! (id, i) = None) →
  files w !! getFilePath id = None →
  order ≡ₚ seq 0 (Z.to_nat (Uploader.totalChunks f)) →
  peekZip (fileOfBytes (Uploader.bytes f)) = inr names →
  let w1 := serveAll peekZip (chunkRequests f id order) w in
  let '(w2, reply) := serve peekZip (PostFinalize id) w1 in
  files w1 !! getFilePath id = Some (fileOfBytes (Uploader.bytes f))
  ∧ Z.of_nat (countCompleted id (chunks w1)) = totalChunks u
  ∧ reply = respond 200 (JCompleted names "dummy_hash")
  ∧ uploads w2 !! id = Some (set_completed "dummy_hash" u)
  ∧ files w2 !! getFilePath id = None
  ∧ files w2 !! finalPath id (filename u) =
      Some (fileOfBytes (Uploader.bytes f))
  ∧ ∀ p, fileOfBytes (Uploader.bytes f) !! p = Uploader.bytes f !! N.to_nat p.
Proof.
  intros Hne Hid Hm Hs Htc Hrec Hfile Hperm Hzip w1.
  pose proof (Uploader_totalChunks_pos f Hne) as Hpos.
  assert (Hw1 : w1 = acceptAll id (sent f <$> order) w).
  { unfold w1, serveAll, chunkRequests, acceptAll.
    assert (Hreq : (λ i, PostChunk (Uploader.chunkRequest
                           (Uploader.setUploadId id (Uploader.new f)) i))
                     <$> order
                   = (λ i, PostChunk {| q_uploadId := Some id;
                                        q_chunkIndex := Some (N.of_nat i);
                                        b_data := Some (Uploader.getChunk f i) |})
                     <$> order).
    { apply Forall_fmap_ext_1, Forall_forall. intros i Hi.
      rewrite Hperm in Hi. apply elem_of_seq in Hi.
      destruct (getChunk_inside f i) as (_ & _ & _ & Hpos' & _); [lia|].
      unfold Uploader.chunkRequest. cbn [Uploader.file Uploader.setUploadId
        Uploader.new Uploader.uploadId].
      destruct (Uploader.getChunk f i); [simpl in Hpos'; lia|done]. }
    rewrite Hreq, !foldl_fmap. done. }
  rewrite acceptAll_spec in Hw1; [|done|].
  2:{ apply Forall_fmap, Forall_forall. intros i Hi. simpl.
      rewrite Hperm in Hi. apply elem_of_seq in Hi.
      destruct (getChunk_inside f i) as (_ & _ & _ & Hpos' & _); [lia|].
      intros Heq. rewrite Heq in Hpos'. simpl in Hpos'. lia. }
  assert (Hfiles : files w1 =
            <[getFilePath id := fileOfBytes (Uploader.bytes f)]> (files w)).
  { rewrite Hw1. simpl. rewrite sent_in_any_order by done.
    rewrite write_in_order by (done || lia).
    destruct (Z.to_nat (Uploader.totalChunks f)) as [|n] eqn:Hn; [lia|].
    by rewrite <- Hn, upto_all. }
  assert (Hcount : countCompleted id (chunks w1) = length order).
  { rewrite Hw1. simpl. rewrite countCompleted_foldl.
    - rewrite countCompleted_none by done. by rewrite length_fmap.
    - rewrite <- list_fmap_compose. apply NoDup_fmap_2_strong.
      + intros i j _ _ Heq. simpl in Heq. lia.
      + rewrite Hperm. apply NoDup_seq.
    - intros c _. apply Hrec. }
  assert (Hlen : length order = Z.to_nat (Uploader.totalChunks f))
    by (by rewrite Hperm, length_seq).
  assert (Hup1 : uploads w1 = uploads w) by (by rewrite Hw1).
  simpl.
  rewrite (finalize_done peekZip id w1 u (fileOfBytes (Uploader.bytes f)) names).
  - cbn [uploads files]. rewrite Hfiles, !lookup_insert_eq.
    split; [done|]. split; [lia|]. split; [done|]. split; [done|].
    split; [|split; [done|apply fileOfBytes_lookup]].
    rewrite lookup_insert_ne by apply final_is_not_scratch.
    by rewrite lookup_delete_eq.
  - by rewrite Hup1.
  - done.
  - lia.
  - by rewrite Hfiles, lookup_insert_eq.
  - done.
Qed.

Lemma foldl_chunkWrite_exists id (d : disk) cs :
  cs ≠ [] → is_Some (foldl (chunkWrite id) d cs !! getFilePath id).
Proof.
  destruct cs as [|c cs _] using rev_ind; [done|]. intros _.
  rewrite foldl_snoc, chunkWrite_insert, lookup_insert_eq. eauto.
Qed.

(** X20. Finalize compares the number of COMPLETED records with totalChunks
    and nothing else: for a session without records, once as many
    chunks as totalChunks have been accepted under distinct indices,
    whatever these indices are, the completeness check passes, the
    scratch file is assembled as it stands, and the session completes
    when the archive check accepts. *)
Theorem finalize_counts_records_not_indices id (w : World) u
    (cs : list (N * list Byte.byte)) names :
  id ≠ "" → uploads w !! id = Some u → status u = Status.UPLOADING →
  (∀ i, chunks w !! (id, i) = None) →
  NoDup cs.*1 → Forall (λ c, c.2 ≠ []) cs → cs ≠ [] →
  Z.of_nat (length cs) = totalChunks u →
  let w1 := acceptAll id cs w in
  ∃ scratch,
    files w1 !! getFilePath id = Some scratch
    ∧ (peekZip scratch = inr names →
       (finalize peekZip id w1).2 = respond 200 (JCompleted names "dummy_hash")).
Proof.
  intros Hid Hm Hs Hrec Hnd Hdata Hne Hlen w1.
  assert (Hw1 : w1 = acceptAll id cs w) by done.
  rewrite acceptAll_spec in Hw1 by done.
  destruct (foldl_chunkWrite_exists id (files w) cs Hne) as [scratch Hsc].
  exists scratch. split; [by rewrite Hw1|]. intros Hzip.
  rewrite (finalize_done peekZip id w1 u scratch names); [done|..].
  - by rewrite Hw1.
  - done.
  - rewrite Hw1. simpl. rewrite countCompleted_foldl; [|done|].
    + rewrite countCompleted_none by done. lia.
    + intros c _. apply Hrec.
  - by rewrite Hw1.
  - done.
Qed.

End end_to_end.

Section end_to_end_witnesses.
Import FileService Routes Router Transfer MoreSamples.

Lemma upload_assembles_the_file_witness :
  let peek : PeekZip := λ _, inr ["a.txt"] in
  let w1 := serveAll peek (chunkRequests one_byte_file "s1" [0%nat]) world_fresh in
  (Uploader.bytes one_byte_file ≠ [] ∧ "s1" ≠ "")
  ∧ (serve peek (PostFinalize "s1") w1).2 =
      respond 200 (JCompleted ["a.txt"] "dummy_hash")
  ∧ files (serve peek (PostFinalize "s1") w1).1 !! finalPath "s1" "a.zip" =
      Some (fileOfBytes (Uploader.bytes one_byte_file)).
Proof.
  intros peek w1. split; [split; discriminate|].
  pose proof (upload_assembles_the_file peek one_byte_file "s1" world_fresh
                session_full [0%nat] ["a.txt"]) as H.
  cbv zeta in H. fold w1 in H.
  destruct (serve peek (PostFinalize "s1") w1) as [w2 reply].
  destruct H as (_ & _ & Hr & _ & _ & Hf & _);
    [discriminate|discriminate|reflexivity|reflexivity|reflexivity|
     intros i; reflexivity|reflexivity|reflexivity|reflexivity|].
  split; [exact Hr|exact Hf].
Defined.

Lemma finalize_counts_records_not_indices_witness :
  let peek : PeekZip := λ _, inr ["a.txt"] in
  let cs := [(0%N, [Byte.x50]); (7%N, [Byte.x4b])] in
  ("s1" ≠ "" ∧ NoDup cs.*1 ∧ Z.of_nat (length cs) = totalChunks session_open)
  ∧ (finalize peek "s1" (acceptAll "s1" cs world_fresh2)).2 =
      respond 200 (JCompleted ["a.txt"] "dummy_hash").
Proof.
  intros peek cs.
  assert (Hnd : NoDup cs.*1) by (apply (bool_decide_unpack _); vm_compute; exact I).
  split; [split; [discriminate|split; [exact Hnd|reflexivity]]|].
  destruct (finalize_counts_records_not_indices peek "s1" world_fresh2
              session_open cs ["a.txt"]) as (scratch & _ & H);
    [discriminate|reflexivity|reflexivity|intros i; reflexivity|exact Hnd|
     repeat constructor; discriminate|discriminate|reflexivity|].
  apply H. reflexivity.
Defined.

End end_to_end_witnesses.

(** ** The workers terminate *)

Section termination.
Import Uploader Schedule.
Local Open Scope list_scope.
Variable net : Network.

Lemma step_final wk u : final wk → step net wk u = (wk, u).
Proof. by destruct wk. Qed.

(** A resumption of a worker that is not final makes the potential
    drop. *)
Lemma step_potential wk u :
  ¬ final wk →
  (23 * length (queue (step net wk u).2) + weight (step net wk u).1
   < 23 * length (queue u) + weight wk)%nat.
Proof.
  intros Hwk. destruct wk as [|i r d|i r d| |]; simpl in *; try done.
  - destruct (aborted u); [simpl; lia|].
    destruct (queue u) as [|i rest] eqn:Hq; [simpl; rewrite Hq; simpl; lia|].
    simpl. destruct (chunks u !! i); simpl; lia.
  - destruct (net_chunk net i r); simpl; [lia|].
    case_decide; simpl; lia.
  - lia.
Qed.

Lemma sum_weight_insert ws k wk wk' :
  ws !! k = Some wk →
  (sum_list_with weight (<[k := wk']> ws) + weight wk
   = sum_list_with weight ws + weight wk')%nat.
Proof.
  intros Hk. pose proof (lookup_lt_Some _ _ _ Hk) as Hlt.
  rewrite <- (take_drop_middle ws k wk Hk) at 2.
  rewrite <- (take_drop_middle ws k wk Hk) at 1.
  rewrite insert_app_r_alt by (rewrite length_take; lia).
  rewrite length_take, Nat.min_l, Nat.sub_diag by lia. simpl.
  rewrite !sum_list_with_app. simpl. lia.
Qed.

Lemma run_potential_le sched ws u :
  (potential (run net sched ws u).1 (run net sched ws u).2 ≤ potential ws u)%nat.
Proof.
  revert ws u. induction sched as [|k rest IH]; intros ws u; simpl; [done|].
  destruct (ws !! k) as [wk|] eqn:Hk; [|apply IH].
  destruct (step net wk u) as [wk' u'] eqn:Hstep.
  etrans; [apply IH|]. unfold potential.
  pose proof (sum_weight_insert ws k wk wk' Hk).
  destruct (decide (final wk)) as [Hf|Hf].
  - rewrite step_final in Hstep by done. injection Hstep as <- <-. lia.
  - pose proof (step_potential wk u Hf) as Hlt. rewrite Hstep in Hlt.
    simpl in Hlt. lia.
Qed.

Lemma run_potential_lt sched ws u k wk :
  k ∈ sched → ws !! k = Some wk → ¬ final wk →
  (potential (run net sched ws u).1 (run net sched ws u).2 < potential ws u)%nat.
Proof.
  revert ws u. induction sched as [|j rest IH]; intros ws u Hin Hk Hwk.
  { by apply elem_of_nil in Hin. }
  simpl. destruct (decide (j = k)) as [->|Hne].
  - rewrite Hk. destruct (step net wk u) as [wk' u'] eqn:Hstep.
    eapply Nat.le_lt_trans; [apply run_potential_le|]. unfold potential.
    pose proof (sum_weight_insert ws k wk wk' Hk).
    pose proof (step_potential wk u Hwk) as Hlt. rewrite Hstep in Hlt.
    simpl in Hlt. lia.
  - apply elem_of_cons in Hin as [?|Hin]; [congruence|].
    destruct (ws !! j) as [wj|] eqn:Hj; [|by eapply IH].
    destruct (step net wj u) as [wj' u'] eqn:Hstep.
    eapply Nat.lt_le_trans.
    + eapply (IH _ _ Hin); [|done]. by rewrite list_lookup_insert_ne.
    + unfold potential. pose proof (sum_weight_insert ws j wj wj' Hj).
      destruct (decide (final wj)) as [Hf|Hf].
      * rewrite step_final in Hstep by done. injection Hstep as <- <-. lia.
      * pose proof (step_potential wj u Hf) as Hlt. rewrite Hstep in Hlt.
        simpl in Hlt. lia.
Qed.

Lemma run_all_final sched ws u :
  Forall final ws → run net sched ws u = (ws, u).
Proof.
  revert ws u. induction sched as [|k rest IH]; intros ws u Hws; simpl; [done|].
  destruct (ws !! k) as [wk|] eqn:Hk; [|by apply IH].
  rewrite step_final by (eapply Forall_lookup_1; eauto).
  rewrite list_insert_id by done. by apply IH.
Qed.

Lemma run_length sched ws u : length (run net sched ws u).1 = length ws.
Proof.
  revert ws u. induction sched as [|k rest IH]; intros ws u; simpl; [done|].
  destruct (ws !! k) as [wk|]; [|apply IH].
  destruct (step net wk u) as [wk' u']. by rewrite IH, length_insert.
Qed.

(** Resumed in turn often enough, every worker becomes final. *)
Lemma round_robin_final rounds ws u :
  length ws = CONCURRENCY → (potential ws u ≤ rounds)%nat →
  Forall final (run net (round_robin rounds) ws u).1.
Proof.
  revert ws u. induction rounds as [|n IH]; intros ws u Hlen Hpot.
  - simpl. apply Forall_forall. intros wk Hwk.
    destruct (decide (final wk)) as [|Hnf]; [done|]. exfalso.
    unfold potential in Hpot.
    apply list_elem_of_lookup in Hwk as [k Hk].
    pose proof (sum_weight_insert ws k wk Exited Hk) as Hs. simpl in Hs.
    destruct wk; simpl in *; try done; lia.
  - destruct (decide (Forall final ws)) as [Hall|Hsome].
    { by rewrite run_all_final. }
    change (round_robin (S n)) with (seq 0 CONCURRENCY ++ round_robin n).
    rewrite run_app. apply IH; [by rewrite run_length|].
    apply not_Forall_Exists in Hsome; [|apply _].
    apply Exists_exists in Hsome as (wk & Hwk & Hnf).
    apply list_elem_of_lookup in Hwk as [k Hk].
    pose proof (lookup_lt_Some _ _ _ Hk) as Hlt.
    pose proof (run_potential_lt (seq 0 CONCURRENCY) ws u k wk) as Hdrop.
    cut (potential (run net (seq 0 CONCURRENCY) ws u).1
           (run net (seq 0 CONCURRENCY) ws u).2 < potential ws u)%nat; [lia|].
    apply Hdrop; [|done..]. apply elem_of_seq. lia.
Qed.

End termination.

(** ** How a transfer ends *)

Section outcomes.
Import Uploader Schedule.
Local Open Scope list_scope.
Variable net : Network.

Lemma step_aborted wk u :
  aborted u = true → aborted (step net wk u).2 = true.
Proof.
  intros Ha. destruct wk as [|i r d|i r d| |]; simpl; try done.
  - by rewrite Ha.
  - destruct (net_chunk net i r); simpl; [done|]. by case_decide.
Qed.

Lemma elem_of_insert_inv {A} (l : list A) k x y :
  x ∈ <[k := y]> l → x = y ∨ x ∈ l.
Proof.
  intros [j Hj]%list_elem_of_lookup.
  destruct (decide (k = j)) as [->|Hne].
  - destruct (decide (j < length l)%nat).
    + rewrite list_lookup_insert_eq in Hj by done. left. congruence.
    + rewrite list_insert_ge in Hj by lia. right. by eapply list_elem_of_lookup_2.
  - rewrite list_lookup_insert_ne in Hj by done.
    right. by eapply list_elem_of_lookup_2.
Qed.

Lemma step_covered ws k wk u :
  ws !! k = Some wk → covered ws u →
  covered (<[k := (step net wk u).1]> ws) (step net wk u).2.
Proof.
  intros Hk Hcov Hab'.
  assert (Hab : aborted u = false).
  { destruct (aborted u) eqn:Ha; [|done].
    by rewrite step_aborted in Hab'. }
  destruct (Hcov Hab) as [Hc Hd]. clear Hcov.
  destruct (inflight_insert ws k wk (step net wk u).1 Hk)
    as (others & Hin & Hin').
  setoid_rewrite Hin in Hc. setoid_rewrite Hin'. clear Hin Hin'.
  assert (Hex : Exited ∈ <[k := (step net wk u).1]> ws →
                (step net wk u).1 = Exited ∨ Exited ∈ ws).
  { intros [?|?]%elem_of_insert_inv; auto. }
  destruct wk as [|i r d|i r d| |]; simpl in *.
  - rewrite Hab in *.
    destruct (queue u) as [|i rest] eqn:Hq; simpl in *.
    { rewrite Hq. split; [done|]. auto. }
    destruct (chunks u !! i) as [c|] eqn:Hci; simpl in *.
    + split.
      * intros j cj. rewrite list_lookup_alter. case_decide as Hij.
        -- subst j. intros _. right. apply elem_of_app. right. by left.
        -- intros Hj. destruct (Hc j cj Hj) as [?|Hjq]; [by left|right].
           apply elem_of_cons in Hjq as [?|Hjq]; [congruence|].
           rewrite <- Permutation_middle. by right.
      * intros He. destruct (Hex He) as [?|He']; [done|].
        by specialize (Hd He').
    + split.
      * intros j cj Hj. destruct (Hc j cj Hj) as [?|Hjq]; [by left|right].
        apply elem_of_cons in Hjq as [->|Hjq]; [congruence|done].
      * intros He. destruct (Hex He) as [?|He']; [done|].
        by specialize (Hd He').
  - destruct (net_chunk net i r); simpl in *.
    + split.
      * intros j cj. rewrite list_lookup_alter. case_decide as Hij.
        -- subst j. destruct (chunks u !! i); [|done]. simpl.
           intros [= <-]. by left.
        -- intros Hj. destruct (Hc j cj Hj) as [?|Hjq]; [by left|right].
           rewrite <- Permutation_middle in Hjq.
           apply elem_of_cons in Hjq as [?|Hjq]; [congruence|done].
      * intros He. destruct (Hex He) as [?|He']; [done|]. auto.
    + case_decide; simpl in *; [|done].
      split; [done|]. intros He. destruct (Hex He) as [?|He']; [done|]. auto.
  - split; [done|]. intros He. destruct (Hex He) as [?|He']; [done|]. auto.
  - split; [done|]. intros _. apply Hd. by eapply list_elem_of_lookup_2.
  - split; [done|]. intros He. destruct (Hex He) as [?|He']; [done|]. auto.
Qed.

Lemma run_covered sched ws u :
  covered ws u → covered (run net sched ws u).1 (run net sched ws u).2.
Proof.
  revert ws u. induction sched as [|k rest IH]; intros ws u Hcov; simpl; [done|].
  destruct (ws !! k) as [wk|] eqn:Hk; [|by apply IH].
  pose proof (step_covered ws k wk u Hk Hcov) as Hcov'.
  destruct (step net wk u) as [wk' u']. by apply IH.
Qed.

Lemma handshake_keeps u u1 :
  handshake net u = Some u1 →
  length (chunks u1) = length (chunks u) ∧ file u1 = file u
  ∧ aborted u1 = aborted u.
Proof.
  unfold handshake. destruct (net_init net) as [[id existing]|]; [|done].
  intros [= <-]. simpl.
  set (mark := λ (u : Uploader) (i : nat),
         match chunks u !! i with
         | Some _ => addLoaded (getChunkSize (file u) i)
                       (setChunk i ChunkState.SUCCESS u)
         | None => u
         end).
  assert (Hmark : ∀ l v, length (chunks (foldl mark v l)) = length (chunks v)
                         ∧ file (foldl mark v l) = file v
                         ∧ aborted (foldl mark v l) = aborted v).
  { induction l as [|i l IH]; intros v; simpl; [done|].
    destruct (IH (mark v i)) as (-> & -> & ->). unfold mark.
    destruct (chunks v !! i); simpl; [|done]. by rewrite length_alter. }
  destruct existing as [l|]; [|done]. apply (Hmark l (setUploadId id u)).
Qed.

(** The state [start] hands to the workers. *)
Lemma start_state f u1 :
  handshake net (new f) = Some u1 →
  let u2 := setQueue (index <$> filter (λ c, status c ≠ ChunkState.SUCCESS)
                        (chunks u1)) u1 in
  steady u2 ∧ indexed u1 ∧ covered (replicate CONCURRENCY AtLoop) u2
  ∧ (length (queue u2) ≤ Z.to_nat (totalChunks f))%nat
  ∧ finalizeCalls u2 = 0%nat.
Proof.
  intros Hh u2.
  destruct (handshake_steady net (new f) u1 (new_indexed f) eq_refl Hh)
    as [Hst Hfin].
  destruct (handshake_keeps _ _ Hh) as (Hlen & _ & Hab).
  assert (Hidx : indexed u1).
  { (* the handshake only rewrites the status of a chunk *)
    revert Hh. unfold handshake.
    destruct (net_init net) as [[id existing]|]; [|done]. intros [= <-].
    set (mark := λ (u : Uploader) (i : nat),
           match chunks u !! i with
           | Some _ => addLoaded (getChunkSize (file u) i)
                         (setChunk i ChunkState.SUCCESS u)
           | None => u
           end).
    assert (Hmark : ∀ l v, indexed v → indexed (foldl mark v l)).
    { induction l as [|i l IH]; intros v Hv; simpl; [done|]. apply IH.
      unfold mark. destruct (chunks v !! i) as [ci|] eqn:Hi; [|done].
      intros j c. simpl. rewrite list_lookup_alter.
      case_decide as Hij; [|apply Hv]. subst j. rewrite Hi. simpl.
      intros [= <-]. simpl. by apply Hv. }
    destruct existing as [l|]; simpl; [|apply new_indexed].
    apply Hmark, new_indexed. }
  split; [done|]. split; [done|]. split; [|split].
  - intros _. split.
    + intros i c Hc. destruct (decide (status c = ChunkState.SUCCESS)); [by left|].
      right. simpl. rewrite app_nil_r. apply list_elem_of_fmap.
      exists c. split; [by rewrite (Hidx _ _ Hc)|].
      apply list_elem_of_filter. split; [done|]. by eapply list_elem_of_lookup_2.
    + intros He. apply elem_of_replicate in He as [? _]. done.
  - simpl. rewrite length_fmap. etrans; [apply length_filter|].
    rewrite Hlen. simpl. by rewrite length_fmap, length_seq.
  - simpl. by rewrite Hfin.
Qed.

Lemma final_not_threw ws :
  Forall final ws → Forall (λ wk, wk ≠ Threw) ws → all_exited ws = true.
Proof.
  induction 1 as [|wk ws Hwk _ IH]; intros Hnt; simpl; [done|].
  apply Forall_cons in Hnt as [Hne Hnt]. rewrite IH by done.
  by destruct wk.
Qed.

Lemma transfer_ends (f : File) (rounds : nat) :
  (23 * Z.to_nat (totalChunks f) + 2 ≤ rounds)%nat →
  is_Some (start net (round_robin rounds) (new f)).
Proof.
  intros Hrounds. unfold start.
  destruct (handshake net (new f)) as [u1|] eqn:Hh; [|eauto].
  destruct (start_state f u1 Hh) as (Hst & _ & _ & Hq & _).
  set (u2 := setQueue _ u1) in *. unfold processQueue.
  change (seq 0 CONCURRENCY ++ round_robin rounds) with (round_robin (S rounds)).
  pose proof (round_robin_final net (S rounds) (replicate CONCURRENCY AtLoop) u2
                eq_refl) as Hfinal.
  destruct (run_steady net (round_robin (S rounds))
              (replicate CONCURRENCY AtLoop) u2 Hst) as (_ & Hnt & _).
  { by repeat constructor. }
  destruct (run net (round_robin (S rounds)) (replicate CONCURRENCY AtLoop) u2)
    as [ws u3]. simpl in *.
  rewrite (some_threw_false ws Hnt).
  rewrite final_not_threw; [|apply Hfinal; unfold potential; simpl; lia|done].
  destruct (negb (aborted u3) && every_success u3); [|eauto].
  destruct (net_finalize net); eauto.
Qed.

(** X21. Under the round-robin schedule a transfer always comes to an end,
    whatever the network does: [23 * totalChunks + 2] rounds are
    enough for every worker to exit. *)
Theorem transfer_terminates (f : File) (rounds : nat) :
  (23 * Z.to_nat (totalChunks f) + 2 ≤ rounds)%nat →
  is_Some (start net (round_robin rounds) (new f)).
Proof. apply transfer_ends. Qed.

Lemma transfer_not_aborted sched (f : File) u' :
  start net sched (new f) = Some u' →
  is_Some (net_init net) → aborted u' = false →
  Forall (λ c, status c = ChunkState.SUCCESS) (chunks u')
  ∧ finalizeCalls u' = 1%nat
  ∧ (state <$> last (reports u')) =
      Some (if net_finalize net then TransferState.COMPLETED
            else TransferState.ERROR).
Proof.
  unfold start. intros Hstart [reply Hnet] Hab.
  destruct (handshake net (new f)) as [u1|] eqn:Hh.
  2:{ unfold handshake in Hh. rewrite Hnet in Hh. by destruct reply. }
  destruct (start_state f u1 Hh) as (Hst & _ & Hcov & _ & Hfin).
  set (u2 := setQueue _ u1) in *. unfold processQueue in Hstart.
  set (sch := seq 0 CONCURRENCY ++ sched) in *.
  destruct (run_steady net sch (replicate CONCURRENCY AtLoop) u2 Hst)
    as (_ & Hnt & Hfin').
  { by repeat constructor. }
  pose proof (run_covered sch (replicate CONCURRENCY AtLoop) u2 Hcov) as Hcov'.
  pose proof (run_length net sch (replicate CONCURRENCY AtLoop) u2) as Hlen.
  destruct (run net sch (replicate CONCURRENCY AtLoop) u2) as [ws u3].
  simpl in *. rewrite (some_threw_false ws Hnt) in Hstart.
  destruct (all_exited ws) eqn:Hexit; [|done].
  assert (Hall : Forall (λ wk, wk = Exited) ws).
  { apply Forall_forall. intros wk Hwk. unfold all_exited in Hexit.
    rewrite forallb_forall in Hexit. apply list_elem_of_In in Hwk.
    specialize (Hexit wk Hwk). by destruct wk. }
  assert (Hab3 : aborted u3 = false).
  { destruct (aborted u3) eqn:Ha; [|done]. simpl in Hstart.
    injection Hstart as <-. congruence. }
  destruct (Hcov' Hab3) as [Hc Hd].
  assert (Hq : queue u3 = []).
  { apply Hd. destruct ws as [|wk ws]; [done|].
    apply Forall_cons in Hall as [-> _]. by left. }
  assert (Hfl : inflight ws = []).
  { clear -Hall. induction Hall as [|wk ws -> _ IH]; [done|]. done. }
  assert (Hsucc : Forall (λ c, status c = ChunkState.SUCCESS) (chunks u3)).
  { apply Forall_forall. intros c [i Hi]%list_elem_of_lookup.
    destruct (Hc i c Hi) as [?|Hin]; [done|].
    rewrite Hq, Hfl in Hin. by apply elem_of_nil in Hin. }
  assert (Hev : every_success u3 = true).
  { unfold every_success. apply forallb_forall. intros c Hin.
    apply bool_decide_eq_true. rewrite Forall_forall in Hsucc.
    by apply Hsucc, list_elem_of_In. }
  rewrite Hab3, Hev in Hstart. simpl in Hstart.
  destruct (net_finalize net); injection Hstart as <-; simpl;
    (split; [done|]); (split; [congruence|]); by rewrite last_snoc.
Qed.

(** X22. A transfer that went past the handshake and was not aborted has
    every chunk in SUCCESS, has made exactly one finalize request, and
    its last report is COMPLETED when that request succeeded and ERROR
    when it failed. *)
Theorem unaborted_transfer_finalizes sched (f : File) u' :
  start net sched (new f) = Some u' →
  is_Some (net_init net) → aborted u' = false →
  Forall (λ c, status c = ChunkState.SUCCESS) (chunks u')
  ∧ finalizeCalls u' = 1%nat
  ∧ (state <$> last (reports u')) =
      Some (if net_finalize net then TransferState.COMPLETED
            else TransferState.ERROR).
Proof. apply transfer_not_aborted. Qed.

End outcomes.

(** ** Transient failures are absorbed *)

Section forgiving.
Import Uploader Schedule.
Local Open Scope list_scope.
Variable net : Network.
Hypothesis Hnet : forgiving net.

Lemma step_hopeful wk u :
  hopeful net wk → aborted u = false →
  hopeful net (step net wk u).1 ∧ aborted (step net wk u).2 = false.
Proof using Hnet.
  intros Hwk Hab. destruct wk as [|i r d|i r d| |]; simpl in *; try done.
  - rewrite Hab. destruct (queue u) as [|i rest]; [done|]. simpl.
    destruct (chunks u !! i); simpl; [|done]. split; [apply Hnet|done].
  - destruct Hwk as (r' & Hr' & Hok).
    destruct (net_chunk net i r) eqn:Hr; simpl; [done|].
    assert (r' ≠ r) by congruence.
    rewrite decide_True by lia. simpl. split; [|done]. exists r'. split; [lia|done].
  - destruct Hwk as (r' & Hr' & Hok). split; [|done].
    exists r'. split; [lia|done].
Qed.

Lemma run_hopeful sched ws u :
  Forall (hopeful net) ws → aborted u = false →
  Forall (hopeful net) (run net sched ws u).1
  ∧ aborted (run net sched ws u).2 = false.
Proof using Hnet.
  revert ws u. induction sched as [|k rest IH]; intros ws u Hws Hab; simpl.
  - done.
  - destruct (ws !! k) as [wk|] eqn:Hk; [|by apply IH].
    destruct (step_hopeful wk u) as [Hwk' Hab']; [|done|].
    { eapply Forall_lookup_1; eauto. }
    destruct (step net wk u) as [wk' u']. apply IH; [|done].
    by apply Forall_insert.
Qed.

(** X23. On a network where every chunk gets through on one of its eleven
    attempts, where the handshake and the finalize request succeed,
    the transfer under the round-robin schedule ends with every chunk
    in SUCCESS, without abort, after exactly one finalize request, and
    its last report is COMPLETED. *)
Theorem forgiving_transfer_completes (f : File) (rounds : nat) :
  is_Some (net_init net) → net_finalize net = true →
  (23 * Z.to_nat (totalChunks f) + 2 ≤ rounds)%nat →
  ∃ u',
    start net (round_robin rounds) (new f) = Some u'
    ∧ aborted u' = false
    ∧ Forall (λ c, status c = ChunkState.SUCCESS) (chunks u')
    ∧ finalizeCalls u' = 1%nat
    ∧ (state <$> last (reports u')) = Some TransferState.COMPLETED.
Proof using Hnet.
  intros Hinit Hfin Hrounds.
  destruct (transfer_ends net f rounds Hrounds) as [u' Hstart].
  assert (Hab : aborted u' = false).
  { revert Hstart. unfold start.
    destruct (handshake net (new f)) as [u1|] eqn:Hh.
    2:{ unfold handshake in Hh. destruct Hinit as [reply Hr].
        rewrite Hr in Hh. by destruct reply. }
    destruct (handshake_keeps net _ _ Hh) as (_ & _ & Hab1).
    unfold processQueue.
    set (u2 := setQueue _ u1).
    destruct (run_hopeful (seq 0 CONCURRENCY ++ round_robin rounds)
                (replicate CONCURRENCY AtLoop) u2) as [_ Hab3].
    { by repeat constructor. }
    { simpl. by rewrite Hab1. }
    destruct (run net _ _ u2) as [ws u3]. simpl in Hab3.
    destruct (some_threw ws); [by intros [= <-]|].
    destruct (all_exited ws); [|done].
    rewrite Hab3. simpl.
    destruct (every_success u3); simpl.
    - rewrite Hfin. by intros [= <-].
    - by intros [= <-]. }
  exists u'. split; [done|]. split; [done|].
  destruct (transfer_not_aborted net (round_robin rounds) f u' Hstart Hinit Hab)
    as (? & ? & Hlast).
  rewrite Hfin in Hlast. done.
Qed.

End forgiving.

Section outcome_witnesses.
Import Uploader Schedule MoreSamples.

Lemma transfer_terminates_witness :
  (23 * Z.to_nat (totalChunks one_byte_file) + 2 ≤ 25)%nat
  ∧ is_Some (start failing_network (round_robin 25) (new one_byte_file)).
Proof.
  assert (H : (23 * Z.to_nat (totalChunks one_byte_file) + 2 ≤ 25)%nat)
    by (vm_compute; lia).
  split; [exact H|].
  exact (transfer_terminates failing_network one_byte_file 25 H).
Defined.

Lemma unaborted_transfer_finalizes_witness :
  ∃ u',
    (start flaky_network (round_robin 25) (new one_byte_file) = Some u'
     ∧ is_Some (net_init flaky_network) ∧ aborted u' = false)
    ∧ Forall (λ c, status c = ChunkState.SUCCESS) (chunks u')
    ∧ finalizeCalls u' = 1%nat
    ∧ (state <$> last (reports u')) = Some TransferState.COMPLETED.
Proof.
  destruct (start flaky_network (round_robin 25) (new one_byte_file))
    as [u'|] eqn:Hs; [|vm_compute in Hs; discriminate].
  assert (Hab : aborted u' = false).
  { vm_compute in Hs. injection Hs as <-. reflexivity. }
  exists u'. split; [split; [reflexivity|split; [by eexists|exact Hab]]|].
  exact (unaborted_transfer_finalizes flaky_network (round_robin 25)
           one_byte_file u' Hs (ex_intro _ _ eq_refl) Hab).
Defined.

Lemma forgiving_transfer_completes_witness :
  (forgiving flaky_network ∧ is_Some (net_init flaky_network)
   ∧ net_finalize flaky_network = true
   ∧ (23 * Z.to_nat (totalChunks one_byte_file) + 2 ≤ 25)%nat)
  ∧ ∃ u',
    start flaky_network (round_robin 25) (new one_byte_file) = Some u'
    ∧ aborted u' = false
    ∧ Forall (λ c, status c = ChunkState.SUCCESS) (chunks u')
    ∧ finalizeCalls u' = 1%nat
    ∧ (state <$> last (reports u')) = Some TransferState.COMPLETED.
Proof.
  assert (Hf : forgiving flaky_network).
  { intros i. exists 8%nat. split; [lia|reflexivity]. }
  assert (H : (23 * Z.to_nat (totalChunks one_byte_file) + 2 ≤ 25)%nat)
    by (vm_compute; lia).
  split; [split; [exact Hf|split; [by eexists|split; [reflexivity|exact H]]]|].
  exact (forgiving_transfer_completes flaky_network Hf one_byte_file 25
           (ex_intro _ _ eq_refl) eq_refl H).
Defined.

End outcome_witnesses.

(** ** Retries and requests in flight *)

Section in_flight.
Import Uploader Schedule.
Local Open Scope list_scope.
Variable net : Network.

Lemma step_backoff wk u : backoff wk → backoff (step net wk u).1.
Proof.
  destruct wk as [|i r d|i r d| |]; simpl; try done.
  - intros _. destruct (aborted u); [done|].
    destruct (queue u) as [|i rest]; [done|]. simpl.
    destruct (chunks u !! i); simpl; [|done]. split; [lia|done].
  - intros [Hr Hd]. destruct (net_chunk net i r); [done|].
    case_decide; simpl; [|done]. split; [lia|done].
  - intros [Hr ->]. split; [lia|].
    replace (Z.of_nat (10 - (r - 1))) with (Z.of_nat (10 - r) + 1)%Z by lia.
    rewrite Z.pow_add_r by lia. lia.
Qed.

Lemma run_backoff sched ws u :
  Forall backoff ws → Forall backoff (run net sched ws u).1.
Proof.
  revert ws u. induction sched as [|k rest IH]; intros ws u Hws; simpl; [done|].
  destruct (ws !! k) as [wk|] eqn:Hk; [|by apply IH].
  pose proof (step_backoff wk u) as Hb.
  destruct (step net wk u) as [wk' u']. apply IH, Forall_insert; [done|].
  apply Hb. eapply Forall_lookup_1; eauto.
Qed.

(** X24. Whatever the network, the queue and the schedule, at every point
    of [processQueue] a worker that is posting a chunk or waiting to
    retry has at most ten retries left, so a chunk is tried at most
    eleven times, and the wait before the attempt made with [r]
    retries left is 1000 * 2^(10 - r) milliseconds doubled once per
    retry used: one second before the first retry, 512 before the
    last. *)
Theorem retries_back_off_exponentially sched u :
  Forall backoff (processQueue net sched u).1.
Proof. apply run_backoff. by repeat constructor. Qed.

Lemma length_inflight_insert ws k wk wk' :
  ws !! k = Some wk →
  (length (inflight (<[k := wk']> ws)) + length (option_list (worker_chunk wk))
   = length (inflight ws) + length (option_list (worker_chunk wk')))%nat.
Proof.
  intros Hk. destruct (inflight_insert ws k wk wk' Hk) as (others & H1 & H2).
  rewrite H1, H2, !length_app. lia.
Qed.

Lemma step_active ws k wk u :
  ws !! k = Some wk → steady u → wk ≠ Threw →
  activeRequestCount u = Z.of_nat (length (inflight ws)) →
  activeRequestCount (step net wk u).2 =
    Z.of_nat (length (inflight (<[k := (step net wk u).1]> ws))).
Proof.
  intros Hk Hst Hwk Hact.
  pose proof (length_inflight_insert ws k wk (step net wk u).1 Hk) as Hlen.
  destruct wk as [|i r d|i r d| |]; simpl in *; try done.
  - destruct (aborted u); simpl in *; [lia|].
    destruct (queue u) as [|i rest] eqn:Hq; simpl in *; [lia|].
    destruct (chunks u !! i) eqn:Hi; simpl in *; [lia|].
    apply lookup_ge_None in Hi. destruct Hst as (Hin & _).
    assert (i < length (chunks u))%nat; [|lia].
    apply Hin. rewrite Hq. by left.
  - destruct (net_chunk net i r); simpl in *; [lia|].
    case_decide; simpl in *; lia.
  - lia.
  - lia.
Qed.

Lemma run_active sched ws u :
  steady u → Forall (λ wk, wk ≠ Threw) ws →
  activeRequestCount u = Z.of_nat (length (inflight ws)) →
  activeRequestCount (run net sched ws u).2 =
    Z.of_nat (length (inflight (run net sched ws u).1)).
Proof.
  revert ws u. induction sched as [|k rest IH]; intros ws u Hu Hws Hact; simpl.
  - done.
  - destruct (ws !! k) as [wk|] eqn:Hk; [|by apply IH].
    assert (Hwk : wk ≠ Threw).
    { rewrite Forall_forall in Hws. apply Hws.
      by eapply list_elem_of_lookup_2. }
    destruct (step_steady net wk u Hu Hwk) as (Hu' & Hwk' & _).
    pose proof (step_active ws k wk u Hk Hu Hwk Hact) as Hact'.
    destruct (step net wk u) as [wk' u']. simpl in *.
    apply IH; [done| |done]. by apply Forall_insert.
Qed.

Lemma length_inflight ws : (length (inflight ws) ≤ length ws)%nat.
Proof.
  induction ws as [|wk ws IH]; simpl; [done|].
  unfold inflight in *. simpl. destruct (worker_chunk wk); simpl; lia.
Qed.

(** X25. After the handshake, whatever the network and the schedule, at
    every point of [processQueue] the counter [activeRequestCount] is
    the number of workers that hold a chunk (posting it or waiting to
    retry), so it lies between 0 and CONCURRENCY = 3; once every
    worker has exited it is 0. *)
Theorem requests_in_flight_bounded (f : File) sched u1 :
  handshake net (new f) = Some u1 →
  let u2 := setQueue (index <$> filter (λ c, status c ≠ ChunkState.SUCCESS)
                        (chunks u1)) u1 in
  let ws := (processQueue net sched u2).1 in
  let u3 := (processQueue net sched u2).2 in
  activeRequestCount u3 = Z.of_nat (length (inflight ws))
  ∧ (0 ≤ activeRequestCount u3 ≤ Z.of_nat CONCURRENCY)%Z
  ∧ (all_exited ws = true → activeRequestCount u3 = 0%Z).
Proof.
  intros Hh u2 ws u3.
  destruct (handshake_steady net (new f) u1 (new_indexed f) eq_refl Hh)
    as [Hst _].
  assert (Hact : activeRequestCount u3 = Z.of_nat (length (inflight ws))).
  { apply run_active; [done|by repeat constructor|].
    simpl. unfold handshake in Hh.
    destruct (net_init net) as [[id existing]|]; [|done].
    injection Hh as <-. simpl.
    destruct existing as [l|]; [|done].
    set (mark := λ (u : Uploader) (i : nat), _).
    assert (Hm : ∀ l v, activeRequestCount (foldl mark v l) = activeRequestCount v).
    { clear. induction l as [|i l IH]; intros v; simpl; [done|].
      rewrite IH. unfold mark. by destruct (chunks v !! i). }
    by rewrite Hm. }
  split; [done|]. split.
  - rewrite Hact. pose proof (length_inflight ws) as Hl.
    unfold ws, processQueue in Hl. rewrite run_length in Hl.
    rewrite length_replicate in Hl. fold ws in Hl. unfold processQueue.
    unfold ws, processQueue. lia.
  - intros Hex. rewrite Hact.
    assert (Hnil : ∀ l, all_exited l = true → inflight l = []).
    { clear. induction l as [|wk l IH]; simpl; [done|].
      intros [Hwk Hl]%andb_prop. unfold inflight in *. simpl.
      destruct wk; try done. simpl. by apply IH. }
    by rewrite (Hnil ws Hex).
Qed.

End in_flight.

Section in_flight_witnesses.
Import Uploader Schedule MoreSamples.

Lemma requests_in_flight_bounded_witness :
  let u1 := updateStatus TransferState.UPLOADING
              (setUploadId "s1" (new one_byte_file)) in
  let u2 := setQueue (index <$> filter (λ c, status c ≠ ChunkState.SUCCESS)
                        (chunks u1)) u1 in
  let ws := (processQueue flaky_network [] u2).1 in
  let u3 := (processQueue flaky_network [] u2).2 in
  handshake flaky_network (new one_byte_file) = Some u1
  ∧ activeRequestCount u3 = Z.of_nat (length (inflight ws))
  ∧ (0 ≤ activeRequestCount u3 ≤ Z.of_nat CONCURRENCY)%Z
  ∧ (all_exited ws = true → activeRequestCount u3 = 0%Z).
Proof.
  intros u1 u2 ws u3. split; [reflexivity|].
  exact (requests_in_flight_bounded flaky_network one_byte_file [] u1 eq_refl).
Defined.

End in_flight_witnesses.

(** ** The progress figure *)

Section progress.
Import Uploader Schedule.
Local Open Scope list_scope.
Variable net : Network.

Lemma sum_alter {A} (g : A → Z) (h : A → A) (l : list A) i c :
  l !! i = Some c →
  foldr Z.add 0%Z (g <$> alter h i l) =
    (foldr Z.add 0 (g <$> l) - g c + g (h c))%Z.
Proof.
  revert i. induction l as [|x l IH]; intros [|i] Hi; try done.
  - injection Hi as ->. simpl. lia.
  - change (alter h (S i) (x :: l)) with (x :: alter h i l).
    rewrite !fmap_cons. simpl. rewrite (IH i Hi). lia.
Qed.

Lemma alter_missing {A} (h : A → A) (l : list A) i :
  l !! i = None → alter h i l = l.
Proof.
  intros Hi. rewrite <- (list_alter_id id l i) at 2 by done.
  apply list_alter_ext; [|done]. intros x Hx. congruence.
Qed.

Lemma indexed_seq (l : list ChunkStatus) :
  (∀ i c, l !! i = Some c → index c = i) → index <$> l = seq 0 (length l).
Proof.
  intros Hidx. apply list_eq. intros i. rewrite list_lookup_fmap.
  destruct (l !! i) as [c|] eqn:Hi; simpl.
  - rewrite (Hidx _ _ Hi). symmetry. apply lookup_seq.
    split; [done|]. by eapply lookup_lt_Some.
  - symmetry. apply lookup_ge_None. rewrite length_seq.
    by apply lookup_ge_None.
Qed.

Lemma getChunkSize_nonneg f (i : nat) :
  (Z.of_nat i < totalChunks f)%Z → (0 ≤ getChunkSize f i)%Z.
Proof. intros Hi. rewrite getChunkSize_length by done. lia. Qed.

Lemma credited_le (f : File) (l : list ChunkStatus) :
  (∀ c, c ∈ l → (Z.of_nat (index c) < totalChunks f)%Z) →
  (0 ≤ foldr Z.add 0 (credit f <$> l)
   ≤ foldr Z.add 0 (getChunkSize f <$> (index <$> l)))%Z
  ∧ (Forall (λ c, status c = ChunkState.SUCCESS) l →
     foldr Z.add 0%Z (credit f <$> l) =
       foldr Z.add 0%Z (getChunkSize f <$> (index <$> l))).
Proof.
  induction l as [|c l IH]; intros Hin.
  { split; [simpl; lia|done]. }
  rewrite !fmap_cons. cbn [foldr].
  destruct IH as [IH1 IH2]; [intros c' Hc'; apply Hin; by right|].
  pose proof (getChunkSize_nonneg f (index c) (Hin c ltac:(by left))) as Hc.
  assert (Hcr : (0 ≤ credit f c ≤ getChunkSize f (index c))%Z
                ∧ (status c = ChunkState.SUCCESS →
                   credit f c = getChunkSize f (index c))).
  { unfold credit. case_decide; split; (lia || done). }
  destruct Hcr as [Hcr1 Hcr2]. split; [lia|].
  intros [Hs Hl]%Forall_cons. by rewrite Hcr2, IH2.
Qed.

Lemma credited_bounds u :
  indexed u → Z.of_nat (length (chunks u)) = totalChunks (file u) →
  (0 ≤ credited u ≤ size (file u))%Z
  ∧ (Forall (λ c, status c = ChunkState.SUCCESS) (chunks u) →
     credited u = size (file u)).
Proof.
  intros Hidx Hlen. unfold credited.
  destruct (credited_le (file u) (chunks u)) as [Hb He].
  { intros c [i Hi]%list_elem_of_lookup. rewrite (Hidx _ _ Hi).
    apply lookup_lt_Some in Hi. lia. }
  rewrite (indexed_seq _ Hidx) in Hb, He.
  replace (length (chunks u)) with (Z.to_nat (totalChunks (file u))) in Hb, He
    by lia.
  rewrite chunk_sizes_sum in Hb, He. done.
Qed.

Lemma updateStatus_accounted s u : accounted u → accounted (updateStatus s u).
Proof.
  intros (Hidx & Hlen & Hld & Hrep).
  split; [done|]. split; [done|]. split; [done|].
  intros r [Hr| ->%list_elem_of_singleton]%elem_of_app; [by apply Hrep|].
  simpl. rewrite Hld. split; [done|]. by apply credited_bounds.
Qed.

(** Changing the status of a chunk that is not in SUCCESS. *)
Lemma setChunk_accounted i s u :
  accounted u →
  (∀ c, chunks u !! i = Some c → status c ≠ ChunkState.SUCCESS) →
  accounted
    (addLoaded (if decide (s = ChunkState.SUCCESS)
                then match chunks u !! i with
                     | Some _ => getChunkSize (file u) i
                     | None => 0
                     end
                else 0)%Z
       (setChunk i s u)).
Proof.
  intros (Hidx & Hlen & Hld & Hrep) Hns. split; [|split; [|split]]; simpl.
  - intros j c. simpl. rewrite list_lookup_alter.
    case_decide as Hij; [|apply Hidx]. subst j.
    destruct (chunks u !! i) as [ci|] eqn:Hi; simpl; [|done].
    intros [= <-]. simpl. by apply Hidx.
  - by rewrite length_alter.
  - unfold credited. simpl. rewrite Hld. unfold credited.
    destruct (chunks u !! i) as [ci|] eqn:Hi.
    + rewrite (sum_alter _ _ _ _ _ Hi). unfold credit at 3 4. simpl.
      rewrite (decide_False (P := status ci = _)) by by apply Hns.
      rewrite (Hidx _ _ Hi). case_decide; lia.
    + rewrite alter_missing by done.
      case_decide; lia.
  - exact Hrep.
Qed.

Lemma accounted_ext u v :
  accounted u → file v = file u → chunks v = chunks u →
  loadedBytes v = loadedBytes u → reports v = reports u → accounted v.
Proof.
  unfold accounted, indexed, credited.
  intros H -> -> -> ->. exact H.
Qed.

Lemma step_accounted ws k wk u :
  ws !! k = Some wk → pending_ok ws u → accounted u →
  accounted (step net wk u).2.
Proof.
  intros Hk [_ Hns] Hacc.
  assert (Hfly : ∀ i, worker_chunk wk = Some i →
            ∀ c, chunks u !! i = Some c → status c ≠ ChunkState.SUCCESS).
  { intros i Hi c Hc. apply (Hns i c); [|done].
    apply elem_of_app. right. unfold inflight. apply list_elem_of_omap.
    exists wk. split; [|done]. by eapply list_elem_of_lookup_2. }
  destruct wk as [|i r d|i r d| |]; simpl; try done.
  - destruct (aborted u); [done|].
    destruct (queue u) as [|i rest] eqn:Hq; [done|]. simpl.
    destruct (chunks u !! i) as [c|] eqn:Hc; [|done].
    apply updateStatus_accounted.
    pose proof (setChunk_accounted i ChunkState.UPLOADING u Hacc) as H.
    rewrite decide_False in H by done.
    eapply accounted_ext; [apply H|done|done|simpl; lia|done].
    intros c' Hc'. apply (Hns i c'); [|done].
    apply elem_of_app. left. by left.
  - destruct (net_chunk net i r).
    + apply updateStatus_accounted.
      pose proof (setChunk_accounted i ChunkState.SUCCESS u Hacc
                    (Hfly i eq_refl)) as H.
      rewrite decide_True in H by done.
      destruct Hacc as (Hidx & Hlen & _).
      assert (Hsz : Z.of_nat (length (getChunk (file u) i)) =
                match chunks u !! i with
                | Some _ => getChunkSize (file u) i
                | None => 0%Z
                end).
      { destruct (chunks u !! i) as [c|] eqn:Hc.
        - rewrite getChunkSize_length; [done|].
          apply lookup_lt_Some in Hc. lia.
        - apply lookup_ge_None in Hc.
          destruct (getChunk_beyond (file u) i) as [-> _]; [lia|done]. }
      rewrite <- Hsz in H.
      eapply accounted_ext; [apply H|done..].
    + destruct (decide (0 < r)%nat) as [Hr|Hr]; [done|].
      apply updateStatus_accounted.
      pose proof (setChunk_accounted i ChunkState.ERROR u Hacc
                    (Hfly i eq_refl)) as H.
      rewrite decide_False in H by done.
      eapply accounted_ext; [apply H|done|done|simpl; lia|done].
Qed.

Lemma run_accounted sched ws u :
  pending_ok ws u → accounted u → accounted (run net sched ws u).2.
Proof.
  revert ws u. induction sched as [|k rest IH]; intros ws u Hok Hacc; simpl.
  - done.
  - destruct (ws !! k) as [wk|] eqn:Hk; [|by apply IH].
    destruct (step_keeps_success net ws k wk u Hk Hok) as [Hok' _].
    pose proof (step_accounted ws k wk u Hk Hok Hacc) as Hacc'.
    destruct (step net wk u) as [wk' u']. by apply IH.
Qed.

Lemma step_file wk u : file (step net wk u).2 = file u.
Proof.
  destruct wk as [|i r d|i r d| |]; simpl; try done.
  - destruct (aborted u); [done|]. destruct (queue u) as [|i rest]; [done|].
    simpl. by destruct (chunks u !! i).
  - destruct (net_chunk net i r); [done|]. by case_decide.
Qed.

Lemma run_file sched ws u : file (run net sched ws u).2 = file u.
Proof.
  revert ws u. induction sched as [|k rest IH]; intros ws u; simpl; [done|].
  destruct (ws !! k) as [wk|]; [|apply IH].
  pose proof (step_file wk u) as Hf.
  destruct (step net wk u) as [wk' u']. rewrite IH. exact Hf.
Qed.

(** The queue [start] builds holds each chunk that is not in SUCCESS
    once. *)
Lemma start_pending_ok u1 :
  indexed u1 →
  pending_ok (replicate CONCURRENCY AtLoop)
    (setQueue (index <$> filter (λ c, status c ≠ ChunkState.SUCCESS)
                 (chunks u1)) u1).
Proof.
  intros Hidx. split; simpl.
  - rewrite app_nil_r. apply NoDup_fmap_2_strong.
    + intros c1 c2 H1%list_elem_of_filter H2%list_elem_of_filter Heq.
      destruct H1 as [_ [k1 H1]%list_elem_of_lookup].
      destruct H2 as [_ [k2 H2]%list_elem_of_lookup].
      rewrite (Hidx _ _ H1), (Hidx _ _ H2) in Heq. congruence.
    + apply NoDup_filter, NoDup_alt. intros k1 k2 c H1 H2.
      rewrite <- (Hidx _ _ H1). by apply Hidx.
  - rewrite app_nil_r. intros i c (c' & -> & Hc')%list_elem_of_fmap Hc.
    apply list_elem_of_filter in Hc' as [Hs [k Hk]%list_elem_of_lookup].
    rewrite (Hidx _ _ Hk) in Hc. congruence.
Qed.

Lemma new_accounted f : accounted (new f).
Proof.
  split; [apply new_indexed|]. split; [apply length_chunks_new|].
  split; [|by intros r Hr%elem_of_nil].
  unfold credited. simpl.
  induction (seq 0 (Z.to_nat (totalChunks f))) as [|i l IH]; [done|].
  rewrite !fmap_cons. cbn [foldr]. rewrite <- IH. reflexivity.
Qed.

(** The handshake with a resume list free of repetitions. *)
Lemma handshake_accounted f id existing u1 :
  net_init net = Some (id, existing) → NoDup (default [] existing) →
  handshake net (new f) = Some u1 →
  accounted u1.
Proof.
  intros Hnet Hnd. unfold handshake. rewrite Hnet. intros [= <-].
  apply updateStatus_accounted.
  set (mark := λ (u : Uploader) (i : nat),
         match chunks u !! i with
         | Some _ => addLoaded (getChunkSize (file u) i)
                       (setChunk i ChunkState.SUCCESS u)
         | None => u
         end).
  assert (Hmark : ∀ l v, NoDup l → accounted v →
            (∀ i c, i ∈ l → chunks v !! i = Some c →
                    status c ≠ ChunkState.SUCCESS) →
            accounted (foldl mark v l)).
  { induction l as [|i l IH]; intros v Hl Hv Hns; simpl; [done|].
    apply NoDup_cons in Hl as [Hi Hl]. apply IH; [done| |].
    - unfold mark. destruct (chunks v !! i) as [ci|] eqn:Hci; [|done].
      pose proof (setChunk_accounted i ChunkState.SUCCESS v Hv) as H.
      rewrite decide_True, Hci in H by done. apply H.
      intros c [= <-]. apply (Hns i ci); [by left|done].
    - intros j c Hj. unfold mark.
      destruct (chunks v !! i) as [ci|] eqn:Hci.
      + simpl. rewrite list_lookup_alter_ne by (intros ->; done).
        apply Hns. by right.
      + apply Hns. by right. }
  assert (H0 : accounted (setUploadId id (new f))).
  { eapply accounted_ext; [apply (new_accounted f)|done..]. }
  destruct existing as [l|]; [|done].
  apply Hmark; [done|done|].
  intros i c _. simpl. rewrite list_lookup_fmap.
  destruct (seq 0 _ !! i); simpl; [|done]. by intros [= <-].
Qed.

Lemma transfer_accounted sched f id existing u' :
  net_init net = Some (id, existing) → NoDup (default [] existing) →
  start net sched (new f) = Some u' →
  accounted u' ∧ file u' = f.
Proof.
  intros Hnet Hnd. unfold start.
  destruct (handshake net (new f)) as [u1|] eqn:Hh.
  2:{ unfold handshake in Hh. by rewrite Hnet in Hh. }
  pose proof (handshake_accounted f id existing u1 Hnet Hnd Hh) as Hacc1.
  destruct (handshake_keeps net _ _ Hh) as (_ & Hf1 & _).
  unfold processQueue. set (u2 := setQueue _ u1).
  set (sch := seq 0 CONCURRENCY ++ sched).
  assert (Hacc2 : accounted u2).
  { eapply accounted_ext; [apply Hacc1|done..]. }
  pose proof (run_accounted sch (replicate CONCURRENCY AtLoop) u2
                (start_pending_ok u1 (proj1 Hacc1)) Hacc2) as Hacc3.
  pose proof (run_file sch (replicate CONCURRENCY AtLoop) u2) as Hf3.
  destruct (run net sch (replicate CONCURRENCY AtLoop) u2) as [ws u3].
  simpl in Hacc3, Hf3.
  assert (Hf : file u3 = f) by (rewrite Hf3; exact Hf1).
  assert (Hacc4 : accounted (countFinalize u3)).
  { eapply accounted_ext; [apply Hacc3|done..]. }
  destruct (some_threw ws).
  { intros [= <-]. split; [by apply updateStatus_accounted|done]. }
  destruct (all_exited ws); [|done].
  destruct (negb (aborted u3) && every_success u3).
  - destruct (net_finalize net); intros [= <-];
      (split; [by apply updateStatus_accounted|done]).
  - by intros [= <-].
Qed.

(** X26. When the server's resume list names no chunk twice, the progress
    figure of a transfer is exact: at the end [loadedBytes] is the
    total size of the chunks in SUCCESS, every report made to
    [onProgress] carries the size of the file as total and an uploaded
    figure between 0 and that size, and a transfer that was not
    aborted ends with the uploaded figure equal to the size of the
    file. *)
Theorem progress_is_exact sched (f : File) id existing u' :
  net_init net = Some (id, existing) → NoDup (default [] existing) →
  start net sched (new f) = Some u' →
  loadedBytes u' = credited u'
  ∧ (∀ r, r ∈ reports u' →
       total r = size f ∧ (0 ≤ uploaded r ≤ size f)%Z)
  ∧ (aborted u' = false →
     loadedBytes u' = size f
     ∧ (uploaded <$> last (reports u')) = Some (size f)).
Proof.
  intros Hnet Hnd Hstart.
  destruct (transfer_accounted sched f id existing u' Hnet Hnd Hstart)
    as [(Hidx & Hlen & Hld & Hrep) Hf].
  rewrite Hf in Hrep. split; [done|]. split; [done|]. intros Hab.
  destruct (transfer_not_aborted net sched f u' Hstart) as (Hall & _ & Hlast);
    [by rewrite Hnet|done|].
  destruct (credited_bounds u' Hidx Hlen) as [_ Hfull].
  assert (Hsz : loadedBytes u' = size f) by (rewrite Hld, Hfull, Hf; done).
  split; [done|].
  (* the last report is made after the last change of [loadedBytes] *)
  revert Hstart Hab. unfold start.
  destruct (handshake net (new f)) as [u1|] eqn:Hh.
  2:{ unfold handshake in Hh. by rewrite Hnet in Hh. }
  destruct (processQueue net sched _) as [ws u3].
  destruct (some_threw ws).
  { intros [= <-] _. simpl. rewrite last_snoc. simpl. f_equal. exact Hsz. }
  destruct (all_exited ws); [|done].
  destruct (negb (aborted u3) && every_success u3) eqn:Hgo.
  - destruct (net_finalize net); intros [= <-] _; simpl;
      rewrite last_snoc; simpl; f_equal; exact Hsz.
  - intros [= <-] Hab. rewrite Hab in Hgo. simpl in Hgo.
    exfalso. unfold every_success in Hgo.
    apply not_true_iff_false in Hgo. apply Hgo.
    apply forallb_forall. intros c Hc%list_elem_of_In.
    apply bool_decide_eq_true_2. rewrite Forall_forall in Hall. by apply Hall.
Qed.

End progress.

Section progress_witnesses.
Import Uploader Schedule MoreSamples.

Lemma progress_is_exact_witness :
  ∃ u',
    (net_init flaky_network = Some ("s1", Some [])
     ∧ NoDup (default [] (Some ([] : list nat)))
     ∧ start flaky_network (round_robin 25) (new one_byte_file) = Some u')
    ∧ loadedBytes u' = credited u'
    ∧ (∀ r, r ∈ reports u' →
         total r = size one_byte_file
         ∧ (0 ≤ uploaded r ≤ size one_byte_file)%Z)
    ∧ (aborted u' = false →
       loadedBytes u' = size one_byte_file
       ∧ (uploaded <$> last (reports u')) = Some (size one_byte_file)).
Proof.
  destruct (start flaky_network (round_robin 25) (new one_byte_file))
    as [u'|] eqn:Hs; [|vm_compute in Hs; discriminate].
  exists u'. split; [split; [reflexivity|split; [constructor|reflexivity]]|].
  exact (progress_is_exact flaky_network (round_robin 25) one_byte_file
           "s1" (Some []) u' eq_refl (NoDup_nil_2 : NoDup (default [] (Some []))) Hs).
Defined.

End progress_witnesses.

(** ** The handshake, from the client to the server and back *)

Section client_handshake.
Import Uploader.
Local Open Scope list_scope.

(** X27. The handshake the client builds for a file with a name, served by
    [/init] on any store: for an empty file it is refused with the 400
    "Missing required fields" and nothing changes; for any other file
    it is answered 200 with a session that is in the store, UPLOADING,
    carries the name and the size of the file and, when it was created
    by this request, the number of chunks the client cut the file
    into. *)
Theorem client_handshake_validates now (f : File) (w : Routes.World) :
  name f ≠ "" →
  let r := Routes.init now (handshakeBody (new f)) w in
  (bytes f = []
   ∧ r = (w, Routes.respond 400 (Routes.JError "Missing required fields")))
  ∨ (bytes f ≠ []
     ∧ ∃ id u,
         r.2 = Routes.respond 200
                 (Routes.JInit id (Routes.completedChunks id (Routes.chunks w)))
         ∧ Routes.uploads r.1 !! id = Some u
         ∧ Routes.filename u = name f ∧ Routes.totalSize u = size f
         ∧ Routes.status u = Status.UPLOADING
         ∧ (Routes.uploads w !! id = None →
            Routes.totalChunks u = totalChunks f)).
Proof.
  intros Hname r. unfold r, handshakeBody.
  pose proof (totalChunks_bounds f) as Hn.
  pose proof (length_chunks_new f) as Hlen.
  destruct (bytes f) as [|b l] eqn:Hb.
  - left. split; [done|].
    assert (Hs : size f = 0%Z) by (unfold size; by rewrite Hb).
    unfold Routes.init. cbn [Routes.req_filename Routes.req_totalSize
                             Routes.req_totalChunks file new].
    rewrite Hs. simpl. by case_decide.
  - right. split; [done|].
    assert (Hs : size f ≠ 0%Z) by (unfold size; rewrite Hb; simpl; lia).
    assert (Hc : Z.of_nat (length (chunks (new f))) ≠ 0%Z).
    { rewrite Hlen. pose proof (size_nonneg f).
      unfold CHUNK_SIZE in *. lia. }
    change (file (new f)) with f.
    rewrite init_valid by done.
    destruct (Routes.findFirst _ _ _) as [[id u]|] eqn:Hf.
    + apply findFirst_Some in Hf as (Hm & ? & ? & ?). exists id, u.
      repeat split; try done. intros Hnone. simpl in Hnone. congruence.
    + eexists _, _. split; [done|]. simpl. rewrite lookup_insert_eq.
      repeat split; try done.
Qed.

Lemma client_handshake_validates_witness :
  name one_byte_file ≠ ""
  ∧ ∃ id u,
      (Routes.init 5 (handshakeBody (new one_byte_file)) world_empty).2 =
        Routes.respond 200 (Routes.JInit id [])
      ∧ Routes.uploads
          (Routes.init 5 (handshakeBody (new one_byte_file)) world_empty).1 !! id
        = Some u
      ∧ Routes.totalChunks u = 1%Z.
Proof.
  assert (Hn : name one_byte_file ≠ "") by discriminate.
  split; [exact Hn|].
  destruct (client_handshake_validates 5 one_byte_file world_empty Hn)
    as [[He _]|(_ & id & u & Hr & Hu & _ & _ & _ & Hc)]; [discriminate|].
  exists id, u. split; [exact Hr|]. split; [exact Hu|].
  rewrite (Hc (lookup_empty (M := gmap string) id)). reflexivity.
Defined.

End client_handshake.

(** ** Resuming *)

Section resume.
Import Uploader.
Local Open Scope list_scope.
Variable net : Network.

Lemma mark_lookup (l : list nat) (v : Uploader) (j : nat) :
  let s := λ c, {| index := index c; status := ChunkState.SUCCESS;
                   attempts := attempts c |} in
  let mark := λ (u : Uploader) (i : nat),
    match chunks u !! i with
    | Some _ => addLoaded (getChunkSize (file u) i)
                  (setChunk i ChunkState.SUCCESS u)
    | None => u
    end in
  chunks (foldl mark v l) !! j =
    (λ c, if decide (j ∈ l) then s c else c) <$> chunks v !! j.
Proof.
  intros s mark. revert v. induction l as [|i l IH]; intros v.
  - cbn [foldl]. destruct (chunks v !! j) as [c|]; [|done].
    change (Some c = Some (if decide (j ∈ []) then s c else c)).
    rewrite decide_False; [done|apply not_elem_of_nil].
  - cbn [foldl]. rewrite IH.
    assert (Hm : chunks (mark v i) !! j =
                 (if decide (i = j) then s <$> chunks v !! i
                  else chunks v !! j)).
    { unfold mark. destruct (chunks v !! i) as [ci|] eqn:Hi.
      - rewrite <- Hi. apply list_lookup_alter.
      - destruct (decide (i = j)) as [<-|Hij]; [|done]. by rewrite Hi. }
    rewrite Hm. destruct (decide (i = j)) as [->|Hij].
    + destruct (chunks v !! j) as [c|]; [|done].
      change (Some (if decide (j ∈ l) then s (s c) else s c) =
              Some (if decide (j ∈ j :: l) then s c else c)).
      rewrite (decide_True (P := j ∈ j :: l)) by by left.
      by case_decide.
    + destruct (chunks v !! j) as [c|]; [|done].
      change (Some (if decide (j ∈ l) then s c else c) =
              Some (if decide (j ∈ i :: l) then s c else c)).
      destruct (decide (j ∈ l)) as [Hj|Hj].
      * rewrite decide_True by by right. done.
      * rewrite decide_False; [done|].
        intros [?|?]%elem_of_cons; [congruence|done].
Qed.

Lemma filter_fmap_index (h : nat → ChunkStatus) (Q : nat → Prop)
    `{!∀ j, Decision (Q j)} (l0 : list nat) :
  (∀ j, index (h j) = j) →
  (∀ j, status (h j) ≠ ChunkState.SUCCESS ↔ Q j) →
  index <$> filter (λ c, status c ≠ ChunkState.SUCCESS) (h <$> l0)
  = filter Q l0.
Proof.
  intros Hi Hq. induction l0 as [|j l0 IH]; [done|].
  rewrite fmap_cons. destruct (decide (Q j)) as [Hj|Hj].
  - rewrite (filter_cons_True _ (h j)) by by apply Hq.
    rewrite (filter_cons_True Q j) by done.
    rewrite fmap_cons, Hi, IH. done.
  - rewrite (filter_cons_False _ (h j)) by by rewrite Hq.
    rewrite (filter_cons_False Q j) by done. done.
Qed.

(** X28. A handshake answered with session [id] and resume list [l]: the
    client takes the id, the chunks whose index is in [l] are in
    SUCCESS and the others stay PENDING (an index that names no chunk
    is ignored), and the queue [start] builds from them holds, in
    ascending order and once each, exactly the indices that are not in
    [l]: a chunk the server has is not sent again. *)
Theorem resumed_chunks_are_skipped (f : File) (id : string) (l : list nat) u1 :
  net_init net = Some (id, Some l) →
  handshake net (new f) = Some u1 →
  let n := Z.to_nat (totalChunks f) in
  uploadId u1 = Some id
  ∧ chunks u1 =
      (λ j, {| index := j;
               status := if decide (j ∈ l) then ChunkState.SUCCESS
                         else ChunkState.PENDING;
               attempts := 0 |}) <$> seq 0 n
  ∧ index <$> filter (λ c, status c ≠ ChunkState.SUCCESS) (chunks u1)
    = filter (λ j, j ∉ l) (seq 0 n).
Proof.
  intros Hnet. unfold handshake. rewrite Hnet. intros [= <-].
  set (n := Z.to_nat (totalChunks f)).
  cbn [uploadId chunks updateStatus].
  set (mark := λ (u : Uploader) (i : nat), _).
  assert (Hid : uploadId (foldl mark (setUploadId id (new f)) l) = Some id).
  { assert (H : ∀ l v, uploadId (foldl mark v l) = uploadId v).
    { clear. induction l as [|i l IH]; intros v; simpl; [done|].
      rewrite IH. unfold mark. by destruct (chunks v !! i). }
    by rewrite H. }
  assert (Hch : chunks (foldl mark (setUploadId id (new f)) l) =
            (λ j, {| index := j;
                     status := if decide (j ∈ l) then ChunkState.SUCCESS
                               else ChunkState.PENDING;
                     attempts := 0 |}) <$> seq 0 n).
  { apply list_eq. intros j.
    etrans; [apply (mark_lookup l (setUploadId id (new f)) j)|].
    cbn [chunks setUploadId new]. fold n.
    rewrite !list_lookup_fmap.
    destruct (seq 0 n !! j) as [k|] eqn:Hk; simpl; [|done].
    apply lookup_seq in Hk as [-> _]. simpl. by case_decide. }
  split; [done|]. split; [done|]. rewrite Hch.
  apply filter_fmap_index; [done|].
  intros j. simpl. case_decide; split; (done || congruence).
Qed.

End resume.

Section resume_witnesses.
Import Uploader MoreSamples.

Lemma resumed_chunks_are_skipped_witness :
  let u1 := updateStatus TransferState.UPLOADING
              (addLoaded 1 (setChunk 0 ChunkState.SUCCESS
                              (setUploadId "s1" (new one_byte_file)))) in
  (net_init resuming_network = Some ("s1", Some [0%nat])
   ∧ handshake resuming_network (new one_byte_file) = Some u1)
  ∧ uploadId u1 = Some "s1"
  ∧ index <$> filter (λ c, status c ≠ ChunkState.SUCCESS) (chunks u1) = [].
Proof.
  intros u1. split; [split; reflexivity|].
  destruct (resumed_chunks_are_skipped resuming_network one_byte_file "s1"
              [0%nat] u1 eq_refl eq_refl) as (Hid & _ & Hq).
  split; [exact Hid|]. rewrite Hq. reflexivity.
Defined.

End resume_witnesses.
